(** * Scheduler queue: utilization-aware dequeue and the queue broker

    A shallow embedding of the request-queue scheduling core:
    - [ReserveConnections]: the reserved-capacity threshold check
      ([queryComponentUtilizationReserveConnections]);
    - [SkipOver]: the node-ordering algorithm
      [queryComponentUtilizationDequeueSkipOverThreshold];
    - [Tree]: the path-addressed tree the algorithm is plugged into;
    - [Broker]: [queueBroker] with its enqueue and dequeue entry points.

    Go's [int] is a 64-bit two's-complement integer, embedded as [Z] with
    the wrap-around written out ([GoInt]).  Go's [float64] is IEEE 754
    binary64, embedded as [spec_float] at precision 53 ([GoFloat]). *)

From Stdlib Require Import ZArith List String Lia Bool.
From Stdlib Require Import Floats.SpecFloat.
From stdpp Require Import base option list gmap strings.
From Equations Require Import Equations.

Local Open Scope Z_scope.

(* ===================================================================== *)
(** * Part I: definitions                                                 *)
(* ===================================================================== *)

(** ** Go machine integers *)

Module GoInt.

Definition min_int : Z := - 2 ^ 63.
Definition max_int : Z := 2 ^ 63 - 1.

(** Reduction of a mathematical integer to the 64-bit signed range. *)
Definition wrap (z : Z) : Z := (z + 2 ^ 63) mod 2 ^ 64 - 2 ^ 63.

Definition add (a b : Z) : Z := wrap (a + b).
Definition sub (a b : Z) : Z := wrap (a - b).

(** [x++] *)
Definition incr (a : Z) : Z := add a 1.

Definition in_range (z : Z) : Prop := min_int <= z <= max_int.

(** [len(s)] of a slice. *)
Definition len {A} (l : list A) : Z := Z.of_nat (length l).

End GoInt.

(** ** Go float64 *)

Module GoFloat.

Definition prec : Z := 53.
Definition emax : Z := 1024.

Definition float64 : Type := spec_float.

(** Conversion [float64(n)] of an integer, rounding to nearest even. *)
Definition of_int (z : Z) : float64 := binary_normalize prec emax z 0 false.

Definition mul (x y : float64) : float64 := SFmul prec emax x y.
Definition div (x y : float64) : float64 := SFdiv prec emax x y.

(** [x > y] (false as soon as one side is NaN). *)
Definition gtb (x y : float64) : bool := SFltb y x.

Definition is_nan (x : float64) : bool :=
  match x with S754_nan => true | _ => false end.

Definition is_pos_inf (x : float64) : bool :=
  match x with S754_infinity false => true | _ => false end.

Definition is_zero (x : float64) : bool :=
  match x with S754_zero _ => true | _ => false end.

Definition signbit (x : float64) : bool :=
  match x with
  | S754_zero s | S754_infinity s | S754_finite s _ _ => s
  | S754_nan => false
  end.

(** [math.Max]: +Inf wins, then NaN, then the sign of zero, then [>]. *)
Definition Max (x y : float64) : float64 :=
  if is_pos_inf x || is_pos_inf y then S754_infinity false
  else if is_nan x || is_nan y then S754_nan
  else if is_zero x && is_zero y then (if signbit x then y else x)
  else if gtb x y then x else y.

(** The integer [ceil (± m * 2^e)]. *)
Definition ceil_Z (s : bool) (m : positive) (e : Z) : Z :=
  if 0 <=? e then (if s then - (Z.pos m * 2 ^ e) else Z.pos m * 2 ^ e)
  else
    let d := 2 ^ (- e) in
    if s then - (Z.pos m / d)
    else if Z.pos m mod d =? 0 then Z.pos m / d else Z.pos m / d + 1.

(** [math.Ceil]: the least integer value not below [x]; zeros,
    infinities and NaN are returned as they are, and a negative
    fraction above -1 gives the negative zero. *)
Definition Ceil (x : float64) : float64 :=
  match x with
  | S754_finite s m e =>
      if 0 <=? e then x
      else
        let z := ceil_Z s m e in
        if z =? 0 then S754_zero s else binary_normalize prec emax z 0 false
  | _ => x
  end.

(** The conversion [int(x)]: the fraction is discarded (truncation
    towards zero).  Go leaves the result open when the value does not
    fit; the amd64 conversion instruction gives the least integer then,
    and that is what is written here. *)
Definition to_int (x : float64) : Z :=
  match x with
  | S754_zero _ => 0
  | S754_finite s m e =>
      let mag := if 0 <=? e then Z.pos m * 2 ^ e else Z.pos m / 2 ^ (- e) in
      let z := if s then - mag else mag in
      if (GoInt.min_int <=? z) && (z <=? GoInt.max_int) then z
      else GoInt.min_int
  | _ => GoInt.min_int
  end.

Definition zero : float64 := S754_zero false.
Definition one : float64 := of_int 1.

(** The binary64 value denoted by the decimal literal [n/10^k]
    (correctly rounded, as the Go compiler does for constants). *)
Definition decimal (n : Z) (k : Z) : float64 :=
  div (of_int n) (of_int (10 ^ k)).

End GoFloat.

(** ** Outcomes of operations that may panic *)

Inductive panic : Type :=
| IndexOutOfRange            (* s[i] with i outside 0 <= i < len(s) *)
| SliceBoundsOutOfRange.     (* s[i:] or s[:i] outside the bounds *)

Inductive Res (A : Type) : Type :=
| Ok (a : A)
| Panic (p : panic).
Arguments Ok {A} a.
Arguments Panic {A} p.

#[global] Instance Res_bind : MBind Res := fun A B f r =>
  match r with
  | Ok a => f a
  | Panic p => Panic p
  end.

#[global] Instance Res_ret : MRet Res := fun A a => Ok a.

(** [s[i]] on a slice. *)
Definition index {A} (l : list A) (i : Z) : Res A :=
  if (0 <=? i) && (i <? GoInt.len l) then
    match l !! Z.to_nat i with
    | Some a => Ok a
    | None => Panic IndexOutOfRange
    end
  else Panic IndexOutOfRange.

(** ** Query components and their utilization *)

(** [QueryComponent] is a string type; the function returns the constants
    [Ingester], [StoreGateway] or the empty string. *)
Inductive QueryComponent : Type :=
| NoComponent      (* "" *)
| Ingester
| StoreGateway.

(** The fields of [QueryComponentUtilization] that the threshold check
    reads. *)
Record QueryComponentUtilization : Type := mkUtilization {
  targetReservedCapacity : GoFloat.float64;
  ingesterInflightRequests : Z;
  storeGatewayInflightRequests : Z
}.

(** The interface [queryComponentUtilizationCheck]: a value of the
    interface is the pair of its methods, bound to their receiver. *)
Record queryComponentUtilizationCheck : Type := mkCheck {
  iTriggerUtilizationCheck : bool;
  iExceedsThresholdForComponentName : string -> bool * QueryComponent
}.

Record queryComponentUtilizationReserveConnections : Type := mkReserve {
  utilization : QueryComponentUtilization;
  connectedWorkers : Z;
  waitingWorkers : Z;
  queueLen : Z
}.

Module ReserveConnections.
Section WithFlags.

(** [queryComponentFlags name] tells whether [name] denotes the
    ingester kind and whether it denotes the store-gateway kind.  The
    helper and the names it recognises are declared elsewhere in the
    repository, so it is a parameter here. *)
Variable queryComponentFlags : string -> bool * bool.

(** The local variable [minReservedConnections]. *)
Definition minReservedConnections
    (qcurc : queryComponentUtilizationReserveConnections) : Z :=
  let trc := targetReservedCapacity (utilization qcurc) in
  if GoFloat.gtb trc GoFloat.zero then
    GoFloat.to_int
      (GoFloat.Ceil
         (GoFloat.Max
            (GoFloat.mul trc (GoFloat.of_int (connectedWorkers qcurc)))
            GoFloat.one))
  else 0.

Definition ExceedsThresholdForComponentName
    (qcurc : queryComponentUtilizationReserveConnections) (name : string)
  : bool * QueryComponent :=
  if connectedWorkers qcurc <=? 1 then (false, NoComponent)
  else
    let minReserved := minReservedConnections qcurc in
    let '(isIngester, isStoreGateway) := queryComponentFlags name in
    if isIngester
       && (GoInt.sub (connectedWorkers qcurc)
             (ingesterInflightRequests (utilization qcurc)) <=? minReserved)
    then (true, Ingester)
    else if isStoreGateway
       && (GoInt.sub (connectedWorkers qcurc)
             (storeGatewayInflightRequests (utilization qcurc)) <=? minReserved)
    then (true, StoreGateway)
    else (false, NoComponent).

Definition TriggerUtilizationCheck
    (qcurc : queryComponentUtilizationReserveConnections) : bool :=
  if waitingWorkers qcurc >? queueLen qcurc then false else true.

(** The struct seen through the interface. *)
Definition as_check (qcurc : queryComponentUtilizationReserveConnections)
  : queryComponentUtilizationCheck :=
  {| iTriggerUtilizationCheck := TriggerUtilizationCheck qcurc;
     iExceedsThresholdForComponentName :=
       ExceedsThresholdForComponentName qcurc |}.

End WithFlags.
End ReserveConnections.

(** ** Nodes of the queue tree *)

Definition QueuePath : Type := list string.

Set Warnings "-register-all".

(** Modelled from the spec: the declaration of [Node] is declared elsewhere in
    the repository.  A node has a name, a local first-in-first-out queue
    of items and a map from child names to the child nodes it owns. *)
Inductive Node (A : Type) : Type := mkNode {
  name : string;
  localQueue : list A;
  queueMap : gmap string (Node A)
}.
Arguments mkNode {A} _ _ _.
Arguments name {A} _.
Arguments localQueue {A} _.
Arguments queueMap {A} _.

Set Warnings "register-all".

Section NodeOps.
Context {A : Type}.

Definition set_localQueue (n : Node A) (q : list A) : Node A :=
  mkNode (name n) q (queueMap n).

Definition set_queueMap (n : Node A) (m : gmap string (Node A)) : Node A :=
  mkNode (name n) (localQueue n) m.

(** Modelled from the spec: [IsEmpty] is declared elsewhere in the
    repository.  A node is empty, and is removed from its parent, when
    its local queue is empty and it has no children. *)
Definition IsEmpty (n : Node A) : bool :=
  match localQueue n with
  | [] => bool_decide (queueMap n = ∅)
  | _ :: _ => false
  end.

(** Modelled from the spec: [ItemCount] is declared elsewhere in the
    repository.  It is the number of items of the subtree rooted at the
    node. *)
Fixpoint ItemCount (n : Node A) : Z :=
  GoInt.len (localQueue n)
  + map_fold (fun _ c acc => ItemCount c + acc) 0 (queueMap n).

(** Modelled from the spec: [getNode] is declared elsewhere in the
    repository.  It follows the path from the node, name by name; the
    result is [nil] when a name has no child. *)
Fixpoint getNode (n : Node A) (path : QueuePath) : option (Node A) :=
  match path with
  | [] => Some n
  | c :: rest =>
      match queueMap n !! c with
      | Some child => getNode child rest
      | None => None
      end
  end.

End NodeOps.

(** ** The skip-over node-ordering algorithm *)

(** The sentinel index that stands for the node's own local queue.  The
    constant is declared elsewhere in the repository; the test starts
    the algorithm at [-1] and [addChildNode] speaks of "index -1". *)
Definition localQueueIndex : Z := -1.

Record queryComponentUtilizationDequeueSkipOverThreshold : Type := mkSkipOver {
  queryComponentUtilizationThreshold : queryComponentUtilizationCheck;
  currentNodeOrderIndex : Z;
  nodeOrder : list string;
  nodesChecked : Z;
  nodesSkippedOrder : list string
}.

(** What [dequeueSelectNode] returns as its node, and what
    [dequeueUpdateState] receives as [dequeuedFrom]: [nil], the node
    itself, or one of its children. *)
Inductive selected (A : Type) : Type :=
| SelNil
| SelSelf
| SelChild (c : Node A).
Arguments SelNil {A}.
Arguments SelSelf {A}.
Arguments SelChild {A} c.

Module SkipOver.

Abbreviation state := queryComponentUtilizationDequeueSkipOverThreshold.

Definition set_index (qcud : state) (i : Z) : state :=
  mkSkipOver (queryComponentUtilizationThreshold qcud) i (nodeOrder qcud)
    (nodesChecked qcud) (nodesSkippedOrder qcud).

Definition set_nodeOrder (qcud : state) (l : list string) : state :=
  mkSkipOver (queryComponentUtilizationThreshold qcud)
    (currentNodeOrderIndex qcud) l (nodesChecked qcud)
    (nodesSkippedOrder qcud).

Definition set_nodesChecked (qcud : state) (n : Z) : state :=
  mkSkipOver (queryComponentUtilizationThreshold qcud)
    (currentNodeOrderIndex qcud) (nodeOrder qcud) n (nodesSkippedOrder qcud).

Definition set_nodesSkippedOrder (qcud : state) (l : list string) : state :=
  mkSkipOver (queryComponentUtilizationThreshold qcud)
    (currentNodeOrderIndex qcud) (nodeOrder qcud) (nodesChecked qcud) l.

Definition set_threshold (qcud : state) (c : queryComponentUtilizationCheck)
  : state :=
  mkSkipOver c (currentNodeOrderIndex qcud) (nodeOrder qcud)
    (nodesChecked qcud) (nodesSkippedOrder qcud).

(** [nodesChecked == len(nodeOrder)+1] *)
Definition checkedAllNodesBeforeSkips (qcud : state) : bool :=
  nodesChecked qcud =? GoInt.add (GoInt.len (nodeOrder qcud)) 1.

Definition checkedAllNodes (qcud : state) : bool :=
  checkedAllNodesBeforeSkips qcud
  && (GoInt.len (nodesSkippedOrder qcud) =? 0).

(** [node.queueMap[name]]: the child, or [nil] when the map has none. *)
Definition child_of {A} (node : Node A) (nm : string) : selected A :=
  match queueMap node !! nm with
  | Some c => SelChild c
  | None => SelNil
  end.

(** The loop of [dequeueUpdateState]: drop the first occurrence. *)
Fixpoint remove_first (nm : string) (l : list string) : list string :=
  match l with
  | [] => []
  | x :: rest => if String.eqb x nm then rest else x :: remove_first nm rest
  end.

Section Ops.
Context {A : Type}.

Definition addChildNode (qcud : state) (parent child : Node A)
  : Res (Node A * state) :=
  let parent' :=
    set_queueMap parent (<[name child := child]> (queueMap parent)) in
  let i := currentNodeOrderIndex qcud in
  if i =? localQueueIndex then
    Ok (parent', set_nodeOrder qcud (nodeOrder qcud ++ [name child]))
  else if (0 <=? i) && (i <=? GoInt.len (nodeOrder qcud)) then
    let order :=
      take (Z.to_nat i) (nodeOrder qcud)
        ++ ([name child] ++ drop (Z.to_nat i) (nodeOrder qcud)) in
    Ok (parent', set_index (set_nodeOrder qcud order) (GoInt.incr i))
  else Panic SliceBoundsOutOfRange.

Definition dequeueSelectNode (qcud : state) (node : Node A)
  : Res (selected A * bool * state) :=
  if currentNodeOrderIndex qcud =? localQueueIndex then
    Ok (SelSelf, checkedAllNodes qcud, qcud)
  else if negb (checkedAllNodesBeforeSkips qcud) then
    currentNodeName ← index (nodeOrder qcud) (currentNodeOrderIndex qcud);
    let check := queryComponentUtilizationThreshold qcud in
    if iTriggerUtilizationCheck check then
      let '(exceedsThreshold, _) :=
        iExceedsThresholdForComponentName check currentNodeName in
      if exceedsThreshold then
        let q1 := set_nodesSkippedOrder qcud
                    (nodesSkippedOrder qcud ++ [currentNodeName]) in
        let q2 := set_index q1 (GoInt.incr (currentNodeOrderIndex q1)) in
        let q3 := set_nodesChecked q2 (GoInt.incr (nodesChecked q2)) in
        Ok (SelNil, checkedAllNodes q3, q3)
      else
        let q1 := set_nodesChecked qcud (GoInt.incr (nodesChecked qcud)) in
        Ok (child_of node currentNodeName, checkedAllNodes q1, q1)
    else
      let q1 := set_nodesChecked qcud (GoInt.incr (nodesChecked qcud)) in
      Ok (child_of node currentNodeName, checkedAllNodes q1, q1)
  else
    match nodesSkippedOrder qcud with
    | currentNodeName :: rest =>
        let q1 := set_nodesSkippedOrder qcud rest in
        Ok (child_of node currentNodeName, checkedAllNodes q1, q1)
    | [] => Ok (SelNil, checkedAllNodes qcud, qcud)
    end.

Definition dequeueUpdateState (qcud : state) (node : Node A)
    (dequeuedFrom : selected A) : Node A * state :=
  match dequeuedFrom with
  | SelNil => (node, qcud)
  | _ =>
      let '(node1, q1) :=
        match dequeuedFrom with
        | SelChild c =>
            if IsEmpty c then
              (set_queueMap node (delete (name c) (queueMap node)),
               set_nodeOrder qcud (remove_first (name c) (nodeOrder qcud)))
            else
              (node, set_index qcud (GoInt.incr (currentNodeOrderIndex qcud)))
        | _ =>
            (node, set_index qcud (GoInt.incr (currentNodeOrderIndex qcud)))
        end in
      let q2 :=
        if currentNodeOrderIndex q1 >=? GoInt.len (nodeOrder q1)
        then set_index q1 localQueueIndex else q1 in
      (node1, set_nodesChecked q2 0)
  end.

End Ops.

(** The state the test fixture builds: cursor at the sentinel, nothing
    ordered, checked or skipped. *)
Definition initial (check : queryComponentUtilizationCheck) : state :=
  mkSkipOver check localQueueIndex [] 0 [].

(** One call of one of the three operations that returns, on the
    algorithm state and the node it governs. *)
Inductive step {A : Type} : state * Node A -> state * Node A -> Prop :=
| step_addChildNode qcud node child node' qcud' :
    addChildNode qcud node child = Ok (node', qcud') ->
    step (qcud, node) (qcud', node')
| step_dequeueSelectNode qcud node sel checkedAll qcud' :
    dequeueSelectNode qcud node = Ok (sel, checkedAll, qcud') ->
    step (qcud, node) (qcud', node)
| step_dequeueUpdateState qcud node dequeuedFrom node' qcud' :
    dequeueUpdateState qcud node dequeuedFrom = (node', qcud') ->
    step (qcud, node) (qcud', node').

(** [dequeueSelectNode] evaluates [nodeOrder[currentNodeOrderIndex]]:
    the cursor is off the sentinel and the first pass is not over. *)
Definition readsNodeOrder (qcud : state) : Prop :=
  currentNodeOrderIndex qcud <> localQueueIndex
  /\ checkedAllNodesBeforeSkips qcud = false.

Definition cursorInBounds (qcud : state) : Prop :=
  0 <= currentNodeOrderIndex qcud < GoInt.len (nodeOrder qcud).

End SkipOver.

(** ** Errors *)

(** The error values of the package; [ErrOther] stands for any error that
    is neither of the two named ones. *)
Inductive QueueError : Type :=
| ErrTooManyRequests
| ErrQuerierShuttingDown
| ErrOther (msg : string).

(** ** The tree the test fixture builds *)

(** Modelled from the spec: [Tree] and its operations ([NewTree],
    [EnqueueBackByPath], [EnqueueFrontByPath], [Dequeue]) are declared
    elsewhere in the repository.  A tree is a root node plus one
    selection algorithm per depth.  The fixture builds
    [NewTree(skipOver, roundRobin)]: the skip-over algorithm governs the
    children of the root, and the second level is the last one, so the
    children of the root are leaves; round-robin at a leaf has no child
    to rotate over and always serves the local queue. *)
Record Tree (A : Type) : Type := mkTree {
  rootNode : Node A;
  rootAlgorithm : queryComponentUtilizationDequeueSkipOverThreshold
}.
Arguments mkTree {A} _ _.
Arguments rootNode {A} _.
Arguments rootAlgorithm {A} _.

Module Tree.
Section Ops.
Context {A : Type}.

(** Modelled from the spec: the name of the root is declared elsewhere;
    the paths that [Dequeue] returns do not contain it. *)
Definition rootName : string := "root".

(** Modelled from the spec: [NewTree] is declared elsewhere; the tree
    starts as a root without items or children. *)
Definition NewTree (algo : SkipOver.state) : Tree A :=
  mkTree (mkNode rootName [] ∅) algo.

(** Append at the tail, or prepend at the head, of a local queue. *)
Definition push (front : bool) (v : A) (q : list A) : list A :=
  if front then v :: q else q ++ [v].

(** Modelled from the spec: the enqueue of the tree is declared
    elsewhere.  It creates the missing node along the path, registers it
    with the algorithm of its parent ([addChildNode]) and appends or
    prepends the item to the local queue of the terminal node.  A path
    that descends below the last level has no algorithm to register
    with and is refused. *)
Definition enqueueByPath (front : bool) (t : Tree A) (path : QueuePath)
    (v : A) : Res (option QueueError * Tree A) :=
  let root := rootNode t in
  match path with
  | [] =>
      Ok (None,
          mkTree (set_localQueue root (push front v (localQueue root)))
            (rootAlgorithm t))
  | [c] =>
      '(root1, algo1) ←
        match queueMap root !! c with
        | Some _ => Ok (root, rootAlgorithm t)
        | None => SkipOver.addChildNode (rootAlgorithm t) root (mkNode c [] ∅)
        end;
      let enq := fun child : Node A =>
        set_localQueue child (push front v (localQueue child)) in
      Ok (None, mkTree (set_queueMap root1 (alter enq c (queueMap root1))) algo1)
  | _ :: _ :: _ =>
      Ok (Some (ErrOther "path is deeper than the tree"), t)
  end.

Definition EnqueueBackByPath := enqueueByPath false.
Definition EnqueueFrontByPath := enqueueByPath true.

(** Take the head of a local queue. *)
Definition pop (n : Node A) : option A * Node A :=
  match localQueue n with
  | [] => (None, n)
  | v :: q => (Some v, set_localQueue n q)
  end.

(** Modelled from the spec: the dequeue of a node is declared
    elsewhere.  It asks the algorithm for the local queue or a child,
    dequeues there, and tells the algorithm what it dequeued from
    ([dequeueUpdateState]); it goes on until an item is found or the
    algorithm reports that all nodes were checked.  The result is the
    path below the node, the item, and the new state.  [fuel] bounds the
    number of rounds; [None] means it ran out. *)
Fixpoint dequeueLoop (fuel : nat) (algo : SkipOver.state) (node : Node A)
  : option (Res (QueuePath * option A * Node A * SkipOver.state)) :=
  match fuel with
  | O => None
  | S fuel' =>
      match SkipOver.dequeueSelectNode algo node with
      | Panic p => Some (Panic p)
      | Ok (sel, checkedAll, algo1) =>
          let '(childPath, v, node1, dequeuedFrom) :=
            match sel with
            | SelSelf =>
                let '(v, node1) := pop node in ([], v, node1, SelSelf)
            | SelNil => ([], None, node, SelNil)
            | SelChild c =>
                let '(v, c1) := pop c in
                ([name c], v,
                 set_queueMap node (<[name c := c1]> (queueMap node)),
                 SelChild c1)
            end in
          let '(node2, algo2) :=
            SkipOver.dequeueUpdateState algo1 node1 dequeuedFrom in
          match v with
          | Some x => Some (Ok (childPath, Some x, node2, algo2))
          | None =>
              if checkedAll then Some (Ok ([], None, node2, algo2))
              else dequeueLoop fuel' algo2 node2
          end
      end
  end.

(** Modelled from the spec: [Dequeue] is declared elsewhere.  It
    returns the path below the root and the item; on an empty tree, the
    empty path and no item. *)
Definition Dequeue (fuel : nat) (t : Tree A)
  : option (Res (QueuePath * option A * Tree A)) :=
  if IsEmpty (rootNode t) then Some (Ok ([], None, t))
  else
    match dequeueLoop fuel (rootAlgorithm t) (rootNode t) with
    | None => None
    | Some (Panic p) => Some (Panic p)
    | Some (Ok (path, v, node, algo)) => Some (Ok (path, v, mkTree node algo))
    end.

(** The operations of the table-driven test. *)
Inductive op : Type :=
| enqueue (path : QueuePath) (obj : A)
| dequeue.

(** Run the operations in order and collect what each dequeue
    returned; [None] when an enqueue returns an error (the test requires
    that none does) or the fuel runs out. *)
Fixpoint run (fuel : nat) (ops : list op) (t : Tree A)
  : option (Res (list (QueuePath * option A))) :=
  match ops with
  | [] => Some (Ok [])
  | enqueue path obj :: rest =>
      match EnqueueBackByPath t path obj with
      | Ok (None, t1) => run fuel rest t1
      | Ok (Some _, _) => None
      | Panic p => Some (Panic p)
      end
  | dequeue :: rest =>
      match Dequeue fuel t with
      | None => None
      | Some (Panic p) => Some (Panic p)
      | Some (Ok (path, v, t1)) =>
          match run fuel rest t1 with
          | Some (Ok outs) => Some (Ok ((path, v) :: outs))
          | other => other
          end
      end
  end.

End Ops.
End Tree.

(** ** The queue broker *)

Definition TenantID : Type := string.
Definition QuerierID : Type := string.

Definition emptyTenantID : TenantID := "".

(** Modelled from the spec: [querierConn] and [queueTenant] are declared
    elsewhere in the repository.  A querier connection has a connection
    count, the [shuttingDown] flag and the time of disconnection; a
    tenant has its identifier and its shard width. *)
Record querierConn : Type := mkQuerierConn {
  connections : Z;
  shuttingDown : bool;
  disconnectedAt : Z
}.

Record queueTenant : Type := mkQueueTenant {
  qt_tenantID : TenantID;
  maxQueriers : Z
}.

(** The fields [newQueueBroker] initialises. *)
Record tenantQuerierAssignments : Type := mkAssignments {
  queriersByID : gmap QuerierID querierConn;
  querierIDsSorted : list QuerierID;
  querierForgetDelay : Z;
  tenantIDOrder : list TenantID;
  tenantsByID : gmap TenantID queueTenant;
  tenantQuerierIDs : gmap TenantID (gset QuerierID)
}.

(** The shuffle-shard state as [newQueueBroker] builds it.
    [currentQuerierRef] is the variable its [currentQuerier] points to;
    its [tenantQuerierMap] is the map [tenantQuerierIDs] of the
    assignments and is read there. *)
Record shuffleShardState : Type := mkShuffleShard {
  sharedQueuePosition : Z;
  currentQuerierRef : QuerierID
}.

(** The unit stored in the tree and returned by dequeue.  The tree holds
    items of any type and the broker casts what it dequeues back to a
    tenant request; here the tree of the broker is typed by its items. *)
Record tenantRequest (R : Type) : Type := mkTenantRequest {
  tenantID : TenantID;
  req : R
}.
Arguments mkTenantRequest {R} _ _.
Arguments tenantID {R} _.
Arguments req {R} _.

(** What the broker uses and is declared elsewhere: the request
    payload with its type assertion to a scheduler request, the tree
    with its operations, and two methods of the tenant-querier
    assignments.  The tree operations may read and update the
    shuffle-shard state, which is the algorithm of the root; dequeue may
    read the assignments. *)
Class Collaborators : Type := {
  Request : Type;
  (** the type assertion of [request.req] to a scheduler request, giving
      its [AdditionalQueueDimensions] *)
  asSchedulerRequest : Request -> option (list string);
  TreeT : Type;
  NodeT : Type;
  tree_getNode : TreeT -> QueuePath -> option NodeT;
  node_ItemCount : NodeT -> Z;
  tree_IsEmpty : TreeT -> bool;
  enqueueBackByPath :
    TreeT -> shuffleShardState -> QueuePath -> tenantRequest Request ->
    option QueueError * TreeT * shuffleShardState;
  enqueueFrontByPath :
    TreeT -> shuffleShardState -> QueuePath -> tenantRequest Request ->
    option QueueError * TreeT * shuffleShardState;
  tree_dequeue :
    TreeT -> shuffleShardState -> tenantQuerierAssignments ->
    QueuePath * option (tenantRequest Request) * TreeT * shuffleShardState;
  createOrUpdateTenant :
    tenantQuerierAssignments -> TenantID -> Z ->
    option QueueError * tenantQuerierAssignments;
  removeTenant :
    tenantQuerierAssignments -> TenantID -> tenantQuerierAssignments
}.

Module Broker.
Section WithCollaborators.
Context `{Collaborators}.

(** The struct [queueBroker].  Its field [tenantQuerierAssignments] is
    [tenantQuerierAssignmentsOf] here, the name being taken by the type;
    the field [tenantQueuesTree] of the former queue is set at
    construction and used by no method below, and is left out. *)
Record queueBroker : Type := mkQueueBroker {
  queueTree : TreeT;
  tenantQuerierAssignmentsOf : tenantQuerierAssignments;
  maxTenantQueueSize : Z;
  additionalQueueDimensionsEnabled : bool;
  currentQuerier : QuerierID;
  treeShuffleShardState : shuffleShardState
}.

Definition set_assignments (qb : queueBroker) (a : tenantQuerierAssignments)
  : queueBroker :=
  mkQueueBroker (queueTree qb) a (maxTenantQueueSize qb)
    (additionalQueueDimensionsEnabled qb) (currentQuerier qb)
    (treeShuffleShardState qb).

Definition set_tree (qb : queueBroker) (t : TreeT) (sss : shuffleShardState)
  : queueBroker :=
  mkQueueBroker t (tenantQuerierAssignmentsOf qb) (maxTenantQueueSize qb)
    (additionalQueueDimensionsEnabled qb) (currentQuerier qb) sss.

Definition set_currentQuerier (qb : queueBroker) (q : QuerierID)
  : queueBroker :=
  mkQueueBroker (queueTree qb) (tenantQuerierAssignmentsOf qb)
    (maxTenantQueueSize qb) (additionalQueueDimensionsEnabled qb) q
    (treeShuffleShardState qb).

Definition set_maxTenantQueueSize (qb : queueBroker) (n : Z) : queueBroker :=
  mkQueueBroker (queueTree qb) (tenantQuerierAssignmentsOf qb) n
    (additionalQueueDimensionsEnabled qb) (currentQuerier qb)
    (treeShuffleShardState qb).

Definition isEmpty (qb : queueBroker) : bool := tree_IsEmpty (queueTree qb).

Definition makeQueuePath (qb : queueBroker) (request : tenantRequest Request)
  : QueuePath * option QueueError :=
  if additionalQueueDimensionsEnabled qb then
    match asSchedulerRequest (req request) with
    | Some dims => ([tenantID request] ++ dims, None)
    | None => ([tenantID request], None)
    end
  else ([tenantID request], None).

Definition enqueueRequestBack (qb : queueBroker) (request : tenantRequest Request)
    (tenantMaxQueriers : Z) : option QueueError * queueBroker :=
  let '(err, tqa) :=
    createOrUpdateTenant (tenantQuerierAssignmentsOf qb) (tenantID request)
      tenantMaxQueriers in
  let qb := set_assignments qb tqa in
  match err with
  | Some e => (Some e, qb)
  | None =>
      let '(queuePath, err) := makeQueuePath qb request in
      match err with
      | Some e => (Some e, qb)
      | None =>
          let tooMany :=
            match tree_getNode (queueTree qb) (take 1 queuePath) with
            | Some tenantQueueNode =>
                GoInt.add (node_ItemCount tenantQueueNode) 1
                  >? maxTenantQueueSize qb
            | None => false
            end in
          if tooMany then (Some ErrTooManyRequests, qb)
          else
            let '(err, t, sss) :=
              enqueueBackByPath (queueTree qb) (treeShuffleShardState qb)
                queuePath request in
            (err, set_tree qb t sss)
      end
  end.

Definition enqueueRequestFront (qb : queueBroker) (request : tenantRequest Request)
    (tenantMaxQueriers : Z) : option QueueError * queueBroker :=
  let '(err, tqa) :=
    createOrUpdateTenant (tenantQuerierAssignmentsOf qb) (tenantID request)
      tenantMaxQueriers in
  let qb := set_assignments qb tqa in
  match err with
  | Some e => (Some e, qb)
  | None =>
      let '(queuePath, err) := makeQueuePath qb request in
      match err with
      | Some e => (Some e, qb)
      | None =>
          let '(err, t, sss) :=
            enqueueFrontByPath (queueTree qb) (treeShuffleShardState qb)
              queuePath request in
          (err, set_tree qb t sss)
      end
  end.

(** The four results of [dequeueRequestForQuerier], with the broker
    after the call. *)
Record dequeued : Type := mkDequeued {
  dq_request : option (tenantRequest Request);
  dq_tenant : option queueTenant;
  dq_index : Z;
  dq_err : option QueueError;
  dq_broker : queueBroker
}.

(** [q == nil || q.shuttingDown] *)
Definition querierInactive (qb : queueBroker) (querierID : QuerierID) : bool :=
  match queriersByID (tenantQuerierAssignmentsOf qb) !! querierID with
  | None => true
  | Some q => shuttingDown q
  end.

Definition dequeueRequestForQuerier (qb : queueBroker) (lastTenantIndex : Z)
    (querierID : QuerierID) : Res dequeued :=
  if querierInactive qb querierID then
    Ok (mkDequeued None None
          (sharedQueuePosition (treeShuffleShardState qb))
          (Some ErrQuerierShuttingDown) qb)
  else
    let qb := set_currentQuerier qb querierID in
    let sss :=
      mkShuffleShard lastTenantIndex
        (currentQuerierRef (treeShuffleShardState qb)) in
    let '(queuePath, queueElement, t, sss) :=
      tree_dequeue (queueTree qb) sss (tenantQuerierAssignmentsOf qb) in
    let qb := set_tree qb t sss in
    let tenantID :=
      match queuePath with
      | _ :: second :: _ => second
      | _ => emptyTenantID
      end in
    let tenant := tenantsByID (tenantQuerierAssignmentsOf qb) !! tenantID in
    match queuePath with
    | [] => Panic SliceBoundsOutOfRange
    | _ :: fromRoot =>
        let qb :=
          match tree_getNode (queueTree qb) fromRoot with
          | None =>
              set_assignments qb
                (removeTenant (tenantQuerierAssignmentsOf qb) tenantID)
          | Some _ => qb
          end in
        Ok (mkDequeued queueElement tenant
              (sharedQueuePosition (treeShuffleShardState qb)) None qb)
    end.

End WithCollaborators.
End Broker.

(** ** Concrete configurations *)

Module Fixture.

(** Modelled from the spec: [queryComponentFlags] is declared elsewhere
    in the repository.  Two component kinds are recognised by matching the name
    of the routing dimension: the ingester and the store-gateway. *)
Definition queryComponentFlags (nm : string) : bool * bool :=
  (String.eqb nm "ingester", String.eqb nm "store-gateway").

(** [testReservedCapacity := 0.4] *)
Definition testReservedCapacity : GoFloat.float64 := GoFloat.decimal 4 1.

Definition reserve (ingester storeGateway connected waiting qlen : Z)
  : queryComponentUtilizationReserveConnections :=
  mkReserve (mkUtilization testReservedCapacity ingester storeGateway)
    connected waiting qlen.

Definition check (r : queryComponentUtilizationReserveConnections)
  : queryComponentUtilizationCheck :=
  ReserveConnections.as_check queryComponentFlags r.

(** The test: ten connected workers, one waiting worker, nothing in
    flight and a queue length of zero. *)
Definition utilizationCheckImpl := reserve 0 0 10 1 0.

Definition queryComponentUtilizationQueueAlgo : SkipOver.state :=
  SkipOver.initial (check utilizationCheckImpl).

Definition testTree : Tree string :=
  Tree.NewTree queryComponentUtilizationQueueAlgo.

Definition operationOrder : list (@Tree.op string) :=
  [ Tree.enqueue ["child-1"%string] "obj-1"%string;
    Tree.enqueue ["child-2"%string] "obj-2"%string;
    Tree.enqueue ["child-3"%string] "obj-3"%string;
    Tree.enqueue ["child-3"%string] "obj-4"%string;
    Tree.enqueue ["child-2"%string] "obj-5"%string;
    Tree.enqueue ["child-1"%string] "obj-6"%string;
    Tree.dequeue; Tree.dequeue; Tree.dequeue; Tree.dequeue; Tree.dequeue;
    Tree.enqueue ["child-1"%string] "obj-7"%string;
    Tree.dequeue; Tree.dequeue; Tree.dequeue ].

Definition expected : list (QueuePath * option string) :=
  [ (["child-1"%string], Some "obj-1"%string);
    (["child-2"%string], Some "obj-2"%string);
    (["child-3"%string], Some "obj-3"%string);
    (["child-1"%string], Some "obj-6"%string);
    (["child-2"%string], Some "obj-5"%string);
    (["child-3"%string], Some "obj-4"%string);
    (["child-1"%string], Some "obj-7"%string);
    ([], None) ].

(** Contention: six of the ten connections serve the ingesters, one
    worker waits and one request is queued. *)
Definition overloaded := reserve 6 0 10 1 1.

Definition overloadedAlgo : SkipOver.state :=
  SkipOver.initial (check overloaded).

Definition overloadedTree : Tree string := Tree.NewTree overloadedAlgo.

Definition ingester : string := "ingester".
Definition storeGateway : string := "store-gateway".

Definition emptyRoot : Node string := mkNode Tree.rootName [] ∅.

(** The overloaded algorithm with the cursor on its only node. *)
Definition onIngester : SkipOver.state :=
  mkSkipOver (check overloaded) 0 [ingester] 0 [].

(** The same after the node was skipped: the cursor is past the end. *)
Definition pastIngester : SkipOver.state :=
  mkSkipOver (check overloaded) 1 [ingester] 1 [ingester].

(** Both components over the threshold, and two requests queued. *)
Definition bothOverloaded := reserve 6 6 10 1 2.

Definition bothOverloadedTree : Tree string :=
  Tree.NewTree (SkipOver.initial (check bothOverloaded)).

(** A first pass that is over, with two names waiting in the skipped
    list, over a node that has both children. *)
Definition leaf (nm item : string) : Node string := mkNode nm [item] ∅.

Definition twoChildren : Node string :=
  mkNode Tree.rootName []
    (<[ingester := leaf ingester "q1"]>
       (<[storeGateway := leaf storeGateway "q2"]> ∅)).

(** The start of a pass over the two queues. *)
Definition bothOver : SkipOver.state :=
  mkSkipOver (check bothOverloaded) 0 [ingester; storeGateway] 0 [].

Definition passOver : SkipOver.state :=
  mkSkipOver (check bothOverloaded) 0 [ingester; storeGateway] 3
    [storeGateway; ingester].

(** The ingester queue was skipped in an earlier call and is still in
    the skipped list; it is then dequeued from and left empty. *)
Definition emptied : Node string := mkNode ingester [] ∅.

Definition withStaleSkip : SkipOver.state :=
  mkSkipOver (check utilizationCheckImpl) 0 [ingester; storeGateway] 1
    [ingester].

Definition twoChildrenAfter : Node string :=
  mkNode Tree.rootName []
    (<[ingester := emptied]>
       (<[storeGateway := leaf storeGateway "q2"]> ∅)).

(** A rotation of two with the cursor on the second name. *)
Definition midRotation : SkipOver.state :=
  mkSkipOver (check utilizationCheckImpl) 1 [ingester; storeGateway] 0 [].

End Fixture.

(** ** A broker over the two-level tree *)

Module BrokerFixture.

(** Modelled from the spec: [createOrUpdateTenant] and [removeTenant]
    are declared elsewhere in the repository.  The first registers a
    tenant if unseen or updates its shard width; the second removes the
    registration. *)
Definition registerTenant (a : tenantQuerierAssignments) (t : TenantID)
    (width : Z) : option QueueError * tenantQuerierAssignments :=
  (None,
   mkAssignments (queriersByID a) (querierIDsSorted a) (querierForgetDelay a)
     (tenantIDOrder a) (<[t := mkQueueTenant t width]> (tenantsByID a))
     (tenantQuerierIDs a)).

Definition unregisterTenant (a : tenantQuerierAssignments) (t : TenantID)
  : tenantQuerierAssignments :=
  mkAssignments (queriersByID a) (querierIDsSorted a) (querierForgetDelay a)
    (tenantIDOrder a) (delete t (tenantsByID a)) (tenantQuerierIDs a).

Definition enqueueOn (front : bool) (t : Tree (tenantRequest string))
    (sss : shuffleShardState) (path : QueuePath)
    (r : tenantRequest string)
  : option QueueError * Tree (tenantRequest string) * shuffleShardState :=
  match Tree.enqueueByPath front t path r with
  | Ok (err, t1) => (err, t1, sss)
  | Panic _ => (Some (ErrOther "panic"), t, sss)
  end.

(** The tree dequeue of the broker returns the path from the root,
    root included. *)
Definition dequeueOn (t : Tree (tenantRequest string))
    (sss : shuffleShardState) (a : tenantQuerierAssignments)
  : QueuePath * option (tenantRequest string)
    * Tree (tenantRequest string) * shuffleShardState :=
  match Tree.Dequeue 64 t with
  | Some (Ok (path, v, t1)) => (Tree.rootName :: path, v, t1, sss)
  | _ => ([Tree.rootName], None, t, sss)
  end.

#[global] Instance collaborators : Collaborators := {|
  Request := string;
  asSchedulerRequest := fun _ => None;
  TreeT := Tree (tenantRequest string);
  NodeT := Node (tenantRequest string);
  tree_getNode := fun t path => getNode (rootNode t) path;
  node_ItemCount := ItemCount;
  tree_IsEmpty := fun t => IsEmpty (rootNode t);
  enqueueBackByPath := enqueueOn false;
  enqueueFrontByPath := enqueueOn true;
  tree_dequeue := dequeueOn;
  createOrUpdateTenant := registerTenant;
  removeTenant := unregisterTenant
|}.

Definition noAssignments : tenantQuerierAssignments :=
  mkAssignments (<["querier-1"%string := mkQuerierConn 1 false 0]> ∅)
    [] 0 [] ∅ ∅.

(** [newQueueBroker(maxTenantQueueSize, false, 0)], with one querier
    connected. *)
Definition newQueueBroker (maxSize : Z) : Broker.queueBroker :=
  Broker.mkQueueBroker
    (Tree.NewTree Fixture.queryComponentUtilizationQueueAlgo)
    noAssignments maxSize false "" (mkShuffleShard 0 "").

Definition request1 : tenantRequest string := mkTenantRequest "tenant-1" "r1".
Definition request2 : tenantRequest string := mkTenantRequest "tenant-1" "r2".

(** A broker with room for one request per tenant, after the first
    request of the tenant was enqueued. *)
Definition oneQueued : Broker.queueBroker :=
  snd (Broker.enqueueRequestBack (newQueueBroker 1) request1 0).

End BrokerFixture.

(** ** Well-formed rotations *)

Module Rotation.

(** The cursor is on the sentinel or on an element of [nodeOrder]. *)
Definition cursorValid (qcud : SkipOver.state) : Prop :=
  currentNodeOrderIndex qcud = localQueueIndex
  \/ SkipOver.cursorInBounds qcud.

(** The rotation and the child map of the node name the same children,
    each once. *)
Definition inSync {A} (qcud : SkipOver.state) (node : Node A) : Prop :=
  NoDup (nodeOrder qcud)
  /\ forall nm, nm ∈ nodeOrder qcud <-> is_Some (queueMap node !! nm).


End Rotation.

(** ** A child that joins a rotation under way *)

Module RotationFixture.


Definition root : Node string :=
  mkNode Tree.rootName []
    (<["child-1"%string := Fixture.leaf "child-1" "obj-4"]>
       (<["child-2"%string := Fixture.leaf "child-2" "obj-2"]>
          (<["child-3"%string := Fixture.leaf "child-3" "obj-3"]> ∅))).




End RotationFixture.

(** ** Construction of the broker *)

Module BrokerNew.
Section WithCollaborators.
Context `{Collaborators}.

(** [newQueueBroker].  The tree it builds with [NewTree] over the
    shuffle-shard state and two round-robin states is declared elsewhere
    in the repository and is the argument [tree]; the assignments start
    without queriers and tenants, and the shared position at zero. *)
Definition newQueueBroker (tree : TreeT) (maxTenantQueueSize : Z)
    (additionalQueueDimensionsEnabled : bool) (forgetDelay : Z)
  : Broker.queueBroker :=
  let currentQuerier : QuerierID := "" in
  let tqas := mkAssignments ∅ [] forgetDelay [] ∅ ∅ in
  let sss := mkShuffleShard 0 currentQuerier in
  Broker.mkQueueBroker tree tqas maxTenantQueueSize
    additionalQueueDimensionsEnabled currentQuerier sss.

End WithCollaborators.
End BrokerNew.

(** ** A broker whose tenants must be named *)

Module StrictFixture.

(** Modelled from the spec: [createOrUpdateTenant] is declared elsewhere
    in the repository.  Here it refuses the empty tenant identifier and
    otherwise registers the tenant or updates its shard width. *)
Definition registerNamedTenant (a : tenantQuerierAssignments) (t : TenantID)
    (width : Z) : option QueueError * tenantQuerierAssignments :=
  if String.eqb t emptyTenantID then (Some (ErrOther "invalid tenant id"), a)
  else BrokerFixture.registerTenant a t width.

Definition collaborators : Collaborators := {|
  Request := string;
  asSchedulerRequest := fun _ => None;
  TreeT := Tree (tenantRequest string);
  NodeT := Node (tenantRequest string);
  tree_getNode := fun t path => getNode (rootNode t) path;
  node_ItemCount := ItemCount;
  tree_IsEmpty := fun t => IsEmpty (rootNode t);
  enqueueBackByPath := BrokerFixture.enqueueOn false;
  enqueueFrontByPath := BrokerFixture.enqueueOn true;
  tree_dequeue := BrokerFixture.dequeueOn;
  createOrUpdateTenant := registerNamedTenant;
  removeTenant := BrokerFixture.unregisterTenant
|}.

Definition broker : @Broker.queueBroker collaborators :=
  @Broker.mkQueueBroker collaborators
    (Tree.NewTree Fixture.queryComponentUtilizationQueueAlgo)
    BrokerFixture.noAssignments 1 false "" (mkShuffleShard 0 "").

Definition unnamed : tenantRequest string := mkTenantRequest "" "r0".

End StrictFixture.

(** ** Varints of the rules messages *)

Module Rulespb.

(** Conversions to [uint8] and [uint64] keep the low bits; [int64] of an
    unsigned value reads the same bits as a signed one. *)
Definition uint8 (z : Z) : Z := z mod 2 ^ 8.
Definition uint64 (z : Z) : Z := z mod 2 ^ 64.
Definition int64 (z : Z) : Z := GoInt.wrap z.

(** [math_bits.Len64]: the number of bits needed to write [x], zero for
    zero. *)
Definition Len64 (x : Z) : Z := if x =? 0 then 0 else Z.log2 x + 1.

Definition sovRules (x : Z) : Z := (Len64 (Z.lor x 1) + 6) / 7.

Definition sozRules (x : Z) : Z :=
  sovRules
    (uint64 (Z.lxor (uint64 (Z.shiftl x 1)) (uint64 (Z.shiftr (int64 x) 63)))).

Inductive rulesError : Type :=
| ErrInvalidLengthRules
| ErrIntOverflowRules
| ErrUnexpectedEOF          (* io.ErrUnexpectedEOF *)
| ErrIllegalWireType (wireType : Z).

(** [dAtA[i] = b] *)
Definition store (dAtA : list Z) (i b : Z) : Res (list Z) :=
  if (0 <=? i) && (i <? GoInt.len dAtA) then Ok (<[Z.to_nat i := b]> dAtA)
  else Panic IndexOutOfRange.

(** The loop of [encodeVarintRules]; it returns the buffer, the offset
    and what is left of [v]. *)
Equations? encodeLoop (dAtA : list Z) (offset v : Z) : Res (list Z * Z * Z)
  by wf (Z.to_nat v) lt :=
  encodeLoop dAtA offset v with Z_ge_dec v (2 ^ 7) => {
    | left _ with store dAtA offset (uint8 (Z.lor (Z.land v 127) 128)) => {
        | Ok dAtA1 := encodeLoop dAtA1 (GoInt.incr offset) (Z.shiftr v 7);
        | Panic p := Panic p };
    | right _ := Ok (dAtA, offset, v) }.
Proof.
  rewrite Z.shiftr_div_pow2 by lia.
  assert (v / 2 ^ 7 < v) by (apply Z.div_lt; lia).
  assert (0 <= v / 2 ^ 7) by (apply Z.div_pos; lia). lia.
Qed.

Definition encodeVarintRules (dAtA : list Z) (offset v : Z)
  : Res (list Z * Z) :=
  let offset := GoInt.sub offset (sovRules v) in
  let base := offset in
  '(dAtA, offset, v) ← encodeLoop dAtA offset v;
  dAtA ← store dAtA offset (uint8 v);
  Ok (dAtA, base).

(** The loop that reads a varint, as [Unmarshal] and [skipRules] have it
    for every tag and length: from [iNdEx], with [shift] and the bits
    gathered so far.  It returns an error, or the value and the index
    after the last byte read. *)
Equations? decodeVarint (dAtA : list Z) (iNdEx shift wire : Z)
  : Res (rulesError + Z * Z) by wf (Z.to_nat (71 - shift)) lt :=
  decodeVarint dAtA iNdEx shift wire with Z_ge_dec shift 64 => {
    | left _ := Ok (inl ErrIntOverflowRules);
    | right _ with Z_ge_dec iNdEx (GoInt.len dAtA) => {
        | left _ := Ok (inl ErrUnexpectedEOF);
        | right _ with index dAtA iNdEx => {
            | Panic p := Panic p;
            | Ok b with Z_lt_dec b 128 => {
                | left _ :=
                    Ok (inr (Z.lor wire (uint64 (Z.shiftl (Z.land b 127) shift)),
                             GoInt.incr iNdEx));
                | right _ :=
                    decodeVarint dAtA (GoInt.incr iNdEx) (shift + 7)
                      (Z.lor wire (uint64 (Z.shiftl (Z.land b 127) shift))) } } } }.
Proof. lia. Qed.

(** The wire format of a varint, to state what the loops write and
    read: [n] groups of seven bits, least significant first, each with
    the continuation bit, then the last group without it. *)
Fixpoint groups (n : nat) (v : Z) : list Z :=
  match n with
  | O => [v]
  | S n' => (128 + v mod 128) :: groups n' (v / 128)
  end.

Definition varint (v : Z) : list Z := groups (Z.to_nat (sovRules v - 1)) v.

(** [dAtA[start:]] *)
Definition sliceFrom (dAtA : list Z) (start : Z) : Res (list Z) :=
  if (0 <=? start) && (start <=? GoInt.len dAtA)
  then Ok (drop (Z.to_nat start) dAtA)
  else Panic SliceBoundsOutOfRange.

(** The loop of [skipRules] over a varint field: the bytes are counted
    and their bits dropped.  The index is incremented before the byte is
    read at [iNdEx-1]. *)
Equations? skipVarint (dAtA : list Z) (iNdEx shift : Z)
  : Res (rulesError + Z) by wf (Z.to_nat (71 - shift)) lt :=
  skipVarint dAtA iNdEx shift with Z_ge_dec shift 64 => {
    | left _ := Ok (inl ErrIntOverflowRules);
    | right _ with Z_ge_dec iNdEx (GoInt.len dAtA) => {
        | left _ := Ok (inl ErrUnexpectedEOF);
        | right _ with index dAtA (GoInt.sub (GoInt.incr iNdEx) 1) => {
            | Panic p := Panic p;
            | Ok b with Z_lt_dec b 128 => {
                | left _ := Ok (inr (GoInt.incr iNdEx));
                | right _ :=
                    skipVarint dAtA (GoInt.incr iNdEx) (shift + 7) } } } }.
Proof. lia. Qed.

(** The loop of [skipRules] over the length of a length-delimited field:
    the bits are gathered in an [int], so that the shift is a signed
    one. *)
Equations? decodeLength (dAtA : list Z) (iNdEx shift length_ : Z)
  : Res (rulesError + Z * Z) by wf (Z.to_nat (71 - shift)) lt :=
  decodeLength dAtA iNdEx shift length_ with Z_ge_dec shift 64 => {
    | left _ := Ok (inl ErrIntOverflowRules);
    | right _ with Z_ge_dec iNdEx (GoInt.len dAtA) => {
        | left _ := Ok (inl ErrUnexpectedEOF);
        | right _ with index dAtA iNdEx => {
            | Panic p := Panic p;
            | Ok b with Z_lt_dec b 128 => {
                | left _ :=
                    Ok (inr (Z.lor length_
                               (GoInt.wrap (Z.shiftl (Z.land b 127) shift)),
                             GoInt.incr iNdEx));
                | right _ :=
                    decodeLength dAtA (GoInt.incr iNdEx) (shift + 7)
                      (Z.lor length_
                         (GoInt.wrap (Z.shiftl (Z.land b 127) shift))) } } } }.
Proof. lia. Qed.

(** What a call of [skipRules] comes to. *)
Inductive skipped : Type :=
| Skipped (n : Z)               (* return n, nil *)
| Failed (err : rulesError)     (* return 0, err *)
| Unreachable                   (* panic("unreachable") *)
| Crashed (p : panic).          (* a run-time panic *)

(** The loop of [skipRules] over the fields of a group, from [iNdEx] to
    the end-group tag.  [skip] is [skipRules] itself, for the fields of
    the group; [None] is a loop that has not ended within [fuel]
    iterations or a [skip] that has not returned. *)
Fixpoint skipGroup (fuel : nat) (skip : list Z -> option skipped)
    (dAtA : list Z) (iNdEx : Z) : option skipped :=
  match fuel with
  | O => None
  | S fuel' =>
      let start := iNdEx in
      match decodeVarint dAtA iNdEx 0 0 with
      | Panic p => Some (Crashed p)
      | Ok (inl err) => Some (Failed err)
      | Ok (inr (innerWire, iNdEx)) =>
          let innerWireType := Z.land innerWire 7 in
          if innerWireType =? 4 then Some (Skipped iNdEx)
          else
            match sliceFrom dAtA start with
            | Panic p => Some (Crashed p)
            | Ok rest =>
                match skip rest with
                | Some (Skipped next) =>
                    let iNdEx := GoInt.add start next in
                    if iNdEx <? 0 then Some (Failed ErrInvalidLengthRules)
                    else skipGroup fuel' skip dAtA iNdEx
                | other => other
                end
            end
      end
  end.

(** [skipRules] with a bound on the depth of its recursion and on the
    iterations of the group loop.  The outer [for iNdEx < l] is entered
    at most once: every case of the switch returns. *)
Fixpoint skipRulesWithin (fuel : nat) (dAtA : list Z) : option skipped :=
  match fuel with
  | O => None
  | S fuel' =>
      let l := GoInt.len dAtA in
      let iNdEx := 0 in
      if iNdEx <? l then
        match decodeVarint dAtA iNdEx 0 0 with
        | Panic p => Some (Crashed p)
        | Ok (inl err) => Some (Failed err)
        | Ok (inr (wire, iNdEx)) =>
            let wireType := Z.land wire 7 in
            if wireType =? 0 then
              match skipVarint dAtA iNdEx 0 with
              | Panic p => Some (Crashed p)
              | Ok (inl err) => Some (Failed err)
              | Ok (inr iNdEx) => Some (Skipped iNdEx)
              end
            else if wireType =? 1 then Some (Skipped (GoInt.add iNdEx 8))
            else if wireType =? 2 then
              match decodeLength dAtA iNdEx 0 0 with
              | Panic p => Some (Crashed p)
              | Ok (inl err) => Some (Failed err)
              | Ok (inr (length_, iNdEx)) =>
                  if length_ <? 0 then Some (Failed ErrInvalidLengthRules)
                  else
                    let iNdEx := GoInt.add iNdEx length_ in
                    if iNdEx <? 0 then Some (Failed ErrInvalidLengthRules)
                    else Some (Skipped iNdEx)
              end
            else if wireType =? 3 then
              skipGroup fuel' (skipRulesWithin fuel') dAtA iNdEx
            else if wireType =? 4 then Some (Skipped iNdEx)
            else if wireType =? 5 then Some (Skipped (GoInt.add iNdEx 4))
            else Some (Failed (ErrIllegalWireType wireType))
        end
      else Some Unreachable
  end.

(** [skipRules]: a bound of one more than the length of the input is
    never reached. *)
Definition skipRules (dAtA : list Z) : option skipped :=
  skipRulesWithin (S (length dAtA)) dAtA.

(** A call that returns: it has skipped at least one byte, or it gives
    an error. *)
Definition returns (r : option skipped) : Prop :=
  match r with
  | Some (Skipped n) => 1 <= n <= GoInt.max_int
  | Some (Failed _) => True
  | _ => False
  end.

(** The fields of the wire format, to state what [skipRules] skips: a
    tag, written as a varint, and what the wire type of the tag
    announces.  A group holds fields between its two tags. *)
#[warnings="-register-all"]
Inductive field : Type :=
| Varint (tag v : Z)
| Fixed64 (tag : Z) (payload : list Z)
| LengthDelimited (tag : Z) (payload : list Z)
| Group (startTag : Z) (fields : list field) (endTag : Z)
| Fixed32 (tag : Z) (payload : list Z).

Fixpoint encode (f : field) : list Z :=
  match f with
  | Varint tag v => varint tag ++ varint v
  | Fixed64 tag payload => varint tag ++ payload
  | LengthDelimited tag payload =>
      varint tag ++ varint (GoInt.len payload) ++ payload
  | Group startTag fields endTag =>
      varint startTag ++ concat (map encode fields) ++ varint endTag
  | Fixed32 tag payload => varint tag ++ payload
  end.

(** [tag] is an unsigned 64-bit value whose low three bits are
    [wireType]. *)
Definition isTag (tag wireType : Z) : bool :=
  (0 <=? tag) && (tag <? 2 ^ 64) && (Z.land tag 7 =? wireType).

Fixpoint wellFormed (f : field) : bool :=
  match f with
  | Varint tag v => isTag tag 0 && (0 <=? v) && (v <? 2 ^ 64)
  | Fixed64 tag payload => isTag tag 1 && (GoInt.len payload =? 8)
  | LengthDelimited tag _ => isTag tag 2
  | Group startTag fields endTag =>
      isTag startTag 3 && forallb wellFormed fields && isTag endTag 4
  | Fixed32 tag payload => isTag tag 5 && (GoInt.len payload =? 4)
  end.

End Rulespb.

(* ===================================================================== *)
(** * Part II: properties                                                 *)
(* ===================================================================== *)


(** ** Machine integers *)

Lemma wrap_in_range (z : Z) : GoInt.in_range z -> GoInt.wrap z = z.
Proof.
  unfold GoInt.in_range, GoInt.wrap, GoInt.min_int, GoInt.max_int.
  intros Hz. rewrite Z.mod_small; lia.
Qed.

Lemma sub_in_range (a b : Z) : GoInt.in_range (a - b) -> GoInt.sub a b = a - b.
Proof. apply wrap_in_range. Qed.

Lemma incr_in_range (a : Z) :
  GoInt.min_int <= a < GoInt.max_int -> GoInt.incr a = a + 1.
Proof.
  intros Ha. unfold GoInt.incr, GoInt.add. apply wrap_in_range.
  unfold GoInt.in_range. lia.
Qed.

Lemma len_nonneg {A} (l : list A) : 0 <= GoInt.len l.
Proof. unfold GoInt.len. lia. Qed.

Lemma len_succ_in_range {A} (l : list A) :
  GoInt.len l < GoInt.max_int -> GoInt.add (GoInt.len l) 1 = GoInt.len l + 1.
Proof.
  intros Hl. unfold GoInt.add. apply wrap_in_range.
  pose proof (len_nonneg l). unfold GoInt.in_range, GoInt.min_int in *.
  unfold GoInt.max_int in *. lia.
Qed.

(** ** The reserved-capacity threshold *)

(** The number of reserved connections in the setting of the test:
    0.4 of ten workers, computed in binary64, is exactly four. *)
Example minReservedConnections_test :
  ReserveConnections.minReservedConnections Fixture.utilizationCheckImpl = 4.
Proof. vm_compute. reflexivity. Qed.

(** A product below one is raised to one connection, and a reserved
    capacity of zero turns the reservation off. *)
Example minReservedConnections_floor_and_off :
  ReserveConnections.minReservedConnections
    (mkReserve (mkUtilization (GoFloat.decimal 5 2) 0 0) 10 0 0) = 1
  /\ ReserveConnections.minReservedConnections
    (mkReserve (mkUtilization GoFloat.zero 0 0) 10 0 0) = 0.
Proof. split; vm_compute; reflexivity. Qed.

(** C1. [ExceedsThresholdForComponentName]: with at most one connected
    worker the answer is false.  Otherwise, with [minReserved] the
    integer [ceil (max (targetReservedCapacity * connectedWorkers) 1)]
    when the target is positive and [0] when it is not, the answer is
    true exactly when the name is of a recognised kind (ingester or
    store-gateway) and the connected workers minus the in-flight requests
    of that kind are at most [minReserved].  A name of neither kind gets
    false.  The two differences are taken to fit a machine integer. *)
Theorem ExceedsThresholdForComponentName_spec
    (flags : string -> bool * bool)
    (qcurc : queryComponentUtilizationReserveConnections) (nm : string) :
  let cw := connectedWorkers qcurc in
  let u := utilization qcurc in
  let trc := targetReservedCapacity u in
  let minReserved :=
    if GoFloat.gtb trc GoFloat.zero
    then GoFloat.to_int
           (GoFloat.Ceil
              (GoFloat.Max (GoFloat.mul trc (GoFloat.of_int cw)) GoFloat.one))
    else 0 in
  let exceeds :=
    fst (ReserveConnections.ExceedsThresholdForComponentName flags qcurc nm) in
  GoInt.in_range (cw - ingesterInflightRequests u) ->
  GoInt.in_range (cw - storeGatewayInflightRequests u) ->
  (cw <= 1 -> exceeds = false)
  /\ (1 < cw ->
      (exceeds = true <->
       (fst (flags nm) = true /\ cw - ingesterInflightRequests u <= minReserved)
       \/ (snd (flags nm) = true
           /\ cw - storeGatewayInflightRequests u <= minReserved)))
  /\ (flags nm = (false, false) -> exceeds = false).
Proof.
  intros cw u trc minReserved exceeds Hi Hs.
  subst exceeds.
  unfold ReserveConnections.ExceedsThresholdForComponentName.
  fold cw u.
  replace (ReserveConnections.minReservedConnections qcurc) with minReserved
    by reflexivity.
  rewrite (sub_in_range _ _ Hi), (sub_in_range _ _ Hs).
  destruct (Z.leb_spec cw 1) as [Hcw | Hcw].
  - repeat split; intros; try lia; reflexivity.
  - destruct (flags nm) as [isIngester isStoreGateway]; cbn [fst snd].
    destruct (Z.leb_spec (cw - ingesterInflightRequests u) minReserved) as [H1 | H1];
      destruct (Z.leb_spec (cw - storeGatewayInflightRequests u) minReserved)
        as [H2 | H2];
      destruct isIngester, isStoreGateway; cbn;
      (split; [lia |]); (split; [intros _ | congruence]);
      (split; [intros He; try discriminate He; tauto
              | intros [[Hf Hle] | [Hf Hle]];
                first [reflexivity | discriminate Hf | lia]]).
Qed.

(** At ten workers and a reserved capacity of 0.4, six requests in flight
    at the ingesters put the ingester component over the threshold. *)
Lemma ExceedsThresholdForComponentName_witness :
  GoInt.in_range (10 - 6) /\ GoInt.in_range (10 - 0)
  /\ fst (ReserveConnections.ExceedsThresholdForComponentName
            Fixture.queryComponentFlags Fixture.overloaded "ingester") = true.
Proof.
  assert (H1 : GoInt.in_range (10 - 6))
    by (unfold GoInt.in_range, GoInt.min_int, GoInt.max_int; lia).
  assert (H2 : GoInt.in_range (10 - 0))
    by (unfold GoInt.in_range, GoInt.min_int, GoInt.max_int; lia).
  split; [exact H1 | split; [exact H2 |]].
  destruct (ExceedsThresholdForComponentName_spec
              Fixture.queryComponentFlags Fixture.overloaded "ingester" H1 H2)
    as (_ & Hiff & _).
  apply Hiff; [cbn; lia |].
  left. split; [reflexivity | vm_compute; discriminate].
Defined.

(** ** Slices *)

Lemma index_lookup {A} (l : list A) (i : Z) (a : A) :
  0 <= i -> l !! Z.to_nat i = Some a -> index l i = Ok a.
Proof.
  intros Hi Hl. unfold index.
  pose proof (lookup_lt_Some _ _ _ Hl) as Hlt.
  replace ((0 <=? i) && (i <? GoInt.len l)) with true; [by rewrite Hl |].
  symmetry. apply andb_true_iff. unfold GoInt.len. split; lia.
Qed.

Lemma index_outside {A} (l : list A) (i : Z) :
  ~ (0 <= i < GoInt.len l) -> index l i = Panic IndexOutOfRange.
Proof.
  intros Hi. unfold index.
  destruct (Z.leb_spec 0 i); destruct (Z.ltb_spec i (GoInt.len l));
    cbn; try reflexivity; lia.
Qed.

Lemma index_inside {A} (l : list A) (i : Z) :
  0 <= i < GoInt.len l -> exists a, index l i = Ok a /\ l !! Z.to_nat i = Some a.
Proof.
  intros Hi. unfold GoInt.len in Hi.
  destruct (lookup_lt_is_Some_2 l (Z.to_nat i)) as [a Ha]; [lia |].
  exists a. split; [apply index_lookup; [lia | exact Ha] | exact Ha].
Qed.

(** ** The utilization check *)

Lemma TriggerUtilizationCheck_spec
    (qcurc : queryComponentUtilizationReserveConnections) :
  ReserveConnections.TriggerUtilizationCheck qcurc
  = (waitingWorkers qcurc <=? queueLen qcurc).
Proof.
  unfold ReserveConnections.TriggerUtilizationCheck.
  destruct (Z.gtb_spec (waitingWorkers qcurc) (queueLen qcurc));
    destruct (Z.leb_spec (waitingWorkers qcurc) (queueLen qcurc));
    first [reflexivity | lia].
Qed.

(** ** Selection during the first pass *)

Lemma not_checkedAllNodesBeforeSkips (qcud : SkipOver.state) :
  GoInt.len (nodeOrder qcud) < GoInt.max_int ->
  nodesChecked qcud < GoInt.len (nodeOrder qcud) + 1 ->
  SkipOver.checkedAllNodesBeforeSkips qcud = false.
Proof.
  intros Hlen Hlt. unfold SkipOver.checkedAllNodesBeforeSkips.
  rewrite len_succ_in_range by exact Hlen. apply Z.eqb_neq. lia.
Qed.

(** C2. [dequeueSelectNode] in the first pass, the cursor on a node of
    [nodeOrder] and not on the sentinel: the node is skipped (no node
    returned, its name appended to the skipped list, the cursor and the
    count of checked nodes incremented) exactly when the utilization
    check is triggered, that is [waitingWorkers <= queueLen], and the
    component of the node exceeds the threshold; in every other case the
    child of that name is selected and only the count of checked nodes
    is incremented. *)
Theorem dequeueSelectNode_first_pass {A}
    (flags : string -> bool * bool)
    (qcurc : queryComponentUtilizationReserveConnections)
    (qcud : SkipOver.state) (node : Node A) (nm : string) :
  queryComponentUtilizationThreshold qcud
    = ReserveConnections.as_check flags qcurc ->
  currentNodeOrderIndex qcud <> localQueueIndex ->
  GoInt.len (nodeOrder qcud) < GoInt.max_int ->
  nodesChecked qcud < GoInt.len (nodeOrder qcud) + 1 ->
  0 <= currentNodeOrderIndex qcud ->
  nodeOrder qcud !! Z.to_nat (currentNodeOrderIndex qcud) = Some nm ->
  let skip :=
    (waitingWorkers qcurc <=? queueLen qcurc)
    && fst (ReserveConnections.ExceedsThresholdForComponentName
              flags qcurc nm) in
  let skipped :=
    mkSkipOver (queryComponentUtilizationThreshold qcud)
      (GoInt.incr (currentNodeOrderIndex qcud)) (nodeOrder qcud)
      (GoInt.incr (nodesChecked qcud)) (nodesSkippedOrder qcud ++ [nm]) in
  let chosen :=
    mkSkipOver (queryComponentUtilizationThreshold qcud)
      (currentNodeOrderIndex qcud) (nodeOrder qcud)
      (GoInt.incr (nodesChecked qcud)) (nodesSkippedOrder qcud) in
  SkipOver.dequeueSelectNode qcud node
  = if skip
    then Ok (SelNil, SkipOver.checkedAllNodes skipped, skipped)
    else Ok (SkipOver.child_of node nm, SkipOver.checkedAllNodes chosen, chosen).
Proof.
  intros Hthr Hidx Hlen Hchk Hpos Hnm skip skipped chosen.
  unfold SkipOver.dequeueSelectNode.
  apply Z.eqb_neq in Hidx. rewrite Hidx.
  rewrite (not_checkedAllNodesBeforeSkips _ Hlen Hchk). cbn [negb].
  rewrite (index_lookup _ _ _ Hpos Hnm). cbn [mbind Res_bind].
  subst skip. rewrite <- TriggerUtilizationCheck_spec.
  rewrite Hthr. cbn [iTriggerUtilizationCheck ReserveConnections.as_check
                      iExceedsThresholdForComponentName].
  destruct (ReserveConnections.TriggerUtilizationCheck qcurc); cbn [andb].
  - destruct (ReserveConnections.ExceedsThresholdForComponentName flags qcurc nm)
      as [[|] kind]; cbn [fst]; reflexivity.
  - reflexivity.
Qed.

(** The first dequeue of the overloaded tree, once the cursor has left
    the sentinel: the only child is the ingester queue and it is
    skipped. *)
Lemma dequeueSelectNode_first_pass_witness :
  SkipOver.dequeueSelectNode Fixture.onIngester Fixture.emptyRoot
  = Ok (SelNil, false, Fixture.pastIngester).
Proof.
  rewrite (dequeueSelectNode_first_pass Fixture.queryComponentFlags
             Fixture.overloaded Fixture.onIngester Fixture.emptyRoot
             Fixture.ingester).
  - reflexivity.
  - reflexivity.
  - discriminate.
  - reflexivity.
  - reflexivity.
  - cbn. lia.
  - reflexivity.
Defined.

(** ** Draining the skipped list *)

(** Once [nodesChecked = len(nodeOrder)+1] and a name is waiting in the
    skipped list, the call off the sentinel pops the oldest name and
    returns the child of that name. *)
Lemma dequeueSelectNode_drain {A} (qcud : SkipOver.state) (node : Node A)
    (nm : string) (rest : list string) :
  currentNodeOrderIndex qcud <> localQueueIndex ->
  nodesChecked qcud = GoInt.add (GoInt.len (nodeOrder qcud)) 1 ->
  nodesSkippedOrder qcud = nm :: rest ->
  SkipOver.dequeueSelectNode qcud node
  = Ok (SkipOver.child_of node nm,
        SkipOver.checkedAllNodes (SkipOver.set_nodesSkippedOrder qcud rest),
        SkipOver.set_nodesSkippedOrder qcud rest).
Proof.
  intros Hidx Hchk Hskip. unfold SkipOver.dequeueSelectNode.
  apply Z.eqb_neq in Hidx. rewrite Hidx.
  unfold SkipOver.checkedAllNodesBeforeSkips at 1.
  rewrite Hchk, Z.eqb_refl. cbn [negb]. rewrite Hskip. reflexivity.
Qed.

Example dequeueSelectNode_drain_fifo :
  SkipOver.dequeueSelectNode Fixture.passOver Fixture.twoChildren
  = Ok (SelChild (Fixture.leaf Fixture.storeGateway "q2"), false,
        SkipOver.set_nodesSkippedOrder Fixture.passOver [Fixture.ingester]).
Proof. vm_compute. reflexivity. Qed.

(** ** Adding a child *)





(** ** Updating the state after a dequeue *)

Lemma remove_first_not_in (nm : string) (l : list string) :
  NoDup l -> nm ∉ SkipOver.remove_first nm l.
Proof.
  induction 1 as [|x l Hx Hnd IH]; cbn.
  - apply not_elem_of_nil.
  - destruct (String.eqb_spec x nm) as [-> | Hne]; [exact Hx |].
    rewrite not_elem_of_cons. split; [congruence | exact IH].
Qed.

Lemma remove_first_absent (nm : string) (l : list string) :
  nm ∉ l -> SkipOver.remove_first nm l = l.
Proof.
  induction l as [|x l IH]; cbn; [reflexivity |].
  rewrite not_elem_of_cons. intros [Hne Hl].
  destruct (String.eqb_spec x nm) as [-> | _]; [congruence |].
  by rewrite IH.
Qed.

(** C5, as the code has it.  [dequeueUpdateState] after a dequeue from a
    child: when the child is now empty it is deleted from the child map
    of the parent and the first occurrence of its name is removed from
    [nodeOrder] (its only one when the names are distinct), and the
    cursor is not advanced; otherwise the cursor is incremented.  In both
    cases the cursor is then set to the sentinel when it is at or past
    [len(nodeOrder)], and the count of checked nodes is reset to zero.
    The skipped list is left as it was. *)
Theorem dequeueUpdateState_child {A} (qcud : SkipOver.state) (node c : Node A) :
  let r := SkipOver.dequeueUpdateState qcud node (SelChild c) in
  let moved :=
    if IsEmpty c then currentNodeOrderIndex qcud
    else GoInt.incr (currentNodeOrderIndex qcud) in
  fst r = (if IsEmpty c
           then set_queueMap node (delete (name c) (queueMap node))
           else node)
  /\ nodeOrder (snd r)
     = (if IsEmpty c then SkipOver.remove_first (name c) (nodeOrder qcud)
        else nodeOrder qcud)
  /\ (IsEmpty c = true -> queueMap (fst r) !! name c = None)
  /\ (IsEmpty c = true -> NoDup (nodeOrder qcud) -> name c ∉ nodeOrder (snd r))
  /\ currentNodeOrderIndex (snd r)
     = (if moved >=? GoInt.len (nodeOrder (snd r)) then localQueueIndex
        else moved)
  /\ nodesChecked (snd r) = 0
  /\ nodesSkippedOrder (snd r) = nodesSkippedOrder qcud
  /\ queryComponentUtilizationThreshold (snd r)
     = queryComponentUtilizationThreshold qcud.
Proof.
  intros r moved. subst r moved. unfold SkipOver.dequeueUpdateState.
  destruct (IsEmpty c) eqn:Hc; cbn [fst snd];
    match goal with
    | |- context [if ?b then SkipOver.set_index ?q _ else _] =>
        destruct b eqn:Hwrap
    end; cbn in *; rewrite ?Hwrap.
  all: repeat split; try reflexivity; try discriminate; intros.
  all: first [apply lookup_delete_eq | apply remove_first_not_in; assumption].
Qed.

(** The ingester queue is emptied by a dequeue: it leaves the child map
    and the rotation, the cursor stays on index 0, now the
    store-gateway queue, and the count of checked nodes is reset. *)
Lemma dequeueUpdateState_child_witness :
  queueMap (fst (SkipOver.dequeueUpdateState Fixture.withStaleSkip
                   Fixture.twoChildrenAfter (SelChild Fixture.emptied)))
    !! Fixture.ingester = None
  /\ nodeOrder (snd (SkipOver.dequeueUpdateState Fixture.withStaleSkip
                       Fixture.twoChildrenAfter (SelChild Fixture.emptied)))
     = [Fixture.storeGateway]
  /\ currentNodeOrderIndex
       (snd (SkipOver.dequeueUpdateState Fixture.withStaleSkip
               Fixture.twoChildrenAfter (SelChild Fixture.emptied))) = 0
  /\ nodesChecked
       (snd (SkipOver.dequeueUpdateState Fixture.withStaleSkip
               Fixture.twoChildrenAfter (SelChild Fixture.emptied))) = 0.
Proof.
  destruct (dequeueUpdateState_child Fixture.withStaleSkip
              Fixture.twoChildrenAfter Fixture.emptied)
    as (_ & Horder & Hmap & _ & Hidx & Hchk & _).
  split; [exact (Hmap eq_refl) |].
  split; [rewrite Horder; reflexivity |].
  split; [rewrite Hidx, Horder; reflexivity | exact Hchk].
Defined.

(** C5, the part the code does not do: a child that is emptied while its
    name is still in the skipped list is deleted from the child map and
    from [nodeOrder], but its entry in the skipped list stays. *)
Lemma dequeueUpdateState_keeps_skipped_entry :
  IsEmpty Fixture.emptied = true
  /\ (Fixture.ingester
        ∉ nodeOrder (snd (SkipOver.dequeueUpdateState Fixture.withStaleSkip
                            Fixture.twoChildrenAfter (SelChild Fixture.emptied))))
  /\ ~ (Fixture.ingester
          ∉ nodesSkippedOrder
              (snd (SkipOver.dequeueUpdateState Fixture.withStaleSkip
                      Fixture.twoChildrenAfter (SelChild Fixture.emptied)))).
Proof.
  split; [reflexivity |]. split.
  - vm_compute. intros Hin. apply list_elem_of_singleton in Hin. discriminate.
  - intros Hnot. apply Hnot. vm_compute. apply list_elem_of_singleton.
    reflexivity.
Qed.

(** ** A pass over nodes that are all over the threshold *)

(** When the check is triggered and every node from the cursor to the end
    of [nodeOrder] is over the threshold, the rounds of one dequeue skip
    them one after the other; the cursor moves past the last name while
    the count of checked nodes is still below [len(nodeOrder)+1], and the
    next round indexes [nodeOrder] out of range.  No round returns an
    item and the skipped list is never drained. *)
Lemma dequeueLoop_all_over_threshold {A} (k : nat) :
  forall (qcud : SkipOver.state) (node : Node A) (fuel : nat),
    iTriggerUtilizationCheck (queryComponentUtilizationThreshold qcud) = true ->
    (forall nm, nm ∈ nodeOrder qcud ->
       fst (iExceedsThresholdForComponentName
              (queryComponentUtilizationThreshold qcud) nm) = true) ->
    GoInt.len (nodeOrder qcud) < GoInt.max_int ->
    0 <= currentNodeOrderIndex qcud ->
    Z.of_nat k = GoInt.len (nodeOrder qcud) - currentNodeOrderIndex qcud ->
    0 <= nodesChecked qcud <= currentNodeOrderIndex qcud ->
    (k < fuel)%nat ->
    Tree.dequeueLoop fuel qcud node = Some (Panic IndexOutOfRange).
Proof.
  induction k as [|k IH]; intros qcud node fuel Htrig Hall Hlen Hpos Hk Hchk Hfuel;
    (destruct fuel as [|fuel]; [lia |]); cbn [Tree.dequeueLoop];
    unfold SkipOver.dequeueSelectNode;
    replace (currentNodeOrderIndex qcud =? localQueueIndex) with false
      by (symmetry; apply Z.eqb_neq; unfold localQueueIndex; lia);
    rewrite not_checkedAllNodesBeforeSkips by lia; cbn [negb].
  - rewrite index_outside by lia. reflexivity.
  - destruct (index_inside (nodeOrder qcud) (currentNodeOrderIndex qcud))
      as (nm & Hidx & Hnm); [lia |].
    rewrite Hidx. cbn [mbind Res_bind]. rewrite Htrig.
    specialize (Hall nm (list_elem_of_lookup_2 _ _ _ Hnm)) as Hex.
    destruct (iExceedsThresholdForComponentName
                (queryComponentUtilizationThreshold qcud) nm) as [ex kind].
    cbn [fst] in Hex. subst ex.
    set (q3 := SkipOver.set_nodesChecked _ _).
    assert (Hi3 : currentNodeOrderIndex q3 = currentNodeOrderIndex qcud + 1).
    { subst q3. cbn. apply incr_in_range.
      unfold GoInt.min_int. unfold GoInt.max_int in *. lia. }
    assert (Hc3 : nodesChecked q3 = nodesChecked qcud + 1).
    { subst q3. cbn. apply incr_in_range.
      unfold GoInt.min_int. unfold GoInt.max_int in *. lia. }
    assert (Ho3 : nodeOrder q3 = nodeOrder qcud) by reflexivity.
    assert (Ht3 : queryComponentUtilizationThreshold q3
                  = queryComponentUtilizationThreshold qcud) by reflexivity.
    assert (Hnot : SkipOver.checkedAllNodes q3 = false).
    { unfold SkipOver.checkedAllNodes.
      rewrite not_checkedAllNodesBeforeSkips; [reflexivity | |];
        rewrite ?Ho3, ?Hc3; lia. }
    rewrite Hnot. cbn [SkipOver.dequeueUpdateState].
    apply IH; rewrite ?Ht3, ?Ho3, ?Hi3, ?Hc3; try assumption; lia.
Qed.

(** C3 on the code.  Two sibling queues, both over the threshold, the
    check triggered and the cursor on the first of them at the start of a
    pass: the first two calls skip the two nodes and report that not all
    nodes were checked; the skipped list then holds both names, the
    cursor is at [len(nodeOrder)] and [nodesChecked] is two, not three,
    so the third call does not pop the skipped list: it indexes
    [nodeOrder] out of range and panics. *)
Theorem all_over_threshold_pass_panics :
  exists q1 q2 : SkipOver.state,
    SkipOver.dequeueSelectNode Fixture.bothOver Fixture.twoChildren
    = Ok (SelNil, false, q1)
    /\ SkipOver.dequeueSelectNode q1 Fixture.twoChildren = Ok (SelNil, false, q2)
    /\ nodesSkippedOrder q2 = [Fixture.ingester; Fixture.storeGateway]
    /\ nodesChecked q2 = 2
    /\ currentNodeOrderIndex q2 = GoInt.len (nodeOrder q2)
    /\ SkipOver.dequeueSelectNode q2 Fixture.twoChildren
       = Panic IndexOutOfRange.
Proof.
  eexists. eexists.
  split; [vm_compute; reflexivity |].
  split; [vm_compute; reflexivity |].
  repeat split.
Qed.

(** The same on the tree: the dequeue of a tree whose two queues are
    both over the threshold ends in the panic instead of returning an
    item. *)
Example all_over_threshold_dequeue_panics :
  Tree.run 10
    [ Tree.enqueue [Fixture.ingester] "q1"%string;
      Tree.enqueue [Fixture.storeGateway] "q2"%string;
      Tree.dequeue ]
    Fixture.bothOverloadedTree
  = Some (Panic IndexOutOfRange).
Proof. vm_compute. reflexivity. Qed.

(** ** Reading [nodeOrder] at the cursor *)

(** C10 on the code.  From the initial state, registering one child,
    selecting the local queue, updating the state and selecting again
    reaches a state in which [dequeueSelectNode] reads [nodeOrder] at a
    cursor equal to its length: the read is out of bounds and the call
    panics. *)
Theorem cursor_out_of_bounds_reachable :
  rtc SkipOver.step (Fixture.overloadedAlgo, Fixture.emptyRoot)
    (Fixture.pastIngester,
     set_queueMap Fixture.emptyRoot
       (<[Fixture.ingester := mkNode Fixture.ingester [] ∅]> ∅))
  /\ SkipOver.readsNodeOrder Fixture.pastIngester
  /\ ~ SkipOver.cursorInBounds Fixture.pastIngester
  /\ SkipOver.dequeueSelectNode Fixture.pastIngester
       (set_queueMap Fixture.emptyRoot
          (<[Fixture.ingester := mkNode Fixture.ingester [] ∅]> ∅))
     = Panic IndexOutOfRange.
Proof.
  split; [| split; [| split]].
  - eapply rtc_l.
    { apply (SkipOver.step_addChildNode _ _ (mkNode Fixture.ingester [] ∅)).
      reflexivity. }
    eapply rtc_l.
    { eapply SkipOver.step_dequeueSelectNode. reflexivity. }
    eapply rtc_l.
    { apply (SkipOver.step_dequeueUpdateState _ _ SelSelf). reflexivity. }
    eapply rtc_l.
    { eapply SkipOver.step_dequeueSelectNode. vm_compute. reflexivity. }
    apply rtc_refl.
  - split; [discriminate | reflexivity].
  - intros [_ Hlt]. vm_compute in Hlt. discriminate Hlt.
  - reflexivity.
Qed.

(** ** The test scenario *)

(** C4.  The table-driven test: six enqueues over three children, five
    dequeues, one more enqueue and three dequeues give the objects in the
    order the test expects, and the last dequeue, on the empty tree,
    gives the empty path and no item. *)
Theorem test_round_robin_when_check_not_triggered :
  Tree.run 10 Fixture.operationOrder Fixture.testTree
  = Some (Ok Fixture.expected).
Proof. vm_compute. reflexivity. Qed.

(** ** The queue broker *)

Section BrokerProperties.
Context `{Collaborators}.

Lemma makeQueuePath_tenant (qb : Broker.queueBroker)
    (request : tenantRequest Request) :
  take 1 (fst (Broker.makeQueuePath qb request)) = [tenantID request]
  /\ snd (Broker.makeQueuePath qb request) = None.
Proof.
  unfold Broker.makeQueuePath.
  destruct (Broker.additionalQueueDimensionsEnabled qb);
    [destruct (asSchedulerRequest (req request)) |]; split; reflexivity.
Qed.

End BrokerProperties.

(** C7.  Once the tenant is registered: [enqueueRequestBack] returns
    [ErrTooManyRequests], with the tree and the shuffle-shard state as
    they were, when the node of the tenant exists and its item count
    plus one is above [maxTenantQueueSize]; otherwise it enqueues at the
    tail, its result being that of the tree's [enqueueBackByPath] at the
    computed path.  [enqueueRequestFront] computes the same path and
    makes no such test: whatever the count, its result is that of the
    tree's [enqueueFrontByPath], the enqueue at the head. *)
Theorem enqueueRequest_backlog `{Collaborators}
    (qb : Broker.queueBroker) (request : tenantRequest Request)
    (tenantMaxQueriers : Z) (tqa : tenantQuerierAssignments) :
  createOrUpdateTenant (Broker.tenantQuerierAssignmentsOf qb)
    (tenantID request) tenantMaxQueriers = (None, tqa) ->
  (forall node, tree_getNode (Broker.queueTree qb) [tenantID request] = Some node ->
     0 <= node_ItemCount node < GoInt.max_int) ->
  let qb1 := Broker.set_assignments qb tqa in
  let queuePath := fst (Broker.makeQueuePath qb1 request) in
  let count :=
    node_ItemCount <$> tree_getNode (Broker.queueTree qb) [tenantID request] in
  let back :=
    let '(err, t, sss) :=
      enqueueBackByPath (Broker.queueTree qb) (Broker.treeShuffleShardState qb)
        queuePath request in
    (err, Broker.set_tree qb1 t sss) in
  let front :=
    let '(err, t, sss) :=
      enqueueFrontByPath (Broker.queueTree qb) (Broker.treeShuffleShardState qb)
        queuePath request in
    (err, Broker.set_tree qb1 t sss) in
  (forall c, count = Some c -> c + 1 > Broker.maxTenantQueueSize qb ->
     Broker.enqueueRequestBack qb request tenantMaxQueriers
     = (Some ErrTooManyRequests, qb1)
     /\ Broker.queueTree qb1 = Broker.queueTree qb
     /\ Broker.treeShuffleShardState qb1 = Broker.treeShuffleShardState qb)
  /\ (count = None
      \/ (exists c, count = Some c /\ c + 1 <= Broker.maxTenantQueueSize qb) ->
      Broker.enqueueRequestBack qb request tenantMaxQueriers = back)
  /\ Broker.enqueueRequestFront qb request tenantMaxQueriers = front.
Proof.
  intros Hcreate Hrange qb1 queuePath count back front.
  unfold Broker.enqueueRequestBack, Broker.enqueueRequestFront.
  rewrite Hcreate. fold qb1.
  destruct (makeQueuePath_tenant qb1 request) as [Htake Herr].
  destruct (Broker.makeQueuePath qb1 request) as [path err] eqn:Hpath.
  cbn [fst snd] in Htake, Herr. subst err.
  subst queuePath. cbn [fst] in back, front. rewrite Htake.
  change (Broker.queueTree qb1) with (Broker.queueTree qb).
  change (Broker.treeShuffleShardState qb1)
    with (Broker.treeShuffleShardState qb).
  change (Broker.maxTenantQueueSize qb1) with (Broker.maxTenantQueueSize qb).
  subst count.
  destruct (tree_getNode (Broker.queueTree qb) [tenantID request])
    as [node |] eqn:Hnode; cbn [fmap option_fmap option_map].
  - specialize (Hrange node eq_refl).
    unfold GoInt.add. rewrite wrap_in_range
      by (unfold GoInt.in_range, GoInt.min_int; unfold GoInt.max_int in *; lia).
    destruct (Z.gtb_spec (node_ItemCount node + 1) (Broker.maxTenantQueueSize qb))
      as [Hgt | Hle].
    + split; [| split].
      * intros c [= <-] _. repeat split.
      * intros [Hnone | (c & [= <-] & Hc)]; [discriminate | lia].
      * reflexivity.
    + split; [| split].
      * intros c [= <-] Hc. lia.
      * intros _. reflexivity.
      * reflexivity.
  - split; [| split].
    + intros c Hc. discriminate.
    + intros _. reflexivity.
    + reflexivity.
Qed.

(** With room for one request per tenant and one request queued, the
    second request of the tenant is refused at the back. *)
Lemma enqueueRequest_backlog_witness :
  Broker.enqueueRequestBack BrokerFixture.oneQueued BrokerFixture.request2 0
  = (Some ErrTooManyRequests,
     Broker.set_assignments BrokerFixture.oneQueued
       (snd (BrokerFixture.registerTenant
               (Broker.tenantQuerierAssignmentsOf BrokerFixture.oneQueued)
               "tenant-1" 0))).
Proof.
  assert (Hcreate :
    createOrUpdateTenant (Broker.tenantQuerierAssignmentsOf BrokerFixture.oneQueued)
      (tenantID BrokerFixture.request2) 0
    = (None,
       snd (BrokerFixture.registerTenant
              (Broker.tenantQuerierAssignmentsOf BrokerFixture.oneQueued)
              "tenant-1" 0))) by reflexivity.
  assert (Hrange : forall node,
    tree_getNode (Broker.queueTree BrokerFixture.oneQueued)
      [tenantID BrokerFixture.request2] = Some node ->
    0 <= node_ItemCount node < GoInt.max_int).
  { intros node Hnode. vm_compute in Hnode. injection Hnode as <-.
    vm_compute. split; [discriminate | reflexivity]. }
  destruct (enqueueRequest_backlog BrokerFixture.oneQueued
              BrokerFixture.request2 0 _ Hcreate Hrange) as [Hfull _].
  destruct (Hfull 1) as [Heq _]; [vm_compute; reflexivity | vm_compute; reflexivity |].
  exact Heq.
Defined.

(** C9.  The backlog test is made only when the node of the tenant
    exists.  For a tenant without a node (never seen, or pruned after its
    queue emptied), [enqueueRequestBack] goes on to the tree's enqueue
    whatever the configured maximum, zero included, and succeeds when
    the registration of the tenant and the tree's enqueue do. *)
Theorem enqueueRequestBack_without_node `{Collaborators}
    (qb : Broker.queueBroker) (request : tenantRequest Request)
    (tenantMaxQueriers : Z) (tqa : tenantQuerierAssignments)
    (t : TreeT) (sss : shuffleShardState) (maxSize : Z) :
  createOrUpdateTenant (Broker.tenantQuerierAssignmentsOf qb)
    (tenantID request) tenantMaxQueriers = (None, tqa) ->
  tree_getNode (Broker.queueTree qb) [tenantID request] = None ->
  enqueueBackByPath (Broker.queueTree qb) (Broker.treeShuffleShardState qb)
    (fst (Broker.makeQueuePath qb request)) request = (None, t, sss) ->
  Broker.enqueueRequestBack (Broker.set_maxTenantQueueSize qb maxSize)
    request tenantMaxQueriers
  = (None,
     Broker.set_tree
       (Broker.set_assignments (Broker.set_maxTenantQueueSize qb maxSize) tqa)
       t sss).
Proof.
  intros Hcreate Hnode Henq.
  unfold Broker.enqueueRequestBack.
  change (Broker.tenantQuerierAssignmentsOf
            (Broker.set_maxTenantQueueSize qb maxSize))
    with (Broker.tenantQuerierAssignmentsOf qb).
  rewrite Hcreate.
  set (qb1 := Broker.set_assignments _ tqa).
  destruct (makeQueuePath_tenant qb1 request) as [Htake Herr].
  change (Broker.makeQueuePath qb1 request)
    with (Broker.makeQueuePath qb request) in *.
  destruct (Broker.makeQueuePath qb request) as [path err].
  cbn [fst snd] in Htake, Herr, Henq. subst err. rewrite Htake.
  change (Broker.queueTree qb1) with (Broker.queueTree qb).
  change (Broker.treeShuffleShardState qb1)
    with (Broker.treeShuffleShardState qb).
  rewrite Hnode, Henq. reflexivity.
Qed.

(** A broker configured with a maximum of zero accepts the first request
    of a tenant. *)
Lemma enqueueRequestBack_without_node_witness :
  fst (Broker.enqueueRequestBack (BrokerFixture.newQueueBroker 0)
         BrokerFixture.request1 0) = None.
Proof.
  pose proof
    (enqueueRequestBack_without_node (BrokerFixture.newQueueBroker 5)
       BrokerFixture.request1 0
       (snd (BrokerFixture.registerTenant BrokerFixture.noAssignments
               "tenant-1" 0))
       (snd (fst (BrokerFixture.enqueueOn false
                    (Tree.NewTree Fixture.queryComponentUtilizationQueueAlgo)
                    (mkShuffleShard 0 "") ["tenant-1"%string]
                    BrokerFixture.request1)))
       (mkShuffleShard 0 "") 0 eq_refl eq_refl eq_refl) as Hw.
  exact (f_equal fst Hw).
Defined.

(** C8.  [dequeueRequestForQuerier] returns [ErrQuerierShuttingDown]
    exactly when the querier is not registered or is shutting down, and
    then the broker (tree, tenants, shared position) is as it was.  For
    an active querier it returns no error: the request is what the
    tree's dequeue gave, no request on an empty queue, and the call
    returns whenever the dequeued path starts with the root. *)
Theorem dequeueRequestForQuerier_spec `{Collaborators}
    (qb : Broker.queueBroker) (lastTenantIndex : Z) (querierID : QuerierID) :
  let inactive :=
    match queriersByID (Broker.tenantQuerierAssignmentsOf qb) !! querierID with
    | None => true
    | Some q => shuttingDown q
    end in
  let result := Broker.dequeueRequestForQuerier qb lastTenantIndex querierID in
  let treeResult :=
    tree_dequeue (Broker.queueTree qb)
      (mkShuffleShard lastTenantIndex
         (currentQuerierRef (Broker.treeShuffleShardState qb)))
      (Broker.tenantQuerierAssignmentsOf qb) in
  (inactive = true ->
     result
     = Ok (Broker.mkDequeued None None
             (sharedQueuePosition (Broker.treeShuffleShardState qb))
             (Some ErrQuerierShuttingDown) qb))
  /\ (inactive = false ->
      forall r, result = Ok r ->
        Broker.dq_err r = None
        /\ Broker.dq_request r = snd (fst (fst treeResult)))
  /\ (inactive = false ->
      fst (fst (fst treeResult)) <> [] -> exists r, result = Ok r)
  /\ (forall r, result = Ok r ->
        (Broker.dq_err r = Some ErrQuerierShuttingDown <-> inactive = true)).
Proof.
  intros inactive result treeResult.
  assert (Hin : Broker.querierInactive qb querierID = inactive) by reflexivity.
  subst result. unfold Broker.dequeueRequestForQuerier. rewrite Hin.
  destruct inactive.
  - split; [reflexivity |]. split; [discriminate |]. split; [discriminate |].
    intros r [= <-]. split; reflexivity.
  - change (tree_dequeue _ _ _) with treeResult.
    destruct treeResult as [[[path v] t] sss]. cbn [fst snd].
    split; [discriminate |].
    destruct path as [|root fromRoot].
    + split; [discriminate |]. split; [congruence | discriminate].
    + split; [| split].
      * intros _ r [= <-]. split; reflexivity.
      * intros _ _. eexists. reflexivity.
      * intros r [= <-]. cbn. split; discriminate.
Qed.

(** A registered, active querier polls the empty broker: no error and no
    request.  An unknown querier gets the error and the broker back. *)
Lemma dequeueRequestForQuerier_witness :
  (exists r,
     Broker.dequeueRequestForQuerier (BrokerFixture.newQueueBroker 1) 0
       "querier-1" = Ok r
     /\ Broker.dq_err r = None /\ Broker.dq_request r = None)
  /\ Broker.dequeueRequestForQuerier (BrokerFixture.newQueueBroker 1) 0
       "querier-2"
     = Ok (Broker.mkDequeued None None 0 (Some ErrQuerierShuttingDown)
             (BrokerFixture.newQueueBroker 1)).
Proof.
  destruct (dequeueRequestForQuerier_spec (BrokerFixture.newQueueBroker 1) 0
              "querier-1") as (_ & Hactive & Hreturns & _).
  destruct (dequeueRequestForQuerier_spec (BrokerFixture.newQueueBroker 1) 0
              "querier-2") as (Hinactive & _).
  split.
  - destruct Hreturns as [r Hr]; [reflexivity | discriminate |].
    exists r. split; [exact Hr |].
    destruct (Hactive eq_refl r Hr) as [Herr Hreq].
    split; [exact Herr | rewrite Hreq; reflexivity].
  - apply Hinactive. reflexivity.
Defined.

(** ** The two-level tree *)

(** Enqueue at a child of the root: afterwards the child exists and its
    local queue is the old one with the item at the tail, or at the head
    for the front variant; a child created by the enqueue holds the item
    alone. *)
Lemma enqueueByPath_places_item {A} (front : bool) (t t' : Tree A)
    (c : string) (v : A) (err : option QueueError) :
  Tree.enqueueByPath front t [c] v = Ok (err, t') ->
  err = None
  /\ exists child,
       getNode (rootNode t') [c] = Some child
       /\ localQueue child
          = Tree.push front v
              (match queueMap (rootNode t) !! c with
               | Some old => localQueue old
               | None => []
               end).
Proof.
  unfold Tree.enqueueByPath.
  destruct (queueMap (rootNode t) !! c) as [old |] eqn:Hold;
    cbn [mbind Res_bind].
  - intros [= <- <-]. split; [reflexivity |]. cbn.
    rewrite lookup_alter_eq, Hold. cbn. eexists. split; reflexivity.
  - unfold SkipOver.addChildNode.
    destruct (currentNodeOrderIndex (rootAlgorithm t) =? localQueueIndex);
      [| destruct ((0 <=? currentNodeOrderIndex (rootAlgorithm t))
                   && (currentNodeOrderIndex (rootAlgorithm t)
                       <=? GoInt.len (nodeOrder (rootAlgorithm t))))];
      cbn [mbind Res_bind]; try discriminate;
      intros [= <- <-]; (split; [reflexivity |]); cbn;
      rewrite lookup_alter_eq, lookup_insert_eq; cbn;
      eexists; split; reflexivity.
Qed.

(** More fuel does not change the result of a dequeue that returned. *)
Lemma dequeueLoop_more_fuel {A} (fuel : nat) :
  forall (algo : SkipOver.state) (node : Node A) r (fuel' : nat),
    Tree.dequeueLoop fuel algo node = Some r ->
    (fuel <= fuel')%nat ->
    Tree.dequeueLoop fuel' algo node = Some r.
Proof.
  induction fuel as [|fuel IH]; intros algo node r fuel' Hr Hle;
    [discriminate |].
  destruct fuel' as [|fuel']; [lia |].
  cbn [Tree.dequeueLoop] in *.
  destruct (SkipOver.dequeueSelectNode algo node)
    as [[[sel checkedAll] algo1] | p]; [| exact Hr].
  destruct (match sel with
            | SelNil => _ | SelSelf => _ | SelChild c => _
            end) as [[[childPath v] node1] dequeuedFrom].
  destruct (SkipOver.dequeueUpdateState algo1 node1 dequeuedFrom)
    as [node2 algo2].
  destruct v; [exact Hr |].
  destruct checkedAll; [exact Hr |].
  apply IH; [exact Hr | lia].
Qed.

Lemma Dequeue_more_fuel {A} (fuel fuel' : nat) (t : Tree A) r :
  Tree.Dequeue fuel t = Some r -> (fuel <= fuel')%nat ->
  Tree.Dequeue fuel' t = Some r.
Proof.
  unfold Tree.Dequeue. intros Hr Hle.
  destruct (IsEmpty (rootNode t)); [exact Hr |].
  destruct (Tree.dequeueLoop fuel (rootAlgorithm t) (rootNode t)) as [x |] eqn:Hx;
    [| discriminate].
  rewrite (dequeueLoop_more_fuel fuel _ _ _ fuel' Hx Hle). exact Hr.
Qed.

Lemma run_more_fuel {A} (fuel fuel' : nat) (ops : list (@Tree.op A)) :
  (fuel <= fuel')%nat ->
  forall (t : Tree A) r,
    Tree.run fuel ops t = Some r -> Tree.run fuel' ops t = Some r.
Proof.
  intros Hle. induction ops as [|o ops IH]; intros t r Hr; [exact Hr |].
  destruct o as [path obj |]; cbn [Tree.run] in *.
  - destruct (Tree.EnqueueBackByPath t path obj) as [[[e |] t1] | p];
      [discriminate | apply IH; exact Hr | exact Hr].
  - destruct (Tree.Dequeue fuel t) as [d |] eqn:Hd; [| discriminate].
    rewrite (Dequeue_more_fuel fuel fuel' t d Hd Hle).
    destruct d as [[[path v] t1] | p]; [| exact Hr].
    destruct (Tree.run fuel ops t1) as [x |] eqn:Hx; [| discriminate].
    rewrite (IH t1 x Hx). exact Hr.
Qed.

(** The test scenario does not depend on the bound on the rounds. *)
Corollary test_round_robin_at_any_fuel (fuel : nat) :
  (10 <= fuel)%nat ->
  Tree.run fuel Fixture.operationOrder Fixture.testTree
  = Some (Ok Fixture.expected).
Proof.
  intros Hle. apply (run_more_fuel 10 fuel _ Hle).
  vm_compute. reflexivity.
Qed.

(* ===================================================================== *)
(** * Part III: further properties of the code                            *)
(* ===================================================================== *)

(** ** The threshold check: the component reported *)

(** The second result of [ExceedsThresholdForComponentName] is the empty
    component exactly when the first is false.  [Ingester] is reported
    only for a name of the ingester kind whose test passed, and
    [StoreGateway] only for a name of the store-gateway kind whose test
    passed while the ingester test did not: a name of both kinds is
    reported as the ingester when both tests pass. *)
Theorem ExceedsThresholdForComponentName_component
    (flags : string -> bool * bool)
    (qcurc : queryComponentUtilizationReserveConnections) (nm : string) :
  let r := ReserveConnections.ExceedsThresholdForComponentName flags qcurc nm in
  let minReserved := ReserveConnections.minReservedConnections qcurc in
  let ingesterOver :=
    fst (flags nm)
    && (GoInt.sub (connectedWorkers qcurc)
          (ingesterInflightRequests (utilization qcurc)) <=? minReserved) in
  let storeGatewayOver :=
    snd (flags nm)
    && (GoInt.sub (connectedWorkers qcurc)
          (storeGatewayInflightRequests (utilization qcurc)) <=? minReserved) in
  (fst r = false <-> snd r = NoComponent)
  /\ (snd r = Ingester <->
      connectedWorkers qcurc > 1 /\ ingesterOver = true)
  /\ (snd r = StoreGateway <->
      connectedWorkers qcurc > 1 /\ ingesterOver = false
      /\ storeGatewayOver = true).
Proof.
  intros r minReserved ingesterOver storeGatewayOver. subst r.
  unfold ReserveConnections.ExceedsThresholdForComponentName.
  fold minReserved.
  destruct (Z.leb_spec (connectedWorkers qcurc) 1) as [Hcw | Hcw].
  - cbn. split; [tauto |]. split; (split; [discriminate | lia]).
  - subst ingesterOver storeGatewayOver.
    destruct (flags nm) as [isIngester isStoreGateway]. cbn [fst snd].
    destruct (isIngester && _); [| destruct (isStoreGateway && _)]; cbn.
    + split; [split; discriminate |].
      split; [split; [intros _; split; [lia | reflexivity] | reflexivity] |].
      split; [discriminate | intros (_ & Hf & _); discriminate].
    + split; [split; discriminate |].
      split; [split; [discriminate | intros [_ Hf]; discriminate] |].
      split; [intros _; repeat split; lia | reflexivity].
    + split; [tauto |].
      split; (split; [discriminate |]).
      * intros [_ Hf]. discriminate.
      * intros (_ & _ & Hf). discriminate.
Qed.

(** The first result, with the subtractions as the machine does them. *)
Lemma exceeds_true_iff (flags : string -> bool * bool)
    (qcurc : queryComponentUtilizationReserveConnections) (nm : string) :
  fst (ReserveConnections.ExceedsThresholdForComponentName flags qcurc nm) = true
  <-> 1 < connectedWorkers qcurc
      /\ ((fst (flags nm) = true
           /\ GoInt.sub (connectedWorkers qcurc)
                (ingesterInflightRequests (utilization qcurc))
              <= ReserveConnections.minReservedConnections qcurc)
          \/ (snd (flags nm) = true
              /\ GoInt.sub (connectedWorkers qcurc)
                   (storeGatewayInflightRequests (utilization qcurc))
                 <= ReserveConnections.minReservedConnections qcurc)).
Proof.
  unfold ReserveConnections.ExceedsThresholdForComponentName.
  destruct (Z.leb_spec (connectedWorkers qcurc) 1) as [Hcw | Hcw].
  - cbn. split; [discriminate | lia].
  - destruct (flags nm) as [isIngester isStoreGateway]. cbn [fst snd].
    destruct (Z.leb_spec
                (GoInt.sub (connectedWorkers qcurc)
                   (ingesterInflightRequests (utilization qcurc)))
                (ReserveConnections.minReservedConnections qcurc));
      destruct (Z.leb_spec
                  (GoInt.sub (connectedWorkers qcurc)
                     (storeGatewayInflightRequests (utilization qcurc)))
                  (ReserveConnections.minReservedConnections qcurc));
      destruct isIngester, isStoreGateway; cbn;
      (split; [intros He; first [discriminate He | split; [lia | tauto]]
              | intros [_ [[Hf Hle] | [Hf Hle]]];
                first [reflexivity | discriminate Hf | lia]]).
Qed.

(** ** The threshold check: more load keeps a component over threshold *)

(** With the same workers and the same reserved capacity, a component
    that is over the threshold stays over it when the requests in flight
    do not decrease. *)
Theorem ExceedsThresholdForComponentName_monotone
    (flags : string -> bool * bool) (trc : GoFloat.float64)
    (cw waiting qlen ing sg ing' sg' : Z) (nm : string) :
  GoInt.in_range (cw - ing) -> GoInt.in_range (cw - sg) ->
  GoInt.in_range (cw - ing') -> GoInt.in_range (cw - sg') ->
  ing <= ing' -> sg <= sg' ->
  fst (ReserveConnections.ExceedsThresholdForComponentName flags
         (mkReserve (mkUtilization trc ing sg) cw waiting qlen) nm) = true ->
  fst (ReserveConnections.ExceedsThresholdForComponentName flags
         (mkReserve (mkUtilization trc ing' sg') cw waiting qlen) nm) = true.
Proof.
  intros Hi Hs Hi' Hs' Hing Hsg Hex.
  apply exceeds_true_iff in Hex. apply exceeds_true_iff.
  cbn [connectedWorkers utilization ingesterInflightRequests
       storeGatewayInflightRequests] in *.
  rewrite !sub_in_range in * by assumption.
  change (ReserveConnections.minReservedConnections
            (mkReserve (mkUtilization trc ing' sg') cw waiting qlen))
    with (ReserveConnections.minReservedConnections
            (mkReserve (mkUtilization trc ing sg) cw waiting qlen)).
  destruct Hex as [Hcw [[Hf Hle] | [Hf Hle]]];
    (split; [exact Hcw |]); [left | right]; (split; [exact Hf | lia]).
Qed.

(** Six requests in flight at the ingesters put them over the threshold
    of the test; seven keep them there. *)
Lemma ExceedsThresholdForComponentName_monotone_witness :
  fst (ReserveConnections.ExceedsThresholdForComponentName
         Fixture.queryComponentFlags (Fixture.reserve 7 0 10 1 1) "ingester")
  = true.
Proof.
  apply (ExceedsThresholdForComponentName_monotone
           Fixture.queryComponentFlags Fixture.testReservedCapacity
           10 1 1 6 0 7 0 "ingester");
    try (unfold GoInt.in_range, GoInt.min_int, GoInt.max_int; lia).
  vm_compute. reflexivity.
Defined.

(** ** The threshold check with the reservation turned off *)

(** When the target reserved capacity is not above zero, nothing is
    reserved; the check is then not entirely off: a component is over
    the threshold exactly when its requests in flight are as many as the
    connected workers, or more. *)
Theorem ExceedsThresholdForComponentName_no_reservation
    (flags : string -> bool * bool)
    (qcurc : queryComponentUtilizationReserveConnections) (nm : string) :
  GoFloat.gtb (targetReservedCapacity (utilization qcurc)) GoFloat.zero = false ->
  1 < connectedWorkers qcurc ->
  GoInt.in_range
    (connectedWorkers qcurc - ingesterInflightRequests (utilization qcurc)) ->
  GoInt.in_range
    (connectedWorkers qcurc - storeGatewayInflightRequests (utilization qcurc)) ->
  (fst (ReserveConnections.ExceedsThresholdForComponentName flags qcurc nm)
   = true <->
   (fst (flags nm) = true
    /\ connectedWorkers qcurc <= ingesterInflightRequests (utilization qcurc))
   \/ (snd (flags nm) = true
       /\ connectedWorkers qcurc
          <= storeGatewayInflightRequests (utilization qcurc))).
Proof.
  intros Hoff Hcw Hi Hs.
  rewrite exceeds_true_iff, !sub_in_range by assumption.
  unfold ReserveConnections.minReservedConnections. rewrite Hoff.
  split.
  - intros [_ [[Hf Hle] | [Hf Hle]]]; [left | right];
      (split; [exact Hf | lia]).
  - intros [[Hf Hle] | [Hf Hle]]; (split; [exact Hcw |]); [left | right];
      (split; [exact Hf | lia]).
Qed.

(** With a reserved capacity of zero and ten workers, ten requests in
    flight at the store-gateways are over the threshold. *)
Lemma ExceedsThresholdForComponentName_no_reservation_witness :
  fst (ReserveConnections.ExceedsThresholdForComponentName
         Fixture.queryComponentFlags
         (mkReserve (mkUtilization GoFloat.zero 0 10) 10 1 1) "store-gateway")
  = true.
Proof.
  apply (ExceedsThresholdForComponentName_no_reservation
           Fixture.queryComponentFlags
           (mkReserve (mkUtilization GoFloat.zero 0 10) 10 1 1) "store-gateway");
    try (cbn; unfold GoInt.in_range, GoInt.min_int, GoInt.max_int; lia);
    reflexivity.
Defined.

(** ** The rotation: when the operations panic *)

(** The panics of [dequeueSelectNode], for the proofs below. *)
Lemma dequeueSelectNode_panic_cases {A} (qcud : SkipOver.state)
    (node : Node A) :
  (forall p, SkipOver.dequeueSelectNode qcud node = Panic p ->
             p = IndexOutOfRange)
  /\ (SkipOver.dequeueSelectNode qcud node = Panic IndexOutOfRange
      <-> SkipOver.readsNodeOrder qcud /\ ~ SkipOver.cursorInBounds qcud).
Proof.
  unfold SkipOver.dequeueSelectNode, SkipOver.readsNodeOrder,
    SkipOver.cursorInBounds.
  destruct (Z.eqb_spec (currentNodeOrderIndex qcud) localQueueIndex)
    as [Hs | Hs].
  - split; [discriminate |]. split; [discriminate | tauto].
  - destruct (SkipOver.checkedAllNodesBeforeSkips qcud) eqn:Hchk; cbn [negb].
    + destruct (nodesSkippedOrder qcud);
        (split; [discriminate |]); (split; [discriminate |]);
        intros [[_ Hf] _]; discriminate.
    + destruct (Z_le_dec 0 (currentNodeOrderIndex qcud)) as [H0 | H0];
        [destruct (Z_lt_dec (currentNodeOrderIndex qcud)
                     (GoInt.len (nodeOrder qcud))) as [H1 | H1] |].
      * destruct (index_inside (nodeOrder qcud) (currentNodeOrderIndex qcud))
          as (nm & -> & _); [lia |]. cbn [mbind Res_bind].
        destruct (iTriggerUtilizationCheck _);
          [destruct (iExceedsThresholdForComponentName _ nm) as [[|] k] |];
          (split; [discriminate |]); (split; [discriminate |]);
          intros [_ Hout]; exfalso; apply Hout; lia.
      * rewrite index_outside by lia. cbn [mbind Res_bind].
        split; [intros p [= <-]; reflexivity |].
        split; [intros _; split; [tauto | lia] | reflexivity].
      * rewrite index_outside by lia. cbn [mbind Res_bind].
        split; [intros p [= <-]; reflexivity |].
        split; [intros _; split; [tauto | lia] | reflexivity].
Qed.

(** [dequeueSelectNode] panics exactly when it reads [nodeOrder] (cursor
    off the sentinel, first pass not over) with the cursor out of
    bounds, and the panic is the index one.  On the sentinel, on an
    element of [nodeOrder], or once the pass is over, it returns. *)
Theorem dequeueSelectNode_panics_iff {A} (qcud : SkipOver.state)
    (node : Node A) :
  (forall p, SkipOver.dequeueSelectNode qcud node = Panic p ->
             p = IndexOutOfRange)
  /\ (SkipOver.dequeueSelectNode qcud node = Panic IndexOutOfRange
      <-> SkipOver.readsNodeOrder qcud /\ ~ SkipOver.cursorInBounds qcud).
Proof. exact (dequeueSelectNode_panic_cases qcud node). Qed.

(** [addChildNode] panics exactly when the cursor is neither the
    sentinel nor in [0, len(nodeOrder)].  A cursor equal to the length
    is accepted: the name is then put at the end and the cursor moves on
    to the new length. *)
Theorem addChildNode_panics_iff {A} (qcud : SkipOver.state)
    (parent child : Node A) :
  ((exists p, SkipOver.addChildNode qcud parent child = Panic p)
   <-> currentNodeOrderIndex qcud <> localQueueIndex
       /\ ~ (0 <= currentNodeOrderIndex qcud <= GoInt.len (nodeOrder qcud)))
  /\ (currentNodeOrderIndex qcud = GoInt.len (nodeOrder qcud) ->
      exists parent' qcud',
        SkipOver.addChildNode qcud parent child = Ok (parent', qcud')
        /\ nodeOrder qcud' = nodeOrder qcud ++ [name child]
        /\ currentNodeOrderIndex qcud'
           = GoInt.incr (GoInt.len (nodeOrder qcud))).
Proof.
  unfold SkipOver.addChildNode. split.
  - destruct (Z.eqb_spec (currentNodeOrderIndex qcud) localQueueIndex)
      as [Hs | Hs].
    + split; [intros [p Hp]; discriminate | tauto].
    + destruct (Z.leb_spec 0 (currentNodeOrderIndex qcud));
        destruct (Z.leb_spec (currentNodeOrderIndex qcud)
                    (GoInt.len (nodeOrder qcud))); cbn [andb];
        (split; [intros [p Hp]; first [discriminate | split; [tauto | lia]]
                | intros [_ Hout]; first [exfalso; apply Hout; lia
                                         | eexists; reflexivity]]).
  - intros Hlen. pose proof (len_nonneg (nodeOrder qcud)) as Hnn.
    replace (currentNodeOrderIndex qcud =? localQueueIndex) with false
      by (symmetry; apply Z.eqb_neq; unfold localQueueIndex; lia).
    replace ((0 <=? currentNodeOrderIndex qcud)
             && (currentNodeOrderIndex qcud <=? GoInt.len (nodeOrder qcud)))
      with true by (symmetry; apply andb_true_iff; split; lia).
    eexists. eexists. split; [reflexivity |]. cbn.
    rewrite Hlen. unfold GoInt.len. rewrite Nat2Z.id.
    rewrite take_ge, drop_ge by lia. split; reflexivity.
Qed.

(** ** The rotation: what a selection leaves alone *)

Lemma child_of_lookup {A} (node : Node A) (nm : string) (c : Node A) :
  SkipOver.child_of node nm = SelChild c -> queueMap node !! nm = Some c.
Proof.
  unfold SkipOver.child_of. destruct (queueMap node !! nm); congruence.
Qed.

(** A call of [dequeueSelectNode] that returns never changes [nodeOrder]
    or the threshold check; its boolean is [checkedAllNodes] of the
    state it leaves; and a child it returns is the one the node holds
    under a name of the rotation or of the skipped list. *)
Theorem dequeueSelectNode_frame {A} (qcud qcud' : SkipOver.state)
    (node : Node A) (sel : selected A) (checkedAll : bool) :
  SkipOver.dequeueSelectNode qcud node = Ok (sel, checkedAll, qcud') ->
  nodeOrder qcud' = nodeOrder qcud
  /\ queryComponentUtilizationThreshold qcud'
     = queryComponentUtilizationThreshold qcud
  /\ checkedAll = SkipOver.checkedAllNodes qcud'
  /\ (forall c, sel = SelChild c ->
        exists nm, queueMap node !! nm = Some c
                   /\ (nm ∈ nodeOrder qcud \/ nm ∈ nodesSkippedOrder qcud)).
Proof.
  unfold SkipOver.dequeueSelectNode.
  destruct (currentNodeOrderIndex qcud =? localQueueIndex).
  { intros [= <- <- <-]. repeat split. discriminate. }
  destruct (SkipOver.checkedAllNodesBeforeSkips qcud); cbn [negb].
  - destruct (nodesSkippedOrder qcud) as [|nm rest] eqn:Hskip.
    + intros [= <- <- <-]. repeat split. discriminate.
    + intros [= <- <- <-]. repeat split.
      intros c Hc. exists nm. split; [exact (child_of_lookup _ _ _ Hc) |].
      right. apply elem_of_cons. left. reflexivity.
  - destruct (index (nodeOrder qcud) (currentNodeOrderIndex qcud))
      as [nm | p] eqn:Hidx; cbn [mbind Res_bind]; [| discriminate].
    assert (Hin : nm ∈ nodeOrder qcud).
    { unfold index in Hidx.
      destruct ((0 <=? _) && _); [| discriminate].
      destruct (nodeOrder qcud !! Z.to_nat (currentNodeOrderIndex qcud))
        as [x |] eqn:Hx; [| discriminate].
      injection Hidx as <-. exact (list_elem_of_lookup_2 _ _ _ Hx). }
    destruct (iTriggerUtilizationCheck _);
      [destruct (iExceedsThresholdForComponentName _ nm) as [[|] k] |];
      intros [= <- <- <-]; repeat split; try discriminate;
      intros c Hc; exists nm;
      (split; [exact (child_of_lookup _ _ _ Hc) | left; exact Hin]).
Qed.

(** The drain of the overloaded pass returns the store-gateway queue,
    which the node holds and whose name is in the skipped list. *)
Lemma dequeueSelectNode_frame_witness :
  nodeOrder (SkipOver.set_nodesSkippedOrder Fixture.passOver [Fixture.ingester])
  = nodeOrder Fixture.passOver
  /\ exists nm,
       queueMap Fixture.twoChildren !! nm
       = Some (Fixture.leaf Fixture.storeGateway "q2")
       /\ (nm ∈ nodeOrder Fixture.passOver
           \/ nm ∈ nodesSkippedOrder Fixture.passOver).
Proof.
  destruct (dequeueSelectNode_frame Fixture.passOver
              (SkipOver.set_nodesSkippedOrder Fixture.passOver [Fixture.ingester])
              Fixture.twoChildren
              (SelChild (Fixture.leaf Fixture.storeGateway "q2")) false)
    as (Horder & _ & _ & Hchild); [vm_compute; reflexivity |].
  split; [exact Horder | exact (Hchild _ eq_refl)].
Defined.

(** ** The rotation: the cursor after an update *)

(** After [dequeueUpdateState] for a dequeue that was made somewhere
    (from the node itself or from a child), from a cursor that is the
    sentinel or above, the cursor is the sentinel or on an element of
    [nodeOrder] and the count of checked nodes is zero; the next
    [dequeueSelectNode] therefore returns. *)
Theorem dequeueUpdateState_restores_cursor {A} (qcud : SkipOver.state)
    (node : Node A) (dequeuedFrom : selected A) :
  dequeuedFrom <> SelNil ->
  localQueueIndex <= currentNodeOrderIndex qcud < GoInt.max_int ->
  let qcud' := snd (SkipOver.dequeueUpdateState qcud node dequeuedFrom) in
  Rotation.cursorValid qcud'
  /\ nodesChecked qcud' = 0
  /\ forall node' : Node A,
       exists r, SkipOver.dequeueSelectNode qcud' node' = Ok r.
Proof.
  intros Hnil Hidx qcud'.
  assert (Hvalid : Rotation.cursorValid qcud').
  { subst qcud'. unfold Rotation.cursorValid, SkipOver.cursorInBounds,
      SkipOver.dequeueUpdateState, localQueueIndex in *.
    assert (Hincr : GoInt.incr (currentNodeOrderIndex qcud)
                    = currentNodeOrderIndex qcud + 1)
      by (apply incr_in_range; unfold GoInt.min_int; lia).
    destruct dequeuedFrom as [| | c]; [congruence | |];
      [| destruct (IsEmpty c)]; cbn [fst snd];
      match goal with
      | |- context [if ?b then SkipOver.set_index ?q _ else _] =>
          destruct (Z.geb_spec (currentNodeOrderIndex q) (GoInt.len (nodeOrder q)))
            as [Hge | Hlt]
      end; cbn in *; rewrite ?Hincr in *; try (left; reflexivity);
      try (right; lia).
    destruct (Z.eq_dec (currentNodeOrderIndex qcud) (-1)) as [-> | Hne];
      [left; reflexivity | right; lia]. }
  split; [exact Hvalid |]. split.
  - subst qcud'. unfold SkipOver.dequeueUpdateState.
    destruct dequeuedFrom as [| | c]; [congruence | |];
      [| destruct (IsEmpty c)]; cbn [fst snd];
      match goal with
      | |- context [if ?b then _ else _] => destruct b
      end; reflexivity.
  - intros node'.
    destruct (SkipOver.dequeueSelectNode qcud' node') as [r | p] eqn:Hsel;
      [exists r; reflexivity |].
    exfalso.
    destruct (dequeueSelectNode_panic_cases qcud' node') as [Hp Hiff].
    rewrite (Hp p Hsel) in Hsel. apply Hiff in Hsel.
    destruct Hsel as [[Hoff _] Hout], Hvalid as [Hs | Hin]; tauto.
Qed.

(** The update after the first dequeue of the test moves the cursor from
    the first child to the second, inside the rotation of three. *)
Lemma dequeueUpdateState_restores_cursor_witness :
  Rotation.cursorValid
    (snd (SkipOver.dequeueUpdateState Fixture.midRotation Fixture.twoChildren
            (SelSelf : selected string))).
Proof.
  destruct (dequeueUpdateState_restores_cursor Fixture.midRotation
              Fixture.twoChildren (SelSelf : selected string))
    as [Hvalid _];
    [discriminate | vm_compute; split; [discriminate | reflexivity] |].
  exact Hvalid.
Defined.

(** ** The rotation and the child map stay in step *)

Lemma remove_first_delete (l : list string) :
  forall (i : nat) (x : string),
    NoDup l -> l !! i = Some x -> SkipOver.remove_first x l = delete i l.
Proof.
  induction l as [|y l IH]; intros i x Hnd Hx; [discriminate |].
  apply NoDup_cons in Hnd as [Hy Hnd].
  destruct i as [|i]; cbn in *.
  - injection Hx as ->. rewrite String.eqb_refl. reflexivity.
  - destruct (String.eqb_spec y x) as [-> | Hne].
    + exfalso. apply Hy. exact (list_elem_of_lookup_2 _ _ _ Hx).
    + f_equal. apply IH; assumption.
Qed.

Lemma remove_first_elem (nm nm' : string) (l : list string) :
  NoDup l -> (nm' ∈ SkipOver.remove_first nm l <-> nm' ∈ l /\ nm' <> nm).
Proof.
  induction 1 as [|x l Hx Hnd IH]; cbn.
  - split; [intros Hin | intros [Hin _]]; by apply elem_of_nil in Hin.
  - destruct (String.eqb_spec x nm) as [-> | Hne].
    + rewrite elem_of_cons. split.
      * intros Hin. split; [right; exact Hin | congruence].
      * intros [[-> | Hin] Hneq]; [congruence | exact Hin].
    + rewrite !elem_of_cons, IH. split.
      * intros [-> | [Hin Hneq]]; [split; [left; reflexivity | exact Hne] |].
        split; [right; exact Hin | exact Hneq].
      * intros [[-> | Hin] Hneq]; [left; reflexivity | right; split; assumption].
Qed.

Lemma remove_first_NoDup (nm : string) (l : list string) :
  NoDup l -> NoDup (SkipOver.remove_first nm l).
Proof.
  induction 1 as [|x l Hx Hnd IH]; cbn; [constructor |].
  destruct (String.eqb x nm); [exact Hnd |].
  constructor; [| exact IH].
  rewrite remove_first_elem by exact Hnd. tauto.
Qed.

Lemma inserted_permutation {A} (l : list A) (n : nat) (x : A) :
  take n l ++ [x] ++ drop n l ≡ₚ x :: l.
Proof.
  cbn. rewrite <- Permutation_middle. constructor.
  by rewrite take_drop.
Qed.

(** [addChildNode] of a child whose name the node does not hold yet:
    if the rotation and the child map named the same children, each
    once, they still do. *)
Theorem addChildNode_keeps_inSync {A} (qcud qcud' : SkipOver.state)
    (parent parent' child : Node A) :
  Rotation.inSync qcud parent ->
  queueMap parent !! name child = None ->
  SkipOver.addChildNode qcud parent child = Ok (parent', qcud') ->
  Rotation.inSync qcud' parent'.
Proof.
  intros [Hnd Hsync] Hfresh Hadd.
  assert (Hnot : name child ∉ nodeOrder qcud).
  { intros Hin. apply Hsync in Hin. rewrite Hfresh in Hin.
    by apply is_Some_None in Hin. }
  assert (Hperm : nodeOrder qcud' ≡ₚ name child :: nodeOrder qcud
                  /\ queueMap parent'
                     = <[name child := child]> (queueMap parent)).
  { unfold SkipOver.addChildNode in Hadd.
    destruct (currentNodeOrderIndex qcud =? localQueueIndex);
      [| destruct ((0 <=? _) && _); [| discriminate]];
      injection Hadd as <- <-; cbn; split; try reflexivity.
    - by rewrite Permutation_app_comm.
    - apply inserted_permutation. }
  destruct Hperm as [Hperm Hmap]. split.
  - rewrite Hperm. constructor; assumption.
  - intros nm. rewrite Hperm, Hmap, elem_of_cons, Hsync.
    destruct (decide (name child = nm)) as [-> | Hne].
    + rewrite lookup_insert_eq. split; [eauto | left; reflexivity].
    + rewrite lookup_insert_ne by exact Hne.
      split; [intros [-> | Hs]; [congruence | exact Hs] | right; assumption].
Qed.

(** [dequeueUpdateState], whatever was dequeued from: if the rotation
    and the child map named the same children, each once, they still
    do.  An emptied child leaves both; nothing else changes them. *)
Theorem dequeueUpdateState_keeps_inSync {A} (qcud : SkipOver.state)
    (node : Node A) (dequeuedFrom : selected A) :
  Rotation.inSync qcud node ->
  Rotation.inSync (snd (SkipOver.dequeueUpdateState qcud node dequeuedFrom))
    (fst (SkipOver.dequeueUpdateState qcud node dequeuedFrom)).
Proof.
  intros [Hnd Hsync]. unfold SkipOver.dequeueUpdateState.
  destruct dequeuedFrom as [| | c]; [split; assumption | |];
    [| destruct (IsEmpty c)]; cbn [fst snd];
    match goal with
    | |- context [if ?b then _ else _] => destruct b
    end;
    unfold Rotation.inSync;
    cbn [nodeOrder queueMap SkipOver.set_index SkipOver.set_nodesChecked
         SkipOver.set_nodeOrder set_queueMap]; try (split; assumption).
  all: split; [apply remove_first_NoDup; exact Hnd |].
  all: intros nm; rewrite remove_first_elem by exact Hnd.
  all: rewrite Hsync.
  all: destruct (decide (name c = nm)) as [-> | Hne];
    [rewrite lookup_delete_eq; split;
       [intros [_ Hf]; congruence | intros Hs; by apply is_Some_None in Hs]
    | rewrite lookup_delete_ne by exact Hne; split;
       [tauto | intros Hs; split; [exact Hs | congruence]]].
Qed.

Lemma two_names_inSync (check : queryComponentUtilizationCheck) (i n : Z)
    (skipped : list string) (nm : string) (ca cb : Node string) :
  Rotation.inSync
    (mkSkipOver check i [Fixture.ingester; Fixture.storeGateway] n skipped)
    (mkNode nm []
       (<[Fixture.ingester := ca]> (<[Fixture.storeGateway := cb]> ∅))).
Proof.
  split; cbn [nodeOrder queueMap].
  - apply (bool_decide_unpack _). vm_compute. exact I.
  - intros x. rewrite !elem_of_cons, !lookup_insert_is_Some, lookup_empty.
    split.
    + intros [-> | [-> | Hin]]; [left; reflexivity | |].
      * right. split; [discriminate | left; reflexivity].
      * by apply elem_of_nil in Hin.
    + intros [<- | [_ [<- | [_ Hs]]]];
        [left; reflexivity | right; left; reflexivity |].
      by apply is_Some_None in Hs.
Qed.

(** A third queue joins the rotation of two: the three names are in the
    rotation and in the child map. *)
Lemma addChildNode_keeps_inSync_witness :
  Rotation.inSync
    (mkSkipOver (Fixture.check Fixture.utilizationCheckImpl) 2
       [Fixture.ingester; "other"%string; Fixture.storeGateway] 0 [])
    (set_queueMap Fixture.twoChildren
       (<["other"%string := Fixture.leaf "other" "q3"]>
          (queueMap Fixture.twoChildren))).
Proof.
  apply (addChildNode_keeps_inSync Fixture.midRotation _ Fixture.twoChildren _
           (Fixture.leaf "other" "q3")).
  - apply two_names_inSync.
  - vm_compute. reflexivity.
  - vm_compute. reflexivity.
Defined.

(** The ingester queue is emptied and pruned: the store-gateway queue
    is what the rotation and the child map still name. *)
Lemma dequeueUpdateState_keeps_inSync_witness :
  Rotation.inSync
    (snd (SkipOver.dequeueUpdateState Fixture.withStaleSkip
            Fixture.twoChildrenAfter (SelChild Fixture.emptied)))
    (fst (SkipOver.dequeueUpdateState Fixture.withStaleSkip
            Fixture.twoChildrenAfter (SelChild Fixture.emptied))).
Proof.
  apply (dequeueUpdateState_keeps_inSync Fixture.withStaleSkip
           Fixture.twoChildrenAfter (SelChild Fixture.emptied)).
  apply two_names_inSync.
Defined.

(** ** The rotation: a child emptied under the cursor *)

(** When the child under the cursor is emptied, [dequeueUpdateState]
    removes its name and leaves the cursor where it is: the name that
    followed is now under the cursor, and when there was none the cursor
    is set to the sentinel. *)
Theorem dequeueUpdateState_next_under_cursor {A} (qcud : SkipOver.state)
    (node c : Node A) :
  NoDup (nodeOrder qcud) ->
  0 <= currentNodeOrderIndex qcud ->
  nodeOrder qcud !! Z.to_nat (currentNodeOrderIndex qcud) = Some (name c) ->
  IsEmpty c = true ->
  let qcud' := snd (SkipOver.dequeueUpdateState qcud node (SelChild c)) in
  let next := nodeOrder qcud !! S (Z.to_nat (currentNodeOrderIndex qcud)) in
  nodeOrder qcud' = delete (Z.to_nat (currentNodeOrderIndex qcud)) (nodeOrder qcud)
  /\ match next with
     | Some nm =>
         currentNodeOrderIndex qcud' = currentNodeOrderIndex qcud
         /\ nodeOrder qcud' !! Z.to_nat (currentNodeOrderIndex qcud') = Some nm
     | None => currentNodeOrderIndex qcud' = localQueueIndex
     end.
Proof.
  intros Hnd Hpos Hcur Hempty qcud' next. subst qcud' next.
  unfold SkipOver.dequeueUpdateState. rewrite Hempty. cbn [fst snd].
  rewrite (remove_first_delete _ _ _ Hnd Hcur).
  set (i := Z.to_nat (currentNodeOrderIndex qcud)) in *.
  set (l := nodeOrder qcud) in *.
  assert (Hlen : GoInt.len (delete i l) = GoInt.len l - 1).
  { unfold GoInt.len. rewrite length_delete by eauto.
    pose proof (lookup_lt_Some _ _ _ Hcur). lia. }
  pose proof (lookup_lt_Some _ _ _ Hcur) as Hlt.
  cbn [currentNodeOrderIndex nodeOrder SkipOver.set_nodeOrder].
  fold l.
  destruct (l !! S i) as [nm |] eqn:Hnext.
  - pose proof (lookup_lt_Some _ _ _ Hnext) as Hlt2.
    replace (currentNodeOrderIndex qcud >=? GoInt.len (delete i l)) with false
      by (symmetry; rewrite Z.geb_leb; apply Z.leb_gt; rewrite Hlen;
          unfold GoInt.len; lia).
    cbn. fold i. split; [reflexivity |]. split; [reflexivity |].
    rewrite list_lookup_delete_ge by lia. exact Hnext.
  - apply lookup_ge_None in Hnext.
    replace (currentNodeOrderIndex qcud >=? GoInt.len (delete i l)) with true
      by (symmetry; rewrite Z.geb_leb; apply Z.leb_le; rewrite Hlen;
          unfold GoInt.len; lia).
    cbn. split; reflexivity.
Qed.

(** The ingester queue, first of two and under the cursor, is emptied:
    the cursor stays on index 0, where the store-gateway queue now is. *)
Lemma dequeueUpdateState_next_under_cursor_witness :
  nodeOrder (snd (SkipOver.dequeueUpdateState Fixture.withStaleSkip
                    Fixture.twoChildrenAfter (SelChild Fixture.emptied)))
    !! 0%nat = Some Fixture.storeGateway.
Proof.
  destruct (dequeueUpdateState_next_under_cursor Fixture.withStaleSkip
              Fixture.twoChildrenAfter Fixture.emptied)
    as [_ Hnext].
  - apply (bool_decide_unpack _). vm_compute. exact I.
  - vm_compute. discriminate.
  - reflexivity.
  - reflexivity.
  - cbn in Hnext. destruct Hnext as [Hidx Hnm]. rewrite Hidx in Hnm.
    exact Hnm.
Defined.

(** ** The rotation: the cursor across the operations *)

(** [addChildNode] from a cursor that is the sentinel or on an element
    of [nodeOrder] returns, makes the rotation one longer, and leaves
    the cursor on the sentinel or on an element. *)
Theorem addChildNode_keeps_cursorValid {A} (qcud : SkipOver.state)
    (parent child : Node A) :
  Rotation.cursorValid qcud ->
  GoInt.len (nodeOrder qcud) < GoInt.max_int ->
  exists parent' qcud',
    SkipOver.addChildNode qcud parent child = Ok (parent', qcud')
    /\ Rotation.cursorValid qcud'
    /\ GoInt.len (nodeOrder qcud') = GoInt.len (nodeOrder qcud) + 1.
Proof.
  intros Hvalid Hlen. unfold SkipOver.addChildNode.
  destruct Hvalid as [Hs | Hin].
  - rewrite Hs, Z.eqb_refl. eexists. eexists. split; [reflexivity |].
    split; [left; exact Hs |].
    cbn. unfold GoInt.len. rewrite length_app. cbn. lia.
  - unfold SkipOver.cursorInBounds in Hin.
    replace (currentNodeOrderIndex qcud =? localQueueIndex) with false
      by (symmetry; apply Z.eqb_neq; unfold localQueueIndex; lia).
    replace ((0 <=? currentNodeOrderIndex qcud)
             && (currentNodeOrderIndex qcud <=? GoInt.len (nodeOrder qcud)))
      with true by (symmetry; apply andb_true_iff; split; lia).
    eexists. eexists. split; [reflexivity |].
    assert (Hl : GoInt.len
                   (take (Z.to_nat (currentNodeOrderIndex qcud)) (nodeOrder qcud)
                      ++ [name child]
                      ++ drop (Z.to_nat (currentNodeOrderIndex qcud))
                           (nodeOrder qcud))
                 = GoInt.len (nodeOrder qcud) + 1).
    { unfold GoInt.len. rewrite (inserted_permutation _ _ _). cbn. lia. }
    split; [| exact Hl].
    right. unfold SkipOver.cursorInBounds, SkipOver.set_index,
      SkipOver.set_nodeOrder. cbn [currentNodeOrderIndex nodeOrder].
    rewrite Hl.
    rewrite incr_in_range
      by (unfold GoInt.min_int; unfold GoInt.max_int in *; lia).
    lia.
Qed.

(** A third queue joins the rotation of two while the cursor is on the
    second name: the call returns and the cursor is on an element. *)
Lemma addChildNode_keeps_cursorValid_witness :
  exists parent' qcud',
    SkipOver.addChildNode Fixture.midRotation Fixture.twoChildren
      (Fixture.leaf "other" "q3") = Ok (parent', qcud')
    /\ Rotation.cursorValid qcud'.
Proof.
  destruct (addChildNode_keeps_cursorValid Fixture.midRotation
              Fixture.twoChildren (Fixture.leaf "other" "q3"))
    as (parent' & qcud' & Hadd & Hvalid & _).
  - right. vm_compute. split; [discriminate | reflexivity].
  - vm_compute. reflexivity.
  - exists parent', qcud'. split; assumption.
Defined.

(** [dequeueSelectNode] moves the cursor only when it skips a node: a
    call that returns the node itself or a child leaves the cursor where
    it was, and a call that returns no node leaves it there or one
    further. *)
Theorem dequeueSelectNode_cursor {A} (qcud qcud' : SkipOver.state)
    (node : Node A) (sel : selected A) (checkedAll : bool) :
  SkipOver.dequeueSelectNode qcud node = Ok (sel, checkedAll, qcud') ->
  currentNodeOrderIndex qcud' = currentNodeOrderIndex qcud
  \/ (sel = SelNil
      /\ currentNodeOrderIndex qcud' = GoInt.incr (currentNodeOrderIndex qcud)
      /\ exists nm, nodeOrder qcud !! Z.to_nat (currentNodeOrderIndex qcud)
                    = Some nm
                    /\ nodesSkippedOrder qcud' = nodesSkippedOrder qcud ++ [nm]).
Proof.
  unfold SkipOver.dequeueSelectNode.
  destruct (currentNodeOrderIndex qcud =? localQueueIndex).
  { intros [= <- <- <-]. left. reflexivity. }
  destruct (SkipOver.checkedAllNodesBeforeSkips qcud); cbn [negb].
  - destruct (nodesSkippedOrder qcud) as [|nm rest];
      intros [= <- <- <-]; left; reflexivity.
  - destruct (index (nodeOrder qcud) (currentNodeOrderIndex qcud))
      as [nm | p] eqn:Hidx; cbn [mbind Res_bind]; [| discriminate].
    assert (Hnm : nodeOrder qcud !! Z.to_nat (currentNodeOrderIndex qcud)
                  = Some nm).
    { unfold index in Hidx.
      destruct ((0 <=? _) && _); [| discriminate].
      destruct (nodeOrder qcud !! Z.to_nat (currentNodeOrderIndex qcud));
        congruence. }
    destruct (iTriggerUtilizationCheck _);
      [destruct (iExceedsThresholdForComponentName _ nm) as [[|] k] |];
      intros [= <- <- <-]; [right | left; reflexivity | left; reflexivity].
    split; [reflexivity |]. split; [reflexivity |].
    exists nm. split; [exact Hnm | reflexivity].
Qed.

(** Off contention, the selection of the test returns the second child
    and the cursor stays on it. *)
Lemma dequeueSelectNode_cursor_witness :
  exists sel checkedAll qcud',
    SkipOver.dequeueSelectNode Fixture.midRotation Fixture.twoChildren
    = Ok (sel, checkedAll, qcud')
    /\ currentNodeOrderIndex qcud' = 1.
Proof.
  destruct (SkipOver.dequeueSelectNode Fixture.midRotation Fixture.twoChildren)
    as [[[sel checkedAll] qcud'] | p] eqn:Hsel; [| vm_compute in Hsel; discriminate].
  exists sel, checkedAll, qcud'. split; [reflexivity |].
  destruct (dequeueSelectNode_cursor _ _ _ _ _ Hsel) as [Hsame | (Hnil & _)].
  - exact Hsame.
  - vm_compute in Hsel. injection Hsel as <- _ _. discriminate Hnil.
Defined.

(** ** The rotation: skipping the last node *)

(** When the check is triggered and the last node of [nodeOrder] is over
    the threshold, in a pass that has not yet checked as many nodes as
    the rotation holds, [dequeueSelectNode] skips the node, reports that
    not all nodes were checked, and leaves the cursor at
    [len(nodeOrder)]; the call that follows panics on the index. *)
Theorem dequeueSelectNode_skip_last_panics {A} (qcud : SkipOver.state)
    (node : Node A) (nm : string) :
  iTriggerUtilizationCheck (queryComponentUtilizationThreshold qcud) = true ->
  fst (iExceedsThresholdForComponentName
         (queryComponentUtilizationThreshold qcud) nm) = true ->
  GoInt.len (nodeOrder qcud) < GoInt.max_int ->
  0 <= nodesChecked qcud < GoInt.len (nodeOrder qcud) ->
  currentNodeOrderIndex qcud = GoInt.len (nodeOrder qcud) - 1 ->
  nodeOrder qcud !! Z.to_nat (currentNodeOrderIndex qcud) = Some nm ->
  exists qcud',
    SkipOver.dequeueSelectNode qcud node = Ok (SelNil, false, qcud')
    /\ nodesSkippedOrder qcud' = nodesSkippedOrder qcud ++ [nm]
    /\ currentNodeOrderIndex qcud' = GoInt.len (nodeOrder qcud')
    /\ SkipOver.dequeueSelectNode qcud' node = Panic IndexOutOfRange.
Proof.
  intros Htrig Hex Hlen Hchk Hidx Hnm.
  pose proof (lookup_lt_Some _ _ _ Hnm) as Hlt.
  assert (Hpos : 0 <= currentNodeOrderIndex qcud)
    by (rewrite Hidx; unfold GoInt.len; lia).
  set (q3 := mkSkipOver (queryComponentUtilizationThreshold qcud)
               (currentNodeOrderIndex qcud + 1) (nodeOrder qcud)
               (nodesChecked qcud + 1) (nodesSkippedOrder qcud ++ [nm])).
  assert (Hnot3 : SkipOver.checkedAllNodesBeforeSkips q3 = false).
  { apply not_checkedAllNodesBeforeSkips; cbn; lia. }
  exists q3. split; [| split; [reflexivity | split; [cbn; lia |]]].
  - unfold SkipOver.dequeueSelectNode.
    replace (currentNodeOrderIndex qcud =? localQueueIndex) with false
      by (symmetry; apply Z.eqb_neq; unfold localQueueIndex; lia).
    rewrite not_checkedAllNodesBeforeSkips by lia. cbn [negb].
    rewrite (index_lookup _ _ _ Hpos Hnm). cbn [mbind Res_bind].
    rewrite Htrig.
    destruct (iExceedsThresholdForComponentName _ nm) as [ex k].
    cbn [fst] in Hex. subst ex.
    unfold SkipOver.set_nodesChecked, SkipOver.set_index,
      SkipOver.set_nodesSkippedOrder.
    cbn [currentNodeOrderIndex nodesChecked nodeOrder nodesSkippedOrder
         queryComponentUtilizationThreshold].
    rewrite !incr_in_range
      by (unfold GoInt.min_int; unfold GoInt.max_int in *; lia).
    fold q3. unfold SkipOver.checkedAllNodes. rewrite Hnot3. reflexivity.
  - apply dequeueSelectNode_panic_cases. split.
    + split; [cbn; unfold localQueueIndex; lia | exact Hnot3].
    + unfold SkipOver.cursorInBounds. cbn. lia.
Qed.

(** The only queue of the overloaded tree is skipped and the next call
    panics. *)
Lemma dequeueSelectNode_skip_last_panics_witness :
  exists qcud',
    SkipOver.dequeueSelectNode Fixture.onIngester Fixture.emptyRoot
    = Ok (SelNil, false, qcud')
    /\ SkipOver.dequeueSelectNode qcud' Fixture.emptyRoot
       = Panic IndexOutOfRange.
Proof.
  destruct (dequeueSelectNode_skip_last_panics Fixture.onIngester
              Fixture.emptyRoot Fixture.ingester)
    as (qcud' & Hskip & _ & _ & Hpanic).
  - reflexivity.
  - vm_compute. reflexivity.
  - vm_compute. reflexivity.
  - vm_compute. split; [discriminate | reflexivity].
  - reflexivity.
  - reflexivity.
  - exists qcud'. split; assumption.
Defined.

(** ** The rotation: after the pass *)

(** Once [nodesChecked = len(nodeOrder)+1], a call off the sentinel
    works on the skipped list only.  It pops the oldest name and returns
    the child the node holds under it, or no node when the node holds
    none; it reports that all nodes were checked exactly when the name
    it popped was the last.  On an empty skipped list it returns no node
    and reports that all nodes were checked. *)
Theorem dequeueSelectNode_after_pass {A} (qcud : SkipOver.state)
    (node : Node A) :
  currentNodeOrderIndex qcud <> localQueueIndex ->
  nodesChecked qcud = GoInt.add (GoInt.len (nodeOrder qcud)) 1 ->
  SkipOver.dequeueSelectNode qcud node
  = match nodesSkippedOrder qcud with
    | nm :: rest =>
        Ok (match queueMap node !! nm with
            | Some c => SelChild c
            | None => SelNil
            end,
            bool_decide (rest = []),
            SkipOver.set_nodesSkippedOrder qcud rest)
    | [] => Ok (SelNil, true, qcud)
    end.
Proof.
  intros Hidx Hchk. unfold SkipOver.dequeueSelectNode.
  apply Z.eqb_neq in Hidx. rewrite Hidx.
  assert (Hb : SkipOver.checkedAllNodesBeforeSkips qcud = true)
    by (unfold SkipOver.checkedAllNodesBeforeSkips; rewrite Hchk;
        apply Z.eqb_refl).
  rewrite Hb. cbn [negb].
  destruct (nodesSkippedOrder qcud) as [|nm rest] eqn:Hskip.
  - unfold SkipOver.checkedAllNodes. rewrite Hb, Hskip. reflexivity.
  - unfold SkipOver.checkedAllNodes, SkipOver.child_of.
    f_equal. f_equal. f_equal.
    change (SkipOver.checkedAllNodesBeforeSkips
              (SkipOver.set_nodesSkippedOrder qcud rest))
      with (SkipOver.checkedAllNodesBeforeSkips qcud).
    rewrite Hb. cbn. destruct rest; reflexivity.
Qed.

(** The pass over the two overloaded queues, were it to end: the first
    call pops the store-gateway queue and one name is left. *)
Lemma dequeueSelectNode_after_pass_witness :
  SkipOver.dequeueSelectNode Fixture.passOver Fixture.twoChildren
  = Ok (SelChild (Fixture.leaf Fixture.storeGateway "q2"), false,
        SkipOver.set_nodesSkippedOrder Fixture.passOver [Fixture.ingester]).
Proof.
  rewrite (dequeueSelectNode_after_pass Fixture.passOver Fixture.twoChildren).
  - reflexivity.
  - discriminate.
  - reflexivity.
Defined.

(** ** The broker: queue paths *)

(** [makeQueuePath] never returns an error and every path starts with
    the tenant of the request: requests of different tenants never get
    the same path, whatever the configuration of the broker, and the
    first segment, which the backlog test looks up, is the tenant. *)
Theorem makeQueuePath_separates_tenants `{Collaborators}
    (qb qb' : Broker.queueBroker) (r r' : tenantRequest Request) :
  snd (Broker.makeQueuePath qb r) = None
  /\ head (fst (Broker.makeQueuePath qb r)) = Some (tenantID r)
  /\ (fst (Broker.makeQueuePath qb r) = fst (Broker.makeQueuePath qb' r') ->
      tenantID r = tenantID r').
Proof.
  assert (Hhead : forall b x,
            head (fst (Broker.makeQueuePath b x)) = Some (tenantID x)).
  { intros b x. unfold Broker.makeQueuePath.
    destruct (Broker.additionalQueueDimensionsEnabled b);
      [destruct (asSchedulerRequest (req x)) |]; reflexivity. }
  split; [apply makeQueuePath_tenant |]. split; [apply Hhead |].
  intros Heq. pose proof (Hhead qb r) as H1. rewrite Heq, Hhead in H1.
  congruence.
Qed.

(** ** The broker: a tenant that cannot be registered *)

(** When [createOrUpdateTenant] returns an error, [enqueueRequestBack]
    and [enqueueRequestFront] return that error and enqueue nothing:
    the tree and the shuffle-shard state are as they were. *)
Theorem enqueueRequest_tenant_error `{Collaborators}
    (qb : Broker.queueBroker) (request : tenantRequest Request)
    (tenantMaxQueriers : Z) (e : QueueError) (tqa : tenantQuerierAssignments) :
  createOrUpdateTenant (Broker.tenantQuerierAssignmentsOf qb)
    (tenantID request) tenantMaxQueriers = (Some e, tqa) ->
  Broker.enqueueRequestBack qb request tenantMaxQueriers
  = (Some e, Broker.set_assignments qb tqa)
  /\ Broker.enqueueRequestFront qb request tenantMaxQueriers
     = (Some e, Broker.set_assignments qb tqa)
  /\ Broker.queueTree (Broker.set_assignments qb tqa) = Broker.queueTree qb
  /\ Broker.treeShuffleShardState (Broker.set_assignments qb tqa)
     = Broker.treeShuffleShardState qb.
Proof.
  intros Hcreate.
  unfold Broker.enqueueRequestBack, Broker.enqueueRequestFront.
  rewrite Hcreate. repeat split.
Qed.

(** A request without tenant identifier is refused by a broker that
    wants its tenants named, and its tree stays empty. *)
Lemma enqueueRequest_tenant_error_witness :
  fst (@Broker.enqueueRequestBack StrictFixture.collaborators
         StrictFixture.broker StrictFixture.unnamed 0)
  = Some (ErrOther "invalid tenant id")
  /\ @Broker.isEmpty StrictFixture.collaborators
       (snd (@Broker.enqueueRequestBack StrictFixture.collaborators
               StrictFixture.broker StrictFixture.unnamed 0)) = true.
Proof.
  destruct (@enqueueRequest_tenant_error StrictFixture.collaborators
              StrictFixture.broker StrictFixture.unnamed 0
              (ErrOther "invalid tenant id") BrokerFixture.noAssignments
              eq_refl) as (Hback & _ & _ & _).
  rewrite Hback. split; reflexivity.
Defined.

(** ** The broker: tenant bookkeeping after a dequeue *)

(** A dequeue by an active querier whose tree dequeue returns the path
    [root :: fromRoot].  The tenant is the second segment of the path,
    or the empty identifier when there is none.  The tenant returned is
    the registration as it was before the call; the registration is
    removed exactly when the tree has no node at [fromRoot] any more.
    The index returned is the shared position the tree left, the broker
    keeps the tree and the state the dequeue returned, and the querier
    is recorded as current.  A tree dequeue that returns the empty path
    makes the call panic. *)
Theorem dequeueRequestForQuerier_bookkeeping `{Collaborators}
    (qb : Broker.queueBroker) (lastTenantIndex : Z) (querierID : QuerierID)
    (path : QueuePath) (v : option (tenantRequest Request)) (t : TreeT)
    (sss : shuffleShardState) :
  Broker.querierInactive qb querierID = false ->
  tree_dequeue (Broker.queueTree qb)
    (mkShuffleShard lastTenantIndex
       (currentQuerierRef (Broker.treeShuffleShardState qb)))
    (Broker.tenantQuerierAssignmentsOf qb) = (path, v, t, sss) ->
  match path with
  | [] =>
      Broker.dequeueRequestForQuerier qb lastTenantIndex querierID
      = Panic SliceBoundsOutOfRange
  | _ :: fromRoot =>
      let tenant := default emptyTenantID (head fromRoot) in
      let tqa := Broker.tenantQuerierAssignmentsOf qb in
      exists r,
        Broker.dequeueRequestForQuerier qb lastTenantIndex querierID = Ok r
        /\ Broker.dq_tenant r = tenantsByID tqa !! tenant
        /\ Broker.dq_index r = sharedQueuePosition sss
        /\ Broker.tenantQuerierAssignmentsOf (Broker.dq_broker r)
           = match tree_getNode t fromRoot with
             | Some _ => tqa
             | None => removeTenant tqa tenant
             end
        /\ Broker.queueTree (Broker.dq_broker r) = t
        /\ Broker.treeShuffleShardState (Broker.dq_broker r) = sss
        /\ Broker.currentQuerier (Broker.dq_broker r) = querierID
  end.
Proof.
  intros Hactive Htree. unfold Broker.dequeueRequestForQuerier.
  rewrite Hactive.
  change (Broker.queueTree (Broker.set_currentQuerier qb querierID))
    with (Broker.queueTree qb).
  change (Broker.treeShuffleShardState (Broker.set_currentQuerier qb querierID))
    with (Broker.treeShuffleShardState qb).
  change (Broker.tenantQuerierAssignmentsOf
            (Broker.set_currentQuerier qb querierID))
    with (Broker.tenantQuerierAssignmentsOf qb).
  rewrite Htree.
  destruct path as [|root fromRoot]; [reflexivity |].
  eexists. split; [reflexivity |].
  destruct fromRoot as [|second rest]; cbn;
    destruct (tree_getNode t _); repeat split.
Qed.

(** The only request of a tenant is dequeued: the tenant returned is the
    registered one and its registration is gone afterwards. *)
Lemma dequeueRequestForQuerier_bookkeeping_witness :
  exists r,
    Broker.dequeueRequestForQuerier BrokerFixture.oneQueued 0 "querier-1"
    = Ok r
    /\ Broker.dq_tenant r = Some (mkQueueTenant "tenant-1" 0)
    /\ tenantsByID (Broker.tenantQuerierAssignmentsOf (Broker.dq_broker r))
         !! ("tenant-1"%string : TenantID) = None.
Proof.
  pose proof (dequeueRequestForQuerier_bookkeeping BrokerFixture.oneQueued 0
                "querier-1"
                [Tree.rootName; "tenant-1"%string]
                (Some BrokerFixture.request1)
                (snd (fst (BrokerFixture.dequeueOn
                             (Broker.queueTree BrokerFixture.oneQueued)
                             (mkShuffleShard 0 "") BrokerFixture.noAssignments)))
                (mkShuffleShard 0 "") eq_refl) as Hb.
  destruct Hb as (r & Hr & Htenant & _ & Htqa & _); [vm_compute; reflexivity |].
  exists r. split; [exact Hr |].
  split; [rewrite Htenant; vm_compute; reflexivity |].
  rewrite Htqa. vm_compute. reflexivity.
Defined.

(** ** The broker: before the first connection *)

(** A broker as [newQueueBroker] makes it knows no querier: every
    dequeue is refused with [ErrQuerierShuttingDown], returns the
    position zero and leaves the broker as it is. *)
Theorem newQueueBroker_refuses_dequeue `{Collaborators}
    (tree : TreeT) (maxSize : Z) (dimensions : bool) (forgetDelay : Z)
    (lastTenantIndex : Z) (querierID : QuerierID) :
  Broker.dequeueRequestForQuerier
    (BrokerNew.newQueueBroker tree maxSize dimensions forgetDelay)
    lastTenantIndex querierID
  = Ok (Broker.mkDequeued None None 0 (Some ErrQuerierShuttingDown)
          (BrokerNew.newQueueBroker tree maxSize dimensions forgetDelay)).
Proof.
  unfold Broker.dequeueRequestForQuerier, Broker.querierInactive.
  cbn [BrokerNew.newQueueBroker Broker.tenantQuerierAssignmentsOf queriersByID].
  rewrite lookup_empty. reflexivity.
Qed.


(** ** Varints: the loops unfolded *)

Lemma encodeLoop_unfold (dAtA : list Z) (offset v : Z) :
  Rulespb.encodeLoop dAtA offset v
  = if v >=? 128 then
      match Rulespb.store dAtA offset
              (Rulespb.uint8 (Z.lor (Z.land v 127) 128)) with
      | Ok dAtA1 => Rulespb.encodeLoop dAtA1 (GoInt.incr offset) (Z.shiftr v 7)
      | Panic p => Panic p
      end
    else Ok (dAtA, offset, v).
Proof.
  simp encodeLoop.
  destruct (Z_ge_dec v (2 ^ 7)) as [Hge | Hlt]; cbn;
    destruct (Z.geb_spec v 128) as [Hge' | Hlt']; try lia.
  - destruct (Rulespb.store _ _ _); reflexivity.
  - reflexivity.
Qed.

Lemma decodeVarint_unfold (dAtA : list Z) (iNdEx shift wire : Z) :
  Rulespb.decodeVarint dAtA iNdEx shift wire
  = if shift >=? 64 then Ok (inl Rulespb.ErrIntOverflowRules)
    else if iNdEx >=? GoInt.len dAtA then Ok (inl Rulespb.ErrUnexpectedEOF)
    else
      match index dAtA iNdEx with
      | Panic p => Panic p
      | Ok b =>
          let wire' :=
            Z.lor wire (Rulespb.uint64 (Z.shiftl (Z.land b 127) shift)) in
          if b <? 128 then Ok (inr (wire', GoInt.incr iNdEx))
          else Rulespb.decodeVarint dAtA (GoInt.incr iNdEx) (shift + 7) wire'
      end.
Proof.
  simp decodeVarint.
  destruct (Z_ge_dec shift 64); cbn;
    destruct (Z.geb_spec shift 64); try lia; [reflexivity |].
  destruct (Z_ge_dec iNdEx (GoInt.len dAtA)); cbn;
    destruct (Z.geb_spec iNdEx (GoInt.len dAtA)); try lia; [reflexivity |].
  destruct (index dAtA iNdEx) as [b | p]; cbn; [| reflexivity].
  destruct (Z_lt_dec b 128); cbn; destruct (Z.ltb_spec b 128); try lia;
    reflexivity.
Qed.

(** ** Varints: sizes *)

Lemma Len64_lor_1 (x : Z) :
  0 <= x -> Rulespb.Len64 (Z.lor x 1) = Z.log2 x + 1.
Proof.
  intros Hx. unfold Rulespb.Len64.
  destruct (Z.eqb_spec (Z.lor x 1) 0) as [H0 | _].
  - apply Z.lor_eq_0_iff in H0. lia.
  - rewrite Z.log2_lor by lia.
    pose proof (Z.log2_nonneg x). change (Z.log2 1) with 0. lia.
Qed.

Lemma sovRules_le_iff (x k : Z) :
  0 <= x -> 1 <= k -> (Rulespb.sovRules x <= k <-> x < 2 ^ (7 * k)).
Proof.
  intros Hx Hk. unfold Rulespb.sovRules. rewrite Len64_lor_1 by exact Hx.
  pose proof (Z.div_mod (Z.log2 x + 1 + 6) 7 ltac:(lia)) as Hdm.
  pose proof (Z.mod_pos_bound (Z.log2 x + 1 + 6) 7 ltac:(lia)) as Hmb.
  pose proof (Z.log2_nonneg x) as Hl.
  destruct (Z.eq_dec x 0) as [-> | Hne].
  - change (Z.log2 0) with 0 in *.
    split; intros _; [apply Z.pow_pos_nonneg; lia | lia].
  - rewrite (Z.log2_lt_pow2 x (7 * k)) by lia. lia.
Qed.

(** The bounds of [sovRules], for the proofs below. *)
Lemma sovRules_bounds (x : Z) :
  0 <= x < 2 ^ 64 ->
  1 <= Rulespb.sovRules x <= 10
  /\ x < 2 ^ (7 * Rulespb.sovRules x)
  /\ forall k, 1 <= k -> x < 2 ^ (7 * k) -> Rulespb.sovRules x <= k.
Proof.
  intros [Hx Hlt].
  assert (H1 : 1 <= Rulespb.sovRules x).
  { unfold Rulespb.sovRules. rewrite Len64_lor_1 by exact Hx.
    pose proof (Z.log2_nonneg x).
    apply Z.div_le_lower_bound; lia. }
  split; [split; [exact H1 |] |]; [| split].
  - apply sovRules_le_iff; [lia | lia |].
    eapply Z.lt_le_trans; [exact Hlt |].
    apply Z.pow_le_mono_r; lia.
  - apply sovRules_le_iff; [lia | exact H1 | lia].
  - intros k Hk Hxk. apply sovRules_le_iff; assumption.
Qed.

(** [sovRules] is the number of seven-bit groups of its argument: for an
    unsigned 64-bit value it is between one and ten, and it is the least
    [k] with [x < 2^(7k)]. *)
Theorem sovRules_groups (x : Z) :
  0 <= x < 2 ^ 64 ->
  1 <= Rulespb.sovRules x <= 10
  /\ x < 2 ^ (7 * Rulespb.sovRules x)
  /\ forall k, 1 <= k -> x < 2 ^ (7 * k) -> Rulespb.sovRules x <= k.
Proof. exact (sovRules_bounds x). Qed.

(** 300 needs two groups. *)
Lemma sovRules_groups_witness : Rulespb.sovRules 300 = 2.
Proof.
  destruct (sovRules_groups 300) as ([H1 _] & Hup & Hleast); [lia |].
  specialize (Hleast 2 ltac:(lia) ltac:(lia)).
  destruct (Z.eq_dec (Rulespb.sovRules 300) 1) as [He | Hne]; [| lia].
  rewrite He in Hup. lia.
Defined.

Lemma sovRules_small (v : Z) : 0 <= v < 128 -> Rulespb.sovRules v = 1.
Proof.
  intros Hv.
  assert (Rulespb.sovRules v <= 1)
    by (apply sovRules_le_iff; [lia | lia | change (2 ^ (7 * 1)) with 128; lia]).
  assert (1 <= Rulespb.sovRules v).
  { unfold Rulespb.sovRules. rewrite Len64_lor_1 by lia.
    pose proof (Z.log2_nonneg v). apply Z.div_le_lower_bound; lia. }
  lia.
Qed.

Lemma sovRules_large (v : Z) : 128 <= v -> 2 <= Rulespb.sovRules v.
Proof.
  intros Hv.
  destruct (Z_le_gt_dec (Rulespb.sovRules v) 1) as [Hle | Hgt]; [| lia].
  apply sovRules_le_iff in Hle; [| lia | lia].
  change (2 ^ (7 * 1)) with 128 in Hle. lia.
Qed.

Lemma pow2_7_succ (k : Z) : 0 <= k -> 2 ^ (7 * (k + 1)) = 128 * 2 ^ (7 * k).
Proof.
  intros Hk. replace (7 * (k + 1)) with (7 + 7 * k) by lia.
  rewrite Z.pow_add_r by lia. reflexivity.
Qed.

Lemma sovRules_shift (v : Z) :
  128 <= v -> Rulespb.sovRules (v / 128) = Rulespb.sovRules v - 1.
Proof.
  intros Hv.
  pose proof (sovRules_large v Hv) as H2.
  assert (Hq : 1 <= v / 128) by (apply Z.div_le_lower_bound; lia).
  assert (H1 : 1 <= Rulespb.sovRules (v / 128)).
  { unfold Rulespb.sovRules. rewrite Len64_lor_1 by lia.
    pose proof (Z.log2_nonneg (v / 128)). apply Z.div_le_lower_bound; lia. }
  assert (Hiff : forall k, 1 <= k ->
            (Rulespb.sovRules (v / 128) <= k <-> Rulespb.sovRules v <= k + 1)).
  { intros k Hk.
    rewrite (sovRules_le_iff (v / 128) k), (sovRules_le_iff v (k + 1)) by lia.
    rewrite pow2_7_succ by lia.
    pose proof (Z.pow_pos_nonneg 2 (7 * k) ltac:(lia) ltac:(lia)).
    pose proof (Z.div_mod v 128 ltac:(lia)).
    pose proof (Z.mod_pos_bound v 128 ltac:(lia)).
    split; intros; nia. }
  pose proof (proj1 (Hiff (Rulespb.sovRules (v / 128)) H1) ltac:(lia)).
  pose proof (proj2 (Hiff (Rulespb.sovRules v - 1) ltac:(lia)) ltac:(lia)).
  lia.
Qed.

(** ** Varints: bit operations as arithmetic *)

Lemma land_127 (v : Z) : Z.land v 127 = v mod 128.
Proof. change 127 with (Z.ones 7). rewrite Z.land_ones by lia. reflexivity. Qed.

Lemma lor_disjoint (a b n : Z) :
  0 <= n -> 0 <= a < 2 ^ n -> Z.lor a (b * 2 ^ n) = a + b * 2 ^ n.
Proof.
  intros Hn Ha.
  assert (Hland : Z.land a (b * 2 ^ n) = 0).
  { rewrite <- (Z.mod_small a (2 ^ n)) by lia.
    rewrite <- Z.land_ones by lia.
    rewrite <- Z.land_assoc, (Z.land_comm (Z.ones n)), Z.land_ones by lia.
    rewrite Z.mod_mul by lia. apply Z.land_0_r. }
  rewrite <- Z.lxor_lor by exact Hland.
  symmetry. apply Z.add_nocarry_lxor. exact Hland.
Qed.

Lemma continuation_byte (v : Z) :
  0 <= v -> Rulespb.uint8 (Z.lor (Z.land v 127) 128) = 128 + v mod 128.
Proof.
  intros Hv. rewrite land_127.
  pose proof (Z.mod_pos_bound v 128 ltac:(lia)) as Hm.
  change 128 with (1 * 2 ^ 7) at 2.
  rewrite (lor_disjoint (v mod 128) 1 7) by lia.
  unfold Rulespb.uint8. rewrite Z.mod_small; lia.
Qed.

(** ** Varints: writing *)

Lemma store_inside (dAtA : list Z) (i b : Z) :
  0 <= i < GoInt.len dAtA ->
  Rulespb.store dAtA i b
  = Ok (take (Z.to_nat i) dAtA ++ b :: drop (S (Z.to_nat i)) dAtA).
Proof.
  intros Hi. unfold Rulespb.store, GoInt.len in *.
  replace ((0 <=? i) && (i <? Z.of_nat (length dAtA))) with true
    by (symmetry; apply andb_true_iff; split; lia).
  rewrite insert_take_drop by lia. reflexivity.
Qed.

Lemma encode_groups (n : nat) :
  forall (v : Z) (dAtA : list Z) (offset : Z),
    0 <= v ->
    Rulespb.sovRules v = Z.of_nat n + 1 ->
    0 <= offset ->
    offset + Z.of_nat n < GoInt.len dAtA ->
    GoInt.len dAtA <= GoInt.max_int ->
    ('(d, o, v') ← Rulespb.encodeLoop dAtA offset v;
     Rulespb.store d o (Rulespb.uint8 v'))
    = Ok (take (Z.to_nat offset) dAtA ++ Rulespb.groups n v
            ++ drop (Z.to_nat offset + S n) dAtA).
Proof.
  induction n as [|n IH]; intros v dAtA offset Hv Hsov Hoff Hroom Hmax;
    rewrite encodeLoop_unfold.
  - assert (Hsmall : v < 128).
    { destruct (Z_lt_ge_dec v 128) as [Hlt | Hge]; [exact Hlt |].
      pose proof (sovRules_large v ltac:(lia)). lia. }
    destruct (Z.geb_spec v 128) as [Hge | _]; [lia |].
    cbn [mbind Res_bind]. rewrite store_inside by lia.
    unfold Rulespb.uint8. rewrite Z.mod_small by lia.
    cbn [Rulespb.groups].
    replace (Z.to_nat offset + 1)%nat with (S (Z.to_nat offset)) by lia.
    reflexivity.
  - assert (Hlarge : 128 <= v).
    { destruct (Z_lt_ge_dec v 128) as [Hlt | Hge]; [| lia].
      rewrite sovRules_small in Hsov by lia. lia. }
    destruct (Z.geb_spec v 128) as [_ | Hlt]; [| lia].
    rewrite continuation_byte by exact Hv.
    rewrite store_inside by lia.
    rewrite Z.shiftr_div_pow2 by lia. change (2 ^ 7) with 128.
    rewrite incr_in_range
      by (unfold GoInt.min_int; unfold GoInt.max_int in *; lia).
    set (dAtA1 := take (Z.to_nat offset) dAtA ++ (128 + v mod 128)
                    :: drop (S (Z.to_nat offset)) dAtA).
    assert (Hlen1 : length dAtA1 = length dAtA).
    { subst dAtA1. unfold GoInt.len in Hroom.
      rewrite length_app, length_take, length_cons, length_drop. lia. }
    rewrite IH.
    + unfold GoInt.len in Hroom. f_equal. subst dAtA1.
      replace (Z.to_nat (offset + 1)) with (S (Z.to_nat offset)) by lia.
      assert (Ht : length (take (Z.to_nat offset) dAtA) = Z.to_nat offset)
        by (rewrite length_take; lia).
      rewrite (take_app_ge _ _ (S (Z.to_nat offset))) by lia.
      rewrite Ht. replace (S (Z.to_nat offset) - Z.to_nat offset)%nat
        with 1%nat by lia.
      cbn [take]. rewrite take_0.
      rewrite (drop_app_ge _ _ (S (Z.to_nat offset) + S n)) by lia.
      rewrite Ht.
      replace (S (Z.to_nat offset) + S n - Z.to_nat offset)%nat
        with (S (S n)) by lia.
      cbn [drop Rulespb.groups]. rewrite drop_drop.
      rewrite <- app_assoc.
      replace (S (Z.to_nat offset) + S n)%nat
        with (Z.to_nat offset + S (S n))%nat by lia.
      reflexivity.
    + apply Z.div_pos; lia.
    + rewrite sovRules_shift by exact Hlarge. lia.
    + lia.
    + unfold GoInt.len in *. rewrite Hlen1. lia.
    + unfold GoInt.len in *. rewrite Hlen1. lia.
Qed.

Lemma groups_length (n : nat) (v : Z) : length (Rulespb.groups n v) = S n.
Proof. revert v. induction n as [|n IH]; intros v; cbn; [| rewrite IH]; reflexivity. Qed.

Lemma groups_shape (n : nat) :
  forall v, 0 <= v < 2 ^ (7 * (Z.of_nat n + 1)) ->
    exists front lastByte,
      Rulespb.groups n v = front ++ [lastByte]
      /\ Forall (fun b => 128 <= b < 256) front
      /\ 0 <= lastByte < 128.
Proof.
  induction n as [|n IH]; intros v Hv.
  - exists [], v. cbn. split; [reflexivity |]. split; [constructor |].
    change (2 ^ (7 * (0 + 1))) with 128 in Hv. cbn in Hv. lia.
  - destruct (IH (v / 128)) as (front & lastByte & Hg & Hfront & Hlast).
    { replace (Z.of_nat (S n) + 1) with ((Z.of_nat n + 1) + 1) in Hv by lia.
      rewrite pow2_7_succ in Hv by lia.
      split; [apply Z.div_pos; lia |].
      apply Z.div_lt_upper_bound; lia. }
    exists ((128 + v mod 128) :: front), lastByte. cbn [Rulespb.groups].
    rewrite Hg. split; [reflexivity |]. split; [| exact Hlast].
    constructor; [| exact Hfront].
    pose proof (Z.mod_pos_bound v 128 ltac:(lia)). lia.
Qed.

(** [encodeVarintRules] with room for the varint in front of [offset]:
    it returns [offset - sovRules v] and the buffer in which the
    [sovRules v] bytes in front of [offset] are the varint of [v], every
    other byte being as it was.  Of the bytes written, all but the last
    carry the continuation bit and the last does not. *)
Theorem encodeVarintRules_writes (dAtA : list Z) (offset v : Z) :
  0 <= v < 2 ^ 64 ->
  Rulespb.sovRules v <= offset <= GoInt.len dAtA ->
  GoInt.len dAtA <= GoInt.max_int ->
  let base := offset - Rulespb.sovRules v in
  Rulespb.encodeVarintRules dAtA offset v
  = Ok (take (Z.to_nat base) dAtA ++ Rulespb.varint v
          ++ drop (Z.to_nat offset) dAtA, base)
  /\ GoInt.len (Rulespb.varint v) = Rulespb.sovRules v
  /\ exists front lastByte,
       Rulespb.varint v = front ++ [lastByte]
       /\ Forall (fun b => 128 <= b < 256) front
       /\ 0 <= lastByte < 128.
Proof.
  intros Hv Hoff Hmax base.
  destruct (sovRules_bounds v Hv) as ([H1 H10] & Hup & _).
  pose proof (len_nonneg dAtA) as Hnn.
  split; [| split].
  - unfold Rulespb.encodeVarintRules.
    rewrite sub_in_range
      by (unfold GoInt.in_range, GoInt.min_int; unfold GoInt.max_int in *; lia).
    fold base.
    assert (Henc := encode_groups (Z.to_nat (Rulespb.sovRules v - 1)) v dAtA
                      base ltac:(lia) ltac:(lia) ltac:(subst base; lia)
                      ltac:(subst base; lia) Hmax).
    replace (Z.to_nat base + S (Z.to_nat (Rulespb.sovRules v - 1)))%nat
      with (Z.to_nat offset) in Henc by (subst base; lia).
    fold (Rulespb.varint v) in Henc.
    destruct (Rulespb.encodeLoop dAtA base v) as [[[d o] v'] | p];
      cbn [mbind Res_bind] in *; [| discriminate Henc].
    rewrite Henc. reflexivity.
  - unfold Rulespb.varint, GoInt.len. rewrite groups_length. lia.
  - unfold Rulespb.varint. apply groups_shape.
    replace (Z.of_nat (Z.to_nat (Rulespb.sovRules v - 1)) + 1)
      with (Rulespb.sovRules v) by lia.
    lia.
Qed.

(** The length 300 of a field, written in front of offset 5 of a buffer
    of twelve bytes. *)
Lemma encodeVarintRules_writes_witness :
  Rulespb.encodeVarintRules (repeat 0 12) 5 300
  = Ok ([0; 0; 0; 172; 2; 0; 0; 0; 0; 0; 0; 0], 3).
Proof.
  destruct (encodeVarintRules_writes (repeat 0 12) 5 300) as [Henc _].
  - lia.
  - vm_compute. split; discriminate.
  - vm_compute. discriminate.
  - rewrite Henc. reflexivity.
Defined.

(** ** Varints: reading *)

Lemma index_middle {A} (pre post : list A) (x : A) :
  index (pre ++ x :: post) (GoInt.len pre) = Ok x.
Proof.
  apply index_lookup; [apply len_nonneg |].
  unfold GoInt.len. rewrite Nat2Z.id. apply list_lookup_middle. reflexivity.
Qed.

Lemma decode_groups (n : nat) :
  forall (v : Z) (pre post : list Z) (shift wire : Z),
    0 <= shift -> shift + 7 * Z.of_nat n < 64 ->
    0 <= v < 2 ^ (7 * (Z.of_nat n + 1)) ->
    v < 2 ^ (64 - shift) ->
    0 <= wire < 2 ^ shift ->
    GoInt.len (pre ++ Rulespb.groups n v ++ post) <= GoInt.max_int ->
    Rulespb.decodeVarint (pre ++ Rulespb.groups n v ++ post) (GoInt.len pre)
      shift wire
    = Ok (inr (wire + v * 2 ^ shift, GoInt.len pre + Z.of_nat n + 1)).
Proof.
  induction n as [|n IH]; intros v pre post shift wire Hs Hfit Hv Hv64 Hw Hmax;
    rewrite decodeVarint_unfold;
    (destruct (Z.geb_spec shift 64) as [Hge | _]; [lia |]);
    pose proof (len_nonneg pre) as Hpre;
    match goal with
    | |- context [GoInt.len pre >=? GoInt.len ?l] =>
        assert (Hin : GoInt.len pre < GoInt.len l)
          by (unfold GoInt.len; rewrite !length_app, groups_length; lia);
        destruct (Z.geb_spec (GoInt.len pre) (GoInt.len l)) as [Hge | _];
        [lia |]
    end;
    cbn [Rulespb.groups app]; rewrite index_middle; cbn zeta;
    rewrite incr_in_range
      by (unfold GoInt.min_int; unfold GoInt.max_int in *; lia).
  - change (2 ^ (7 * (0 + 1))) with 128 in Hv. cbn in Hv.
    destruct (Z.ltb_spec v 128) as [_ | Hge]; [| lia].
    rewrite land_127, Z.mod_small, Z.shiftl_mul_pow2 by lia.
    assert (Hbound : v * 2 ^ shift < 2 ^ 64).
    { replace 64 with ((64 - shift) + shift) at 1 by lia.
      rewrite Z.pow_add_r by lia.
      apply Z.mul_lt_mono_pos_r; [apply Z.pow_pos_nonneg; lia | lia]. }
    unfold Rulespb.uint64. rewrite Z.mod_small
      by (split; [apply Z.mul_nonneg_nonneg; [lia | apply Z.pow_nonneg; lia]
                 | exact Hbound]).
    rewrite lor_disjoint by lia. do 3 f_equal. lia.
  - pose proof (Z.mod_pos_bound v 128 ltac:(lia)) as Hm.
    destruct (Z.ltb_spec (128 + v mod 128) 128) as [Hlt | _]; [lia |].
    rewrite land_127.
    replace ((128 + v mod 128) mod 128) with (v mod 128)
      by (apply (Z.mod_unique_pos _ _ 1); lia).
    rewrite Z.shiftl_mul_pow2 by lia.
    pose proof (Z.pow_pos_nonneg 2 shift ltac:(lia) ltac:(lia)) as Hp.
    assert (Hpow : 2 ^ (shift + 7) = 128 * 2 ^ shift)
      by (rewrite Z.pow_add_r by lia; change (2 ^ 7) with 128; lia).
    assert (Hle64 : 2 ^ (shift + 7) <= 2 ^ 64)
      by (apply Z.pow_le_mono_r; lia).
    assert (Hterm : 0 <= v mod 128 * 2 ^ shift < 2 ^ 64).
    { split; [apply Z.mul_nonneg_nonneg; lia |].
      apply Z.lt_le_trans with (128 * 2 ^ shift); [| lia].
      apply Z.mul_lt_mono_pos_r; lia. }
    unfold Rulespb.uint64.
    rewrite (Z.mod_small (v mod 128 * 2 ^ shift)) by exact Hterm.
    rewrite lor_disjoint by lia.
    replace (pre ++ (128 + v mod 128) :: Rulespb.groups n (v / 128) ++ post)
      with ((pre ++ [128 + v mod 128]) ++ Rulespb.groups n (v / 128) ++ post)
      in * by (rewrite <- app_assoc; reflexivity).
    replace (GoInt.len pre + 1) with (GoInt.len (pre ++ [128 + v mod 128]))
      by (unfold GoInt.len; rewrite length_app; cbn; lia).
    replace (Z.of_nat (S n) + 1) with ((Z.of_nat n + 1) + 1) in Hv by lia.
    rewrite pow2_7_succ in Hv by lia.
    pose proof (Z.div_mod v 128 ltac:(lia)) as Hdm.
    assert (Hq : 0 <= v / 128) by (apply Z.div_pos; lia).
    rewrite IH.
    + do 3 f_equal; [rewrite Hpow; lia |].
      unfold GoInt.len. rewrite length_app. cbn. lia.
    + lia.
    + lia.
    + split; [exact Hq |]. apply Z.div_lt_upper_bound; lia.
    + replace (64 - shift) with ((64 - (shift + 7)) + 7) in Hv64 by lia.
      rewrite Z.pow_add_r in Hv64 by lia. change (2 ^ 7) with 128 in Hv64.
      apply Z.div_lt_upper_bound; lia.
    + rewrite Hpow. nia.
    + cbn [Rulespb.groups] in Hmax. unfold GoInt.len in *.
      repeat rewrite ?length_app, ?length_cons, ?groups_length in Hmax.
      repeat rewrite ?length_app, ?length_cons, ?groups_length.
      cbn [length]. lia.
Qed.

(** Round trip: the varint that [encodeVarintRules] writes in front of
    [offset] is read back by the decoding loop, started on the index
    that [encodeVarintRules] returned: it gives the value that was
    written and stops at [offset]. *)
Theorem decodeVarint_encodeVarintRules (dAtA dAtA' : list Z)
    (offset v base : Z) :
  0 <= v < 2 ^ 64 ->
  Rulespb.sovRules v <= offset <= GoInt.len dAtA ->
  GoInt.len dAtA <= GoInt.max_int ->
  Rulespb.encodeVarintRules dAtA offset v = Ok (dAtA', base) ->
  Rulespb.decodeVarint dAtA' base 0 0 = Ok (inr (v, offset)).
Proof.
  intros Hv Hoff Hmax Henc.
  destruct (sovRules_bounds v Hv) as ([H1 H10] & Hup & _).
  pose proof (len_nonneg dAtA) as Hnn.
  unfold Rulespb.encodeVarintRules in Henc.
  rewrite sub_in_range in Henc
    by (unfold GoInt.in_range, GoInt.min_int; unfold GoInt.max_int in *; lia).
  set (b := offset - Rulespb.sovRules v) in *.
  set (n := Z.to_nat (Rulespb.sovRules v - 1)).
  assert (Hg := encode_groups n v dAtA b ltac:(lia) ltac:(lia)
                  ltac:(subst b; lia) ltac:(subst b; lia) Hmax).
  destruct (Rulespb.encodeLoop dAtA b v) as [[[d o] v'] | p];
    cbn [mbind Res_bind] in *; [| discriminate Hg].
  rewrite Hg in Henc. cbn [mbind Res_bind] in Henc.
  injection Henc as <- <-.
  assert (Hb : b = GoInt.len (take (Z.to_nat b) dAtA)).
  { unfold GoInt.len in *. rewrite length_take. subst b. lia. }
  assert (Hd := decode_groups n v (take (Z.to_nat b) dAtA)
                  (drop (Z.to_nat b + S n) dAtA) 0 0).
  rewrite <- Hb in Hd. rewrite Hd.
  - do 3 f_equal; [lia |]. subst b n. lia.
  - lia.
  - subst n. lia.
  - replace (Z.of_nat n + 1) with (Rulespb.sovRules v) by (subst n; lia). lia.
  - lia.
  - change (2 ^ 0) with 1. lia.
  - unfold GoInt.len in *.
    rewrite !length_app, groups_length, length_take, length_drop.
    subst b n. lia.
Qed.

(** The length 300, written in front of offset 5, is read back from
    index 3, and the reading stops at 5. *)
Lemma decodeVarint_encodeVarintRules_witness :
  Rulespb.decodeVarint [0; 0; 0; 172; 2; 0; 0; 0; 0; 0; 0; 0] 3 0 0
  = Ok (inr (300, 5)).
Proof.
  apply (decodeVarint_encodeVarintRules (repeat 0 12)).
  - lia.
  - vm_compute. split; discriminate.
  - vm_compute. discriminate.
  - vm_compute. reflexivity.
Defined.

(** What the decoding loop comes to, for the proofs below. *)
Lemma decodeVarint_cases (dAtA : list Z) (iNdEx shift wire : Z) :
  0 <= iNdEx -> 0 <= shift -> GoInt.len dAtA <= GoInt.max_int ->
  match Rulespb.decodeVarint dAtA iNdEx shift wire with
  | Panic _ => False
  | Ok (inl e) =>
      e = Rulespb.ErrIntOverflowRules \/ e = Rulespb.ErrUnexpectedEOF
  | Ok (inr (_, next)) =>
      iNdEx < next <= GoInt.len dAtA /\ shift + 7 * (next - iNdEx) <= 70
  end.
Proof.
  intros Hi Hs Hmax.
  remember (Z.to_nat (71 - shift)) as m eqn:Hm.
  revert iNdEx shift wire Hi Hs Hm.
  induction m as [m IH] using lt_wf_ind.
  intros iNdEx shift wire Hi Hs Hm.
  rewrite decodeVarint_unfold.
  destruct (Z.geb_spec shift 64) as [Hge | Hlt]; [left; reflexivity |].
  destruct (Z.geb_spec iNdEx (GoInt.len dAtA)) as [Hge | Hin];
    [right; reflexivity |].
  destruct (index_inside dAtA iNdEx ltac:(lia)) as (b & -> & _).
  cbn zeta.
  rewrite incr_in_range
    by (unfold GoInt.min_int; unfold GoInt.max_int in *; lia).
  destruct (b <? 128); [lia |].
  specialize (IH (Z.to_nat (71 - (shift + 7))) ltac:(lia) (iNdEx + 1)
                (shift + 7)
                (Z.lor wire (Rulespb.uint64 (Z.shiftl (Z.land b 127) shift)))
                ltac:(lia) ltac:(lia) eq_refl).
  destruct (Rulespb.decodeVarint dAtA (iNdEx + 1) (shift + 7) _)
    as [[e | [w next]] | p]; [exact IH | lia | exact IH].
Qed.

(** The decoding loop never reads outside the buffer and never panics.
    It fails only with the overflow or the end-of-input error; when it
    succeeds it has read at least one byte, stopped inside the buffer,
    and, started with a shift of zero, read at most ten bytes. *)
Theorem decodeVarint_safe (dAtA : list Z) (iNdEx shift wire : Z) :
  0 <= iNdEx -> 0 <= shift -> GoInt.len dAtA <= GoInt.max_int ->
  match Rulespb.decodeVarint dAtA iNdEx shift wire with
  | Panic _ => False
  | Ok (inl e) =>
      e = Rulespb.ErrIntOverflowRules \/ e = Rulespb.ErrUnexpectedEOF
  | Ok (inr (_, next)) =>
      iNdEx < next <= GoInt.len dAtA /\ shift + 7 * (next - iNdEx) <= 70
  end.
Proof. exact (decodeVarint_cases dAtA iNdEx shift wire). Qed.

(** A varint of two bytes in a buffer of three: the loop stops inside
    the buffer. *)
Lemma decodeVarint_safe_witness :
  match Rulespb.decodeVarint [172; 2; 7] 0 0 0 with
  | Panic _ => False
  | Ok (inl e) =>
      e = Rulespb.ErrIntOverflowRules \/ e = Rulespb.ErrUnexpectedEOF
  | Ok (inr (_, next)) =>
      0 < next <= GoInt.len [172; 2; 7] /\ 0 + 7 * (next - 0) <= 70
  end.
Proof.
  apply decodeVarint_safe; [lia | lia | vm_compute; discriminate].
Defined.

(** ** Varints: the size of a signed value *)

Lemma lxor_ones (y k : Z) :
  0 <= k -> 0 <= y < 2 ^ k -> Z.lxor y (2 ^ k - 1) = 2 ^ k - 1 - y.
Proof.
  intros Hk Hy.
  assert (Hr : 2 ^ k - 1 - y = Z.land (Z.lnot y) (Z.ones k)).
  { rewrite Z.land_ones by lia. unfold Z.lnot.
    apply (Z.mod_unique_pos _ _ (-1)); lia. }
  rewrite Hr.
  replace (2 ^ k - 1) with (Z.ones k) by (rewrite Z.ones_equiv; lia).
  apply Z.bits_inj'. intros n Hn.
  rewrite Z.lxor_spec, Z.land_spec, Z.lnot_spec by lia.
  destruct (Z_lt_ge_dec n k) as [Hlt | Hge].
  - rewrite Z.ones_spec_low by lia.
    destruct (Z.testbit y n); reflexivity.
  - rewrite Z.ones_spec_high by lia.
    rewrite <- (Z.mod_small y (2 ^ k)) by lia.
    rewrite Z.mod_pow2_bits_high by lia. reflexivity.
Qed.

(** [sozRules] is the size of the zigzag code of its argument read as a
    signed integer [n]: [2n] when [n] is not negative and [-2n - 1] when
    it is, so that small negative values take few bytes. *)
Theorem sozRules_zigzag (x : Z) :
  0 <= x < 2 ^ 64 ->
  let n := Rulespb.int64 x in
  Rulespb.sozRules x
  = Rulespb.sovRules (if 0 <=? n then 2 * n else - 2 * n - 1).
Proof.
  intros Hx n. subst n. unfold Rulespb.sozRules, Rulespb.int64, GoInt.wrap.
  f_equal. unfold Rulespb.uint64.
  rewrite Z.shiftl_mul_pow2, Z.shiftr_div_pow2 by lia.
  change (2 ^ 1) with 2.
  destruct (Z_lt_ge_dec x (2 ^ 63)) as [Hlt | Hge].
  - rewrite (Z.mod_small (x + 2 ^ 63)) by lia.
    replace (x + 2 ^ 63 - 2 ^ 63) with x by lia.
    rewrite (Z.div_small x) by lia.
    rewrite (Z.mod_small (x * 2)) by lia.
    change (0 mod 2 ^ 64) with 0. rewrite Z.lxor_0_r.
    rewrite Z.mod_small by lia.
    destruct (Z.leb_spec 0 x); lia.
  - replace ((x + 2 ^ 63) mod 2 ^ 64) with (x - 2 ^ 63)
      by (apply (Z.mod_unique_pos _ _ 1); lia).
    replace (x - 2 ^ 63 - 2 ^ 63) with (x - 2 ^ 64) by lia.
    replace ((x - 2 ^ 64) / 2 ^ 63) with (-1)
      by (apply (Z.div_unique_pos _ _ _ (x - 2 ^ 63)); lia).
    replace ((x * 2) mod 2 ^ 64) with (2 * x - 2 ^ 64)
      by (apply (Z.mod_unique_pos _ _ 1); lia).
    change (-1 mod 2 ^ 64) with (2 ^ 64 - 1).
    rewrite lxor_ones by lia.
    rewrite Z.mod_small by lia.
    destruct (Z.leb_spec 0 (x - 2 ^ 64)); lia.
Qed.

(** Minus one, that is all 64 bits set, has the code 1 and takes one
    byte. *)
Lemma sozRules_zigzag_witness : Rulespb.sozRules (2 ^ 64 - 1) = 1.
Proof.
  rewrite sozRules_zigzag by lia. reflexivity.
Defined.

(** ** Skipping a field: the loops unfolded *)

Lemma skipVarint_unfold (dAtA : list Z) (iNdEx shift : Z) :
  Rulespb.skipVarint dAtA iNdEx shift
  = if shift >=? 64 then Ok (inl Rulespb.ErrIntOverflowRules)
    else if iNdEx >=? GoInt.len dAtA then Ok (inl Rulespb.ErrUnexpectedEOF)
    else
      match index dAtA (GoInt.sub (GoInt.incr iNdEx) 1) with
      | Panic p => Panic p
      | Ok b =>
          if b <? 128 then Ok (inr (GoInt.incr iNdEx))
          else Rulespb.skipVarint dAtA (GoInt.incr iNdEx) (shift + 7)
      end.
Proof.
  remember (Rulespb.skipVarint dAtA (GoInt.incr iNdEx) (shift + 7)) as rest
    eqn:Hrest.
  simp skipVarint.
  destruct (Z_ge_dec shift 64); cbn;
    destruct (Z.geb_spec shift 64); try lia; [reflexivity |].
  destruct (Z_ge_dec iNdEx (GoInt.len dAtA)); cbn;
    destruct (Z.geb_spec iNdEx (GoInt.len dAtA)); try lia; [reflexivity |].
  destruct (index dAtA _) as [b | p]; cbn; [| reflexivity].
  destruct (Z_lt_dec b 128); cbn; destruct (Z.ltb_spec b 128); try lia;
    [reflexivity |].
  subst rest. reflexivity.
Qed.

Lemma decodeLength_unfold (dAtA : list Z) (iNdEx shift length_ : Z) :
  Rulespb.decodeLength dAtA iNdEx shift length_
  = if shift >=? 64 then Ok (inl Rulespb.ErrIntOverflowRules)
    else if iNdEx >=? GoInt.len dAtA then Ok (inl Rulespb.ErrUnexpectedEOF)
    else
      match index dAtA iNdEx with
      | Panic p => Panic p
      | Ok b =>
          let length' :=
            Z.lor length_ (GoInt.wrap (Z.shiftl (Z.land b 127) shift)) in
          if b <? 128 then Ok (inr (length', GoInt.incr iNdEx))
          else Rulespb.decodeLength dAtA (GoInt.incr iNdEx) (shift + 7) length'
      end.
Proof.
  simp decodeLength.
  destruct (Z_ge_dec shift 64); cbn;
    destruct (Z.geb_spec shift 64); try lia; [reflexivity |].
  destruct (Z_ge_dec iNdEx (GoInt.len dAtA)); cbn;
    destruct (Z.geb_spec iNdEx (GoInt.len dAtA)); try lia; [reflexivity |].
  destruct (index dAtA iNdEx) as [b | p]; cbn; [| reflexivity].
  destruct (Z_lt_dec b 128); cbn; destruct (Z.ltb_spec b 128); try lia;
    reflexivity.
Qed.

(** ** Skipping a field: the three loops read the same bytes *)

(** The loop over a varint field stops where the loop over a tag stops,
    and fails as it fails. *)
Lemma skipVarint_decodeVarint (dAtA : list Z) (iNdEx shift wire : Z) :
  0 <= iNdEx -> GoInt.len dAtA <= GoInt.max_int ->
  Rulespb.skipVarint dAtA iNdEx shift
  = match Rulespb.decodeVarint dAtA iNdEx shift wire with
    | Ok (inr (_, next)) => Ok (inr next)
    | Ok (inl err) => Ok (inl err)
    | Panic p => Panic p
    end.
Proof.
  intros Hi Hmax.
  remember (Z.to_nat (71 - shift)) as m eqn:Hm.
  revert iNdEx shift wire Hi Hm.
  induction m as [m IH] using lt_wf_ind.
  intros iNdEx shift wire Hi Hm.
  rewrite skipVarint_unfold, decodeVarint_unfold.
  destruct (Z.geb_spec shift 64) as [Hge | Hlt]; [reflexivity |].
  destruct (Z.geb_spec iNdEx (GoInt.len dAtA)) as [Hge | Hin]; [reflexivity |].
  rewrite incr_in_range
    by (unfold GoInt.min_int; unfold GoInt.max_int in *; lia).
  rewrite sub_in_range
    by (unfold GoInt.in_range, GoInt.min_int; unfold GoInt.max_int in *; lia).
  replace (iNdEx + 1 - 1) with iNdEx by lia.
  destruct (index dAtA iNdEx) as [b | p]; [| reflexivity].
  cbn zeta. destruct (b <? 128); [reflexivity |].
  apply (IH (Z.to_nat (71 - (shift + 7)))); lia.
Qed.

(** The loop over a length reads the bytes the loop over a tag reads. *)
Lemma decodeLength_index (dAtA : list Z) (iNdEx shift length_ wire : Z) :
  match Rulespb.decodeLength dAtA iNdEx shift length_,
        Rulespb.decodeVarint dAtA iNdEx shift wire with
  | Ok (inr (_, next)), Ok (inr (_, next')) => next = next'
  | Ok (inl err), Ok (inl err') => err = err'
  | Panic p, Panic p' => p = p'
  | _, _ => False
  end.
Proof.
  remember (Z.to_nat (71 - shift)) as m eqn:Hm.
  revert iNdEx shift length_ wire Hm.
  induction m as [m IH] using lt_wf_ind.
  intros iNdEx shift length_ wire Hm.
  rewrite decodeLength_unfold, decodeVarint_unfold.
  destruct (Z.geb_spec shift 64) as [Hge | Hlt]; [reflexivity |].
  destruct (Z.geb_spec iNdEx (GoInt.len dAtA)) as [Hge | Hin]; [reflexivity |].
  destruct (index dAtA iNdEx) as [b | p]; [| reflexivity].
  cbn zeta. destruct (b <? 128); [reflexivity |].
  apply (IH (Z.to_nat (71 - (shift + 7)))); lia.
Qed.

Lemma lor_lt_pow2 (a b n : Z) :
  0 <= a -> 0 <= b -> 0 <= n ->
  (Z.lor a b < 2 ^ n <-> a < 2 ^ n /\ b < 2 ^ n).
Proof.
  intros Ha Hb Hn.
  pose proof (Z.pow_pos_nonneg 2 n ltac:(lia) Hn) as Hp.
  destruct (Z.eq_dec a 0) as [-> | Ha0]; [rewrite Z.lor_0_l; lia |].
  destruct (Z.eq_dec b 0) as [-> | Hb0]; [rewrite Z.lor_0_r; lia |].
  assert (Hl : 0 < Z.lor a b).
  { pose proof (proj2 (Z.lor_nonneg a b) (conj Ha Hb)).
    destruct (Z.eq_dec (Z.lor a b) 0) as [H0 | H0]; [| lia].
    apply Z.lor_eq_0_iff in H0. lia. }
  rewrite (Z.log2_lt_pow2 (Z.lor a b)), (Z.log2_lt_pow2 a),
    (Z.log2_lt_pow2 b) by lia.
  rewrite Z.log2_lor by lia. lia.
Qed.

Lemma wrap_uint64 (t : Z) :
  t mod 2 ^ 64 < 2 ^ 63 -> GoInt.wrap t = t mod 2 ^ 64.
Proof.
  intros Ht. unfold GoInt.wrap.
  pose proof (Z.mod_pos_bound t (2 ^ 64) ltac:(lia)) as Hm.
  rewrite <- Z.add_mod_idemp_l by lia.
  rewrite Z.mod_small by lia. lia.
Qed.

(** A value that fits in 63 bits is read by the loop over a length as
    the loop over a tag reads it. *)
Lemma decodeLength_decodeVarint (dAtA : list Z) (iNdEx shift wire : Z) :
  0 <= wire ->
  match Rulespb.decodeVarint dAtA iNdEx shift wire with
  | Ok (inr (v, next)) =>
      0 <= v
      /\ (v < 2 ^ 63 ->
          wire < 2 ^ 63
          /\ Rulespb.decodeLength dAtA iNdEx shift wire = Ok (inr (v, next)))
  | _ => True
  end.
Proof.
  remember (Z.to_nat (71 - shift)) as m eqn:Hm.
  revert iNdEx shift wire Hm.
  induction m as [m IH] using lt_wf_ind.
  intros iNdEx shift wire Hm Hw.
  rewrite decodeLength_unfold, decodeVarint_unfold.
  destruct (Z.geb_spec shift 64) as [Hge | Hlt]; [exact I |].
  destruct (Z.geb_spec iNdEx (GoInt.len dAtA)) as [Hge | Hin]; [exact I |].
  destruct (index dAtA iNdEx) as [b | p]; [| exact I].
  cbn zeta.
  set (t := Z.shiftl (Z.land b 127) shift).
  pose proof (Z.mod_pos_bound t (2 ^ 64) ltac:(lia)) as Ht.
  assert (Hnn : 0 <= Z.lor wire (Rulespb.uint64 t))
    by (apply Z.lor_nonneg; unfold Rulespb.uint64; lia).
  assert (Hstep : Z.lor wire (Rulespb.uint64 t) < 2 ^ 63 ->
            wire < 2 ^ 63
            /\ Z.lor wire (GoInt.wrap t) = Z.lor wire (Rulespb.uint64 t)).
  { intros Hlt63. unfold Rulespb.uint64 in *.
    apply lor_lt_pow2 in Hlt63; [| lia | lia | lia].
    rewrite wrap_uint64 by lia. split; [lia | reflexivity]. }
  destruct (b <? 128).
  - split; [exact Hnn |]. intros Hv.
    destruct (Hstep Hv) as [Hw63 ->]. split; [exact Hw63 | reflexivity].
  - specialize (IH (Z.to_nat (71 - (shift + 7))) ltac:(lia) (GoInt.incr iNdEx)
                  (shift + 7) (Z.lor wire (Rulespb.uint64 t)) eq_refl Hnn).
    destruct (Rulespb.decodeVarint dAtA (GoInt.incr iNdEx) (shift + 7) _)
      as [[e | [v next]] | p]; [exact I | | exact I].
    destruct IH as [Hv0 IH]. split; [exact Hv0 |]. intros Hv.
    destruct (IH Hv) as [Hw1 Hd].
    destruct (Hstep Hw1) as [Hw63 ->]. split; [exact Hw63 | exact Hd].
Qed.

(** ** Skipping a field: signed arithmetic *)

Lemma wrap_bounds (z : Z) : GoInt.in_range (GoInt.wrap z).
Proof.
  unfold GoInt.in_range, GoInt.wrap, GoInt.min_int, GoInt.max_int.
  pose proof (Z.mod_pos_bound (z + 2 ^ 63) (2 ^ 64) ltac:(lia)). lia.
Qed.

Lemma in_range_div (x : Z) :
  GoInt.in_range x <-> x / 2 ^ 63 = 0 \/ x / 2 ^ 63 = -1.
Proof.
  unfold GoInt.in_range, GoInt.min_int, GoInt.max_int.
  pose proof (Z.div_mod x (2 ^ 63) ltac:(lia)).
  pose proof (Z.mod_pos_bound x (2 ^ 63) ltac:(lia)). lia.
Qed.

Lemma lor_in_range (a b : Z) :
  GoInt.in_range a -> GoInt.in_range b -> GoInt.in_range (Z.lor a b).
Proof.
  rewrite !in_range_div, <- !Z.shiftr_div_pow2, Z.shiftr_lor by lia.
  intros [-> | ->] [-> | ->]; cbn; tauto.
Qed.

Lemma decodeLength_in_range (dAtA : list Z) (iNdEx shift length_ : Z) :
  GoInt.in_range length_ ->
  match Rulespb.decodeLength dAtA iNdEx shift length_ with
  | Ok (inr (v, _)) => GoInt.in_range v
  | _ => True
  end.
Proof.
  remember (Z.to_nat (71 - shift)) as m eqn:Hm.
  revert iNdEx shift length_ Hm.
  induction m as [m IH] using lt_wf_ind.
  intros iNdEx shift length_ Hm Hr.
  rewrite decodeLength_unfold.
  destruct (Z.geb_spec shift 64) as [Hge | Hlt]; [exact I |].
  destruct (Z.geb_spec iNdEx (GoInt.len dAtA)) as [Hge | Hin]; [exact I |].
  destruct (index dAtA iNdEx) as [b | p]; [| exact I].
  cbn zeta.
  pose proof (lor_in_range _ _ Hr
                (wrap_bounds (Z.shiftl (Z.land b 127) shift))) as Hr'.
  destruct (b <? 128); [exact Hr' |].
  apply (IH (Z.to_nat (71 - (shift + 7)))); [lia | reflexivity | exact Hr'].
Qed.

Lemma add_cases (a b : Z) :
  0 <= a <= GoInt.max_int -> 0 <= b <= GoInt.max_int ->
  GoInt.add a b < 0 \/ (GoInt.add a b = a + b /\ a + b <= GoInt.max_int).
Proof.
  unfold GoInt.add, GoInt.wrap, GoInt.max_int. intros Ha Hb.
  destruct (Z_le_gt_dec (a + b) (2 ^ 63 - 1)) as [Hle | Hgt].
  - right. rewrite Z.mod_small by lia. lia.
  - left. replace ((a + b + 2 ^ 63) mod 2 ^ 64) with (a + b - 2 ^ 63)
      by (apply (Z.mod_unique_pos _ _ 1); lia).
    lia.
Qed.

(** ** Skipping a field: the call returns *)

Lemma skipGroup_enough (fuel : nat) :
  forall (skip : list Z -> option Rulespb.skipped) (dAtA : list Z) (iNdEx : Z),
    (forall d, d <> [] -> (length d < length dAtA)%nat ->
               Rulespb.returns (skip d)) ->
    GoInt.len dAtA <= GoInt.max_int ->
    1 <= iNdEx <= GoInt.max_int ->
    (Z.to_nat (GoInt.len dAtA - iNdEx) < fuel)%nat ->
    Rulespb.returns (Rulespb.skipGroup fuel skip dAtA iNdEx).
Proof.
  induction fuel as [|fuel IH]; intros skip dAtA iNdEx Hskip Hmax Hi Hfuel;
    [lia |].
  cbn [Rulespb.skipGroup].
  pose proof (decodeVarint_cases dAtA iNdEx 0 0 ltac:(lia) ltac:(lia) Hmax)
    as Hc.
  destruct (Rulespb.decodeVarint dAtA iNdEx 0 0) as [[e | [w next]] | p];
    [exact I | | contradiction].
  destruct Hc as [Hnext _]. cbn zeta.
  destruct (Z.land w 7 =? 4); [cbn; lia |].
  unfold Rulespb.sliceFrom.
  replace ((0 <=? iNdEx) && (iNdEx <=? GoInt.len dAtA)) with true
    by (symmetry; apply andb_true_iff; split; lia).
  assert (Hlen : length (drop (Z.to_nat iNdEx) dAtA)
                 = (length dAtA - Z.to_nat iNdEx)%nat) by apply length_drop.
  unfold GoInt.len in *.
  assert (Hrest : Rulespb.returns (skip (drop (Z.to_nat iNdEx) dAtA))).
  { apply Hskip; [| lia]. intros Hnil. rewrite Hnil in Hlen. cbn in Hlen. lia. }
  destruct (skip (drop (Z.to_nat iNdEx) dAtA)) as [[n | e | | p] |];
    cbn [Rulespb.returns] in Hrest; try contradiction; [| exact I].
  destruct (add_cases iNdEx n ltac:(lia) ltac:(lia)) as [Hneg | [Heq Hle]].
  - destruct (Z.ltb_spec (GoInt.add iNdEx n) 0); [exact I | lia].
  - rewrite Heq. destruct (Z.ltb_spec (iNdEx + n) 0) as [Hlt | _]; [lia |].
    apply IH; [exact Hskip | exact Hmax | lia | lia].
Qed.

Lemma skipRulesWithin_enough (fuel : nat) :
  forall dAtA : list Z,
    dAtA <> [] ->
    GoInt.len dAtA + 8 <= GoInt.max_int ->
    (length dAtA < fuel)%nat ->
    Rulespb.returns (Rulespb.skipRulesWithin fuel dAtA).
Proof.
  induction fuel as [|fuel IH]; intros dAtA Hne Hmax Hfuel; [lia |].
  cbn [Rulespb.skipRulesWithin]. cbn zeta.
  assert (Hpos : 0 < GoInt.len dAtA).
  { unfold GoInt.len. destruct dAtA; [contradiction | cbn; lia]. }
  destruct (Z.ltb_spec 0 (GoInt.len dAtA)) as [_ | Hle]; [| lia].
  pose proof (decodeVarint_cases dAtA 0 0 0 ltac:(lia) ltac:(lia) ltac:(lia))
    as Hc.
  destruct (Rulespb.decodeVarint dAtA 0 0 0) as [[e | [w iNdEx]] | p];
    [exact I | | contradiction].
  destruct Hc as [Hi _].
  destruct (Z.land w 7 =? 0).
  { rewrite (skipVarint_decodeVarint dAtA iNdEx 0 0) by lia.
    pose proof (decodeVarint_cases dAtA iNdEx 0 0 ltac:(lia) ltac:(lia)
                  ltac:(lia)) as Hc.
    destruct (Rulespb.decodeVarint dAtA iNdEx 0 0) as [[e | [w' next]] | p];
      [exact I | cbn; lia | contradiction]. }
  destruct (Z.land w 7 =? 1).
  { cbn. unfold GoInt.add.
    rewrite wrap_in_range
      by (unfold GoInt.in_range, GoInt.min_int; unfold GoInt.max_int in *; lia).
    lia. }
  destruct (Z.land w 7 =? 2).
  { pose proof (decodeLength_index dAtA iNdEx 0 0 0) as Hidx.
    pose proof (decodeLength_in_range dAtA iNdEx 0 0) as Hrange.
    pose proof (decodeVarint_cases dAtA iNdEx 0 0 ltac:(lia) ltac:(lia)
                  ltac:(lia)) as Hc.
    destruct (Rulespb.decodeLength dAtA iNdEx 0 0) as [[e | [n next]] | p],
      (Rulespb.decodeVarint dAtA iNdEx 0 0) as [[e' | [w' next']] | p'];
      try contradiction; [exact I |].
    subst next'.
    specialize (Hrange ltac:(unfold GoInt.in_range, GoInt.min_int,
                               GoInt.max_int; lia)).
    destruct (Z.ltb_spec n 0) as [_ | Hn]; [exact I |].
    unfold GoInt.in_range in Hrange.
    destruct (add_cases next n ltac:(lia) ltac:(lia)) as [Hneg | [Heq Hle]].
    - destruct (Z.ltb_spec (GoInt.add next n) 0); [exact I | lia].
    - rewrite Heq. destruct (Z.ltb_spec (next + n) 0); [exact I | cbn; lia]. }
  destruct (Z.land w 7 =? 3).
  { apply skipGroup_enough; [| lia | lia | unfold GoInt.len in *; lia].
    intros d Hd Hshort. apply IH; [exact Hd | | lia].
    unfold GoInt.len in *. lia. }
  destruct (Z.land w 7 =? 4); [cbn; lia |].
  destruct (Z.land w 7 =? 5).
  { cbn. unfold GoInt.add.
    rewrite wrap_in_range
      by (unfold GoInt.in_range, GoInt.min_int; unfold GoInt.max_int in *; lia).
    lia. }
  exact I.
Qed.

(** ** Skipping a field: the bound does not matter *)

Lemma skipGroup_more_fuel (fuel : nat) :
  forall (fuel' : nat) (skip skip' : list Z -> option Rulespb.skipped)
         (dAtA : list Z) (iNdEx : Z) (r : Rulespb.skipped),
    (forall d r, skip d = Some r -> skip' d = Some r) ->
    (fuel <= fuel')%nat ->
    Rulespb.skipGroup fuel skip dAtA iNdEx = Some r ->
    Rulespb.skipGroup fuel' skip' dAtA iNdEx = Some r.
Proof.
  induction fuel as [|fuel IH];
    intros fuel' skip skip' dAtA iNdEx r Hskip Hle Hr; [discriminate Hr |].
  destruct fuel' as [|fuel']; [lia |].
  cbn [Rulespb.skipGroup] in *.
  destruct (Rulespb.decodeVarint dAtA iNdEx 0 0) as [[e | [w next]] | p];
    [exact Hr | | exact Hr].
  cbn zeta in *.
  destruct (Z.land w 7 =? 4); [exact Hr |].
  destruct (Rulespb.sliceFrom dAtA iNdEx) as [rest | p]; [| exact Hr].
  destruct (skip rest) as [[n | e | | p] |] eqn:Hrest;
    [| | | | discriminate Hr];
    rewrite (Hskip _ _ Hrest); [| exact Hr | exact Hr | exact Hr].
  destruct (GoInt.add iNdEx n <? 0); [exact Hr |].
  apply (IH fuel' skip skip'); [exact Hskip | lia | exact Hr].
Qed.

Lemma skipRulesWithin_more_fuel (fuel : nat) :
  forall (fuel' : nat) (dAtA : list Z) (r : Rulespb.skipped),
    (fuel <= fuel')%nat ->
    Rulespb.skipRulesWithin fuel dAtA = Some r ->
    Rulespb.skipRulesWithin fuel' dAtA = Some r.
Proof.
  induction fuel as [|fuel IH]; intros fuel' dAtA r Hle Hr;
    [discriminate Hr |].
  destruct fuel' as [|fuel']; [lia |].
  cbn [Rulespb.skipRulesWithin] in *. cbn zeta in *.
  destruct (0 <? GoInt.len dAtA); [| exact Hr].
  destruct (Rulespb.decodeVarint dAtA 0 0 0) as [[e | [w iNdEx]] | p];
    [exact Hr | | exact Hr].
  destruct (Z.land w 7 =? 0); [exact Hr |].
  destruct (Z.land w 7 =? 1); [exact Hr |].
  destruct (Z.land w 7 =? 2); [exact Hr |].
  destruct (Z.land w 7 =? 3); [| exact Hr].
  apply (skipGroup_more_fuel fuel fuel' (Rulespb.skipRulesWithin fuel));
    [| lia | exact Hr].
  intros d r' Hd. apply (IH fuel'); [lia | exact Hd].
Qed.

(** [skipRules] returns on every input but the empty one, on which it
    reaches its final panic: neither the recursion into groups nor the
    loop over a group goes on for ever, no byte is read outside the
    input, and a call that gives no error has skipped at least one
    byte.  The bound of the model is never reached, and a larger one
    gives the same result. *)
Theorem skipRules_returns (dAtA : list Z) :
  GoInt.len dAtA + 8 <= GoInt.max_int ->
  (forall fuel, (length dAtA < fuel)%nat ->
                Rulespb.skipRulesWithin fuel dAtA = Rulespb.skipRules dAtA)
  /\ match dAtA with
     | [] => Rulespb.skipRules dAtA = Some Rulespb.Unreachable
     | _ => Rulespb.returns (Rulespb.skipRules dAtA)
     end.
Proof.
  intros Hmax.
  assert (Hsome : exists r, Rulespb.skipRules dAtA = Some r
                            /\ match dAtA with
                               | [] => r = Rulespb.Unreachable
                               | _ => Rulespb.returns (Some r)
                               end).
  { destruct dAtA as [|b dAtA].
    - exists Rulespb.Unreachable. split; reflexivity.
    - pose proof (skipRulesWithin_enough (S (length (b :: dAtA))) (b :: dAtA)
                    ltac:(discriminate) Hmax ltac:(lia)) as Hret.
      unfold Rulespb.skipRules.
      destruct (Rulespb.skipRulesWithin _ _) as [r |]; [| contradiction].
      exists r. split; [reflexivity | exact Hret]. }
  destruct Hsome as (r & Hr & Hprop). split.
  - intros fuel Hfuel. rewrite Hr.
    apply (skipRulesWithin_more_fuel (S (length dAtA))); [lia | exact Hr].
  - rewrite Hr. destruct dAtA; [rewrite Hprop; reflexivity | exact Hprop].
Qed.

(** A group that holds a varint field and a field of one byte, with a
    byte behind it: the seven bytes of the group are skipped. *)
Lemma skipRules_returns_witness :
  (forall fuel, (8 < fuel)%nat ->
     Rulespb.skipRulesWithin fuel [11; 8; 1; 18; 1; 7; 12; 99]
     = Rulespb.skipRules [11; 8; 1; 18; 1; 7; 12; 99])
  /\ Rulespb.returns (Rulespb.skipRules [11; 8; 1; 18; 1; 7; 12; 99]).
Proof.
  apply (skipRules_returns [11; 8; 1; 18; 1; 7; 12; 99]).
  vm_compute. discriminate.
Defined.

(** ** Skipping a field: fields as they are written *)

Lemma varint_length (v : Z) :
  0 <= v < 2 ^ 64 -> GoInt.len (Rulespb.varint v) = Rulespb.sovRules v.
Proof.
  intros Hv. destruct (sovRules_bounds v Hv) as ([H1 _] & _).
  unfold GoInt.len, Rulespb.varint. rewrite groups_length. lia.
Qed.

Lemma decodeVarint_varint (pre post : list Z) (v : Z) :
  0 <= v < 2 ^ 64 ->
  GoInt.len (pre ++ Rulespb.varint v ++ post) <= GoInt.max_int ->
  Rulespb.decodeVarint (pre ++ Rulespb.varint v ++ post) (GoInt.len pre) 0 0
  = Ok (inr (v, GoInt.len pre + Rulespb.sovRules v)).
Proof.
  intros Hv Hmax. destruct (sovRules_bounds v Hv) as ([H1 H10] & Hup & _).
  unfold Rulespb.varint in *.
  set (n := Z.to_nat (Rulespb.sovRules v - 1)) in *.
  rewrite (decode_groups n v pre post 0 0).
  - do 3 f_equal; [lia | subst n; lia].
  - lia.
  - subst n. lia.
  - replace (Z.of_nat n + 1) with (Rulespb.sovRules v) by (subst n; lia). lia.
  - lia.
  - change (2 ^ 0) with 1. lia.
  - exact Hmax.
Qed.

(** A varint field as it is written, the tag as a varint and then the
    value, is skipped whole: [skipRules] returns the size of the tag
    plus the size of the value, whatever follows the field. *)
Lemma skipRules_varint_field (tag v : Z) (rest : list Z) :
  0 <= tag < 2 ^ 64 -> Z.land tag 7 = 0 ->
  0 <= v < 2 ^ 64 ->
  GoInt.len (Rulespb.varint tag ++ Rulespb.varint v ++ rest) <= GoInt.max_int ->
  Rulespb.skipRules (Rulespb.varint tag ++ Rulespb.varint v ++ rest)
  = Some (Rulespb.Skipped (Rulespb.sovRules tag + Rulespb.sovRules v)).
Proof.
  intros Htag Hwt Hv Hmax.
  pose proof (varint_length tag Htag) as Hlt.
  destruct (sovRules_bounds tag Htag) as ([H1 _] & _).
  set (dAtA := Rulespb.varint tag ++ Rulespb.varint v ++ rest) in *.
  assert (Hpos : 0 < GoInt.len dAtA).
  { subst dAtA. unfold GoInt.len in *. rewrite length_app. lia. }
  unfold Rulespb.skipRules. cbn [Rulespb.skipRulesWithin]. cbn zeta.
  destruct (Z.ltb_spec 0 (GoInt.len dAtA)) as [_ | Hle]; [| lia].
  pose proof (decodeVarint_varint [] (Rulespb.varint v ++ rest) tag Htag Hmax)
    as Htagread.
  cbn [app] in Htagread. change (GoInt.len (@nil Z)) with 0 in Htagread.
  fold dAtA in Htagread. rewrite Htagread, Hwt. cbn [Z.eqb].
  rewrite (skipVarint_decodeVarint dAtA (0 + Rulespb.sovRules tag) 0 0)
    by lia.
  rewrite Z.add_0_l, <- Hlt. subst dAtA.
  rewrite decodeVarint_varint by assumption. reflexivity.
Qed.

(** The length-delimited field, for the proofs below. *)
Lemma skipRules_length_delimited (tag n : Z) (rest : list Z) :
  0 <= tag < 2 ^ 64 -> Z.land tag 7 = 2 ->
  0 <= n ->
  Rulespb.sovRules tag + Rulespb.sovRules n + n <= GoInt.max_int ->
  GoInt.len (Rulespb.varint tag ++ Rulespb.varint n ++ rest) <= GoInt.max_int ->
  Rulespb.skipRules (Rulespb.varint tag ++ Rulespb.varint n ++ rest)
  = Some (Rulespb.Skipped
            (Rulespb.sovRules tag + Rulespb.sovRules n + n)).
Proof.
  intros Htag Hwt Hn0 Hsum Hmax.
  pose proof (varint_length tag Htag) as Hlt.
  destruct (sovRules_bounds tag Htag) as ([H1 _] & _).
  assert (Hn : 0 <= n < 2 ^ 64).
  { assert (0 <= Rulespb.sovRules n).
    { unfold Rulespb.sovRules. rewrite Len64_lor_1 by lia.
      pose proof (Z.log2_nonneg n). apply Z.div_pos; lia. }
    unfold GoInt.max_int in Hsum. lia. }
  destruct (sovRules_bounds n Hn) as ([Hn1 _] & _).
  set (dAtA := Rulespb.varint tag ++ Rulespb.varint n ++ rest) in *.
  assert (Hpos : 0 < GoInt.len dAtA).
  { subst dAtA. unfold GoInt.len in *. rewrite length_app. lia. }
  unfold Rulespb.skipRules. cbn [Rulespb.skipRulesWithin]. cbn zeta.
  destruct (Z.ltb_spec 0 (GoInt.len dAtA)) as [_ | Hle]; [| lia].
  pose proof (decodeVarint_varint [] (Rulespb.varint n ++ rest) tag Htag Hmax)
    as Htagread.
  cbn [app] in Htagread. change (GoInt.len (@nil Z)) with 0 in Htagread.
  fold dAtA in Htagread. rewrite Htagread, Hwt. cbn [Z.eqb Pos.eqb].
  rewrite Z.add_0_l.
  assert (Hread : Rulespb.decodeVarint dAtA (Rulespb.sovRules tag) 0 0
                  = Ok (inr (n, Rulespb.sovRules tag + Rulespb.sovRules n))).
  { rewrite <- Hlt. subst dAtA. apply decodeVarint_varint; assumption. }
  pose proof (decodeLength_decodeVarint dAtA (Rulespb.sovRules tag) 0 0
                ltac:(lia)) as Hlen.
  rewrite Hread in Hlen. destruct Hlen as [_ Hlen].
  destruct Hlen as [_ Hlen]; [unfold GoInt.max_int in Hsum; lia |].
  rewrite Hlen.
  destruct (Z.ltb_spec n 0) as [Hneg | _]; [lia |].
  unfold GoInt.add.
  rewrite wrap_in_range
    by (unfold GoInt.in_range, GoInt.min_int; unfold GoInt.max_int in *; lia).
  destruct (Z.ltb_spec (Rulespb.sovRules tag + Rulespb.sovRules n + n) 0)
    as [Hneg | _]; [lia | reflexivity].
Qed.

(** A length-delimited field, the tag and the length [n] as varints:
    [skipRules] returns the size of the tag and of the length plus [n].
    It does not look at what follows the length: the result is the same
    when fewer than [n] bytes are there, and is then past the end of the
    input. *)
Theorem skipRules_bytes_field (tag n : Z) (rest : list Z) :
  0 <= tag < 2 ^ 64 -> Z.land tag 7 = 2 ->
  0 <= n ->
  Rulespb.sovRules tag + Rulespb.sovRules n + n <= GoInt.max_int ->
  GoInt.len (Rulespb.varint tag ++ Rulespb.varint n ++ rest) <= GoInt.max_int ->
  Rulespb.skipRules (Rulespb.varint tag ++ Rulespb.varint n ++ rest)
  = Some (Rulespb.Skipped
            (Rulespb.sovRules tag + Rulespb.sovRules n + n)).
Proof. exact (skipRules_length_delimited tag n rest). Qed.

(** Field 1 announces three bytes and one follows: [skipRules] returns
    five for an input of three bytes. *)
Lemma skipRules_bytes_field_witness :
  Rulespb.skipRules (Rulespb.varint 10 ++ Rulespb.varint 3 ++ [1])
  = Some (Rulespb.Skipped (Rulespb.sovRules 10 + Rulespb.sovRules 3 + 3)).
Proof.
  apply skipRules_bytes_field.
  - lia.
  - reflexivity.
  - lia.
  - vm_compute. discriminate.
  - vm_compute. discriminate.
Defined.

(** ** Skipping a field: well-formed fields *)

Lemma field_nested_ind (P : Rulespb.field -> Prop) :
  (forall tag v, P (Rulespb.Varint tag v)) ->
  (forall tag payload, P (Rulespb.Fixed64 tag payload)) ->
  (forall tag payload, P (Rulespb.LengthDelimited tag payload)) ->
  (forall startTag fields endTag,
      Forall P fields -> P (Rulespb.Group startTag fields endTag)) ->
  (forall tag payload, P (Rulespb.Fixed32 tag payload)) ->
  forall f, P f.
Proof.
  intros Hv H64 Hld Hg H32. fix IH 1.
  intros [tag v | tag payload | tag payload | startTag fields endTag
         | tag payload].
  - apply Hv.
  - apply H64.
  - apply Hld.
  - apply Hg. induction fields as [|f fields IHfields]; constructor;
      [apply IH | exact IHfields].
  - apply H32.
Qed.

Lemma isTag_spec (tag wireType : Z) :
  Rulespb.isTag tag wireType = true ->
  0 <= tag < 2 ^ 64 /\ Z.land tag 7 = wireType.
Proof.
  unfold Rulespb.isTag. rewrite !andb_true_iff. intros [[H0 H1] H2].
  apply Z.leb_le in H0. apply Z.ltb_lt in H1. apply Z.eqb_eq in H2. lia.
Qed.

(** A well-formed field starts with its tag, which is not an end-group
    tag. *)
Lemma encode_starts_with_tag (f : Rulespb.field) :
  Rulespb.wellFormed f = true ->
  exists tag body,
    Rulespb.encode f = Rulespb.varint tag ++ body
    /\ 0 <= tag < 2 ^ 64 /\ Z.land tag 7 <> 4.
Proof.
  destruct f as [tag v | tag payload | tag payload | startTag fields endTag
                | tag payload]; cbn [Rulespb.wellFormed Rulespb.encode];
    rewrite ?andb_true_iff; intros Hwf.
  - destruct Hwf as [[Ht _] _]. apply isTag_spec in Ht.
    exists tag, (Rulespb.varint v). split; [reflexivity | lia].
  - destruct Hwf as [Ht _]. apply isTag_spec in Ht.
    exists tag, payload. split; [reflexivity | lia].
  - apply isTag_spec in Hwf.
    exists tag, (Rulespb.varint (GoInt.len payload) ++ payload).
    split; [reflexivity | lia].
  - destruct Hwf as [[Ht _] _]. apply isTag_spec in Ht.
    exists startTag,
      (concat (map Rulespb.encode fields) ++ Rulespb.varint endTag).
    split; [reflexivity | lia].
  - destruct Hwf as [Ht _]. apply isTag_spec in Ht.
    exists tag, payload. split; [reflexivity | lia].
Qed.

Lemma encode_fields_length (fields : list Rulespb.field) :
  forallb Rulespb.wellFormed fields = true ->
  (length fields <= length (concat (map Rulespb.encode fields)))%nat.
Proof.
  induction fields as [|f fields IH]; cbn [forallb map concat length];
    [lia |].
  rewrite andb_true_iff. intros [Hf Hfs].
  destruct (encode_starts_with_tag f Hf) as (tag & body & -> & Htag & _).
  pose proof (varint_length tag Htag) as Hl.
  destruct (sovRules_bounds tag Htag) as ([H1 _] & _).
  unfold GoInt.len in Hl. specialize (IH Hfs).
  rewrite !length_app. lia.
Qed.

(** What [skipRules] does once it has read the tag. *)
Lemma skipRules_reads_tag (tag : Z) (body : list Z) :
  0 <= tag < 2 ^ 64 ->
  GoInt.len (Rulespb.varint tag ++ body) <= GoInt.max_int ->
  (0 <? GoInt.len (Rulespb.varint tag ++ body)) = true
  /\ Rulespb.decodeVarint (Rulespb.varint tag ++ body) 0 0 0
     = Ok (inr (tag, Rulespb.sovRules tag)).
Proof.
  intros Htag Hmax.
  pose proof (varint_length tag Htag) as Hlt.
  destruct (sovRules_bounds tag Htag) as ([H1 _] & _).
  split.
  - apply Z.ltb_lt. unfold GoInt.len in *. rewrite length_app. lia.
  - pose proof (decodeVarint_varint [] body tag Htag Hmax) as Hread.
    cbn [app] in Hread. change (GoInt.len (@nil Z)) with 0 in Hread.
    rewrite Z.add_0_l in Hread. exact Hread.
Qed.

Lemma skipRules_fixed (tag width : Z) (payload rest : list Z) :
  0 <= tag < 2 ^ 64 ->
  (Z.land tag 7 = 1 /\ width = 8) \/ (Z.land tag 7 = 5 /\ width = 4) ->
  GoInt.len payload = width ->
  GoInt.len (Rulespb.varint tag ++ payload ++ rest) <= GoInt.max_int ->
  Rulespb.skipRules (Rulespb.varint tag ++ payload ++ rest)
  = Some (Rulespb.Skipped (GoInt.len (Rulespb.varint tag ++ payload))).
Proof.
  intros Htag Hwt Hpay Hmax.
  destruct (skipRules_reads_tag tag (payload ++ rest) Htag Hmax)
    as [Hpos Hread].
  pose proof (varint_length tag Htag) as Hlt.
  destruct (sovRules_bounds tag Htag) as ([H1 H10] & _).
  unfold Rulespb.skipRules. cbn [Rulespb.skipRulesWithin]. cbn zeta.
  rewrite Hpos, Hread.
  assert (Hlen : GoInt.len (Rulespb.varint tag ++ payload)
                 = Rulespb.sovRules tag + width).
  { unfold GoInt.len in *. rewrite length_app. lia. }
  assert (Hadd : GoInt.add (Rulespb.sovRules tag) width
                 = Rulespb.sovRules tag + width).
  { unfold GoInt.add. apply wrap_in_range.
    unfold GoInt.in_range, GoInt.min_int, GoInt.max_int. lia. }
  destruct Hwt as [[-> ->] | [-> ->]]; cbn [Z.eqb Pos.eqb];
    rewrite Hadd, Hlen; reflexivity.
Qed.

(** ** Skipping a field: groups *)

(** The loop over a group whose fields are each skipped whole by
    [skipRules]: it ends on the end-group tag behind the last field. *)
Lemma skipGroup_fields (endTag : Z) (rest : list Z) (bound : nat) :
  0 <= endTag < 2 ^ 64 -> Z.land endTag 7 = 4 ->
  forall (fields : list Rulespb.field) (pre dAtA : list Z) (fuel : nat),
    Forall (fun f =>
              Rulespb.wellFormed f = true
              /\ forall rest,
                   GoInt.len (Rulespb.encode f ++ rest) + 8 <= GoInt.max_int ->
                   Rulespb.skipRules (Rulespb.encode f ++ rest)
                   = Some (Rulespb.Skipped (GoInt.len (Rulespb.encode f))))
           fields ->
    dAtA = pre ++ concat (map Rulespb.encode fields)
               ++ Rulespb.varint endTag ++ rest ->
    pre <> [] ->
    GoInt.len dAtA + 8 <= GoInt.max_int ->
    (length dAtA <= bound)%nat ->
    (length fields < fuel)%nat ->
    Rulespb.skipGroup fuel (Rulespb.skipRulesWithin bound) dAtA (GoInt.len pre)
    = Some (Rulespb.Skipped
              (GoInt.len pre
               + GoInt.len (concat (map Rulespb.encode fields))
               + Rulespb.sovRules endTag)).
Proof.
  intros Hend Hwt4.
  induction fields as [|f fields IH];
    intros pre dAtA fuel Hfields HdAtA Hpre Hmax Hbound Hfuel;
    (destruct fuel as [|fuel]; [cbn in Hfuel; lia |]);
    cbn [Rulespb.skipGroup map concat] in *.
  - cbn [app] in HdAtA. subst dAtA.
    rewrite decodeVarint_varint by (try assumption; lia).
    cbn zeta. rewrite Hwt4. cbn [Z.eqb Pos.eqb].
    change (GoInt.len (@nil Z)) with 0. do 2 f_equal. lia.
  - apply Forall_cons in Hfields. destruct Hfields as [[Hwf Hskip] Hfields].
    destruct (encode_starts_with_tag f Hwf) as (tag & body & He & Htag & Hwt).
    set (after := concat (map Rulespb.encode fields)
                   ++ Rulespb.varint endTag ++ rest) in *.
    assert (HdAtA' : dAtA = pre ++ Rulespb.varint tag ++ body ++ after).
    { rewrite HdAtA, He, <- !app_assoc. reflexivity. }
    assert (Hread : Rulespb.decodeVarint dAtA (GoInt.len pre) 0 0
                    = Ok (inr (tag, GoInt.len pre + Rulespb.sovRules tag))).
    { rewrite HdAtA'. apply decodeVarint_varint; [exact Htag |].
      rewrite <- HdAtA'. lia. }
    rewrite Hread. cbn zeta.
    destruct (Z.eqb_spec (Z.land tag 7) 4) as [H4 | _]; [contradiction |].
    pose proof (len_nonneg pre) as Hpre0.
    assert (Hsplit : dAtA = pre ++ Rulespb.encode f ++ after)
      by (rewrite HdAtA, <- app_assoc; reflexivity).
    assert (Hlens : length dAtA
                    = (length pre + length (Rulespb.encode f ++ after))%nat)
      by (rewrite Hsplit, length_app; reflexivity).
    assert (Hpre1 : (1 <= length pre)%nat)
      by (destruct pre; [contradiction | cbn; lia]).
    unfold Rulespb.sliceFrom.
    replace ((0 <=? GoInt.len pre) && (GoInt.len pre <=? GoInt.len dAtA))
      with true
      by (symmetry; apply andb_true_iff; unfold GoInt.len; split; lia).
    replace (drop (Z.to_nat (GoInt.len pre)) dAtA)
      with (Rulespb.encode f ++ after)
      by (unfold GoInt.len; rewrite Nat2Z.id, Hsplit, drop_app_length;
          reflexivity).
    assert (Hinner : Rulespb.skipRulesWithin bound (Rulespb.encode f ++ after)
                     = Some (Rulespb.Skipped (GoInt.len (Rulespb.encode f)))).
    { apply (skipRulesWithin_more_fuel
               (S (length (Rulespb.encode f ++ after)))); [lia |].
      apply Hskip. unfold GoInt.len in *. lia. }
    rewrite Hinner.
    pose proof (len_nonneg (Rulespb.encode f)) as Hf0.
    assert (Hsum : GoInt.len pre + GoInt.len (Rulespb.encode f)
                   <= GoInt.max_int).
    { unfold GoInt.len in *. rewrite length_app in Hlens. lia. }
    unfold GoInt.add.
    rewrite wrap_in_range
      by (unfold GoInt.in_range, GoInt.min_int; unfold GoInt.max_int in *; lia).
    destruct (Z.ltb_spec (GoInt.len pre + GoInt.len (Rulespb.encode f)) 0)
      as [Hneg | _]; [lia |].
    replace (GoInt.len pre + GoInt.len (Rulespb.encode f))
      with (GoInt.len (pre ++ Rulespb.encode f))
      by (unfold GoInt.len; rewrite length_app; lia).
    rewrite (IH (pre ++ Rulespb.encode f) dAtA fuel Hfields).
    + do 2 f_equal. unfold GoInt.len. rewrite !length_app. lia.
    + rewrite Hsplit, <- app_assoc. reflexivity.
    + destruct pre; [contradiction | discriminate].
    + exact Hmax.
    + exact Hbound.
    + cbn in Hfuel. lia.
Qed.

(** [skipRules] skips one well-formed field whole, whatever follows it.
    A field is a tag written as a varint and then, by the wire type of
    the tag: a varint; eight bytes; a length as a varint and as many
    bytes; well-formed fields up to an end-group tag, nested to any
    depth; four bytes.  The end-group tag may carry any field number. *)
Theorem skipRules_skips_field (f : Rulespb.field) (rest : list Z) :
  Rulespb.wellFormed f = true ->
  GoInt.len (Rulespb.encode f ++ rest) + 8 <= GoInt.max_int ->
  Rulespb.skipRules (Rulespb.encode f ++ rest)
  = Some (Rulespb.Skipped (GoInt.len (Rulespb.encode f))).
Proof.
  revert rest.
  induction f as [tag v | tag payload | tag payload | startTag fields endTag IH
                 | tag payload] using field_nested_ind;
    intros rest Hwf Hmax; cbn [Rulespb.wellFormed Rulespb.encode] in *;
    rewrite ?andb_true_iff in Hwf.
  - destruct Hwf as [[Ht Hv0] Hv1]. apply isTag_spec in Ht.
    apply Z.leb_le in Hv0. apply Z.ltb_lt in Hv1.
    rewrite <- app_assoc in *.
    rewrite skipRules_varint_field by (try tauto; lia).
    unfold GoInt.len. rewrite length_app.
    pose proof (varint_length tag ltac:(tauto)) as H1.
    pose proof (varint_length v ltac:(lia)) as H2.
    unfold GoInt.len in H1, H2. do 2 f_equal. lia.
  - destruct Hwf as [Ht Hp]. apply isTag_spec in Ht. apply Z.eqb_eq in Hp.
    rewrite <- app_assoc in *.
    apply (skipRules_fixed tag 8); [tauto | left; tauto | exact Hp | lia].
  - apply isTag_spec in Hwf. rewrite <- !app_assoc in *.
    pose proof (len_nonneg payload) as Hp0.
    pose proof (varint_length tag ltac:(tauto)) as H1.
    assert (Hp : 0 <= GoInt.len payload < 2 ^ 64).
    { unfold GoInt.len in *. rewrite !length_app in Hmax.
      unfold GoInt.max_int in Hmax. lia. }
    pose proof (varint_length (GoInt.len payload) Hp) as H2.
    assert (Hlen : GoInt.len (Rulespb.varint tag
                                ++ Rulespb.varint (GoInt.len payload) ++ payload)
                   = Rulespb.sovRules tag
                     + Rulespb.sovRules (GoInt.len payload)
                     + GoInt.len payload).
    { unfold GoInt.len in *. rewrite !length_app. lia. }
    rewrite Hlen.
    apply (skipRules_length_delimited tag (GoInt.len payload) (payload ++ rest));
      [tauto | tauto | lia | | lia].
    rewrite <- Hlen. unfold GoInt.len in *. rewrite !length_app in *. lia.
  - destruct Hwf as [[Hs Hfs] He]. apply isTag_spec in Hs, He.
    rewrite <- !app_assoc in *.
    destruct (skipRules_reads_tag startTag
                (concat (map Rulespb.encode fields)
                   ++ Rulespb.varint endTag ++ rest) ltac:(tauto) ltac:(lia))
      as [Hpos Hread].
    set (dAtA := Rulespb.varint startTag
                   ++ concat (map Rulespb.encode fields)
                   ++ Rulespb.varint endTag ++ rest) in *.
    pose proof (varint_length startTag ltac:(tauto)) as Hls.
    pose proof (varint_length endTag ltac:(tauto)) as Hle.
    destruct (sovRules_bounds startTag ltac:(tauto)) as ([Hs1 _] & _).
    unfold Rulespb.skipRules. cbn [Rulespb.skipRulesWithin]. cbn zeta.
    rewrite Hpos, Hread. destruct Hs as [_ ->]. cbn [Z.eqb Pos.eqb].
    rewrite <- Hls.
    rewrite (skipGroup_fields endTag rest (length dAtA) ltac:(tauto)
               ltac:(tauto) fields (Rulespb.varint startTag) dAtA).
    + do 2 f_equal. unfold GoInt.len in *. rewrite !length_app. lia.
    + pose proof (proj1 (forallb_forall _ _) Hfs) as Hall.
      rewrite Forall_forall in IH.
      apply Forall_forall. intros f Hin.
      assert (Hwf : Rulespb.wellFormed f = true)
        by (apply Hall, list_elem_of_In, Hin).
      split; [exact Hwf |].
      intros rest' Hmax'. apply IH; [exact Hin | exact Hwf | exact Hmax'].
    + reflexivity.
    + intros Hnil. rewrite Hnil in Hls. unfold GoInt.len in Hls.
      cbn in Hls. lia.
    + exact Hmax.
    + lia.
    + pose proof (encode_fields_length fields Hfs) as Hcount.
      subst dAtA. unfold GoInt.len in *. rewrite !length_app. lia.
  - destruct Hwf as [Ht Hp]. apply isTag_spec in Ht. apply Z.eqb_eq in Hp.
    rewrite <- app_assoc in *.
    apply (skipRules_fixed tag 4); [tauto | right; tauto | exact Hp | lia].
Qed.

(** A group that holds a varint field and a field of one byte, with a
    byte behind it: the seven bytes of the group are skipped. *)
Lemma skipRules_skips_field_witness :
  Rulespb.skipRules [11; 8; 1; 18; 1; 7; 12; 99] = Some (Rulespb.Skipped 7).
Proof.
  apply (skipRules_skips_field
           (Rulespb.Group 11
              [Rulespb.Varint 8 1; Rulespb.LengthDelimited 18 [7]] 12) [99]).
  - vm_compute. reflexivity.
  - vm_compute. discriminate.
Defined.
